(** * urbanemissions: the text segmenter and the retrieval aggregator

    A shallow embedding of [src/indexer/chunker.py] (url_to_slug,
    split_into_sentences, chunk_text, chunk_documents) and of
    [src/backend/rag.py] (RAGPipeline.retrieve, generate and query),
    with the properties the design document states about them, and of
    the batching of [src/indexer/embed.py], the crawl loop and the page
    download of [src/scraper/crawl.py], [category_from_url] of
    [src/scraper/extract.py] and the chat endpoint of
    [src/backend/app.py].

    Conventions of the embedding.
    - A Python [str] is a [list ascii]: a sequence of code points below 256.
      [len] is [length].
    - A Python [int] parameter ([chunk_size], [overlap], [min_chunk_size],
      [top_k]) is a [Z]; slices follow Python's rules for negative and
      out-of-range bounds.
    - [chunk_size * 1.5] is a float. [too_long_float] is the test
      [len(current) > chunk_size * 1.5] as binary64 computes it, with its
      [OverflowError]; [too_long] is the exact comparison
      [2 * len(current) > 3 * chunk_size], which [chunk_text] is run
      with. The two agree when [3 * chunk_size] fits the 53-bit
      significand ([float_exact], lemma [too_long_float_exact]); a
      statement that promises a result of the code for every text carries
      that bound as a hypothesis.
    - The [while] loop of [chunk_text] need not terminate for every
      parameter: it is run with fuel, [None] meaning that the fuel ran out.
    - An [IndexError] is [None]. *)

From stdpp Require Import gmap strings list pretty.
From Stdlib Require Import ZArith Ascii Lia.

Local Open Scope Z_scope.

(* ===================================================================== *)
(** * Python strings                                                      *)
(* ===================================================================== *)

Module PyStr.

Abbreviation str := (list ascii).

(** A string literal. Rocq's literals have no escapes: a line feed is
    written [LF]. *)
Definition lit (s : string) : str := String.list_ascii_of_string s.

Definition LF : ascii := ascii_of_nat 10.

(** ["\n\n"] *)
Definition nn : str := [LF; LF].

(** [len(s)] as a Python int. *)
Definition len (s : str) : Z := Z.of_nat (length s).

(** [bool(s)]: a string is truthy when it is not empty. *)
Definition truthy {A} (s : list A) : bool :=
  match s with [] => false | _ => true end.

(** [str.isspace] on one code point below 256, which is also what [\s]
    matches in a [str] pattern: TAB, LF, VT, FF, CR, FS, GS, RS, US,
    SPACE, NEL and NBSP. *)
Definition isspace (c : ascii) : bool :=
  let n := nat_of_ascii c in
  ((9 <=? n)%nat && (n <=? 13)%nat) || ((28 <=? n)%nat && (n <=? 32)%nat)
  || (n =? 133)%nat || (n =? 160)%nat.

(** [[a-zA-Z0-9]] *)
Definition isalnum (c : ascii) : bool :=
  let n := nat_of_ascii c in
  ((48 <=? n)%nat && (n <=? 57)%nat) || ((65 <=? n)%nat && (n <=? 90)%nat)
  || ((97 <=? n)%nat && (n <=? 122)%nat).

(** [[.!?]] *)
Definition ispunct (c : ascii) : bool :=
  let n := nat_of_ascii c in
  (n =? 46)%nat || (n =? 33)%nat || (n =? 63)%nat.

(** [s.lstrip(...)], [s.rstrip(...)], [s.strip(...)] for the set of
    characters [p]. *)
Fixpoint lstrip_by (p : ascii → bool) (s : str) : str :=
  match s with
  | c :: r => if p c then lstrip_by p r else s
  | [] => []
  end.

Definition rstrip_by (p : ascii → bool) (s : str) : str :=
  reverse (lstrip_by p (reverse s)).

Definition strip_by (p : ascii → bool) (s : str) : str :=
  rstrip_by p (lstrip_by p s).

(** [s.strip()] *)
Definition strip (s : str) : str := strip_by isspace s.

(** The start or stop [k] of a slice of a sequence of length [n], as
    Python clamps it. *)
Definition slice_index (n : nat) (k : Z) : nat :=
  if 0 <=? k then Nat.min n (Z.to_nat k)
  else Z.to_nat (Z.max 0 (Z.of_nat n + k)).

(** [s[k:]] *)
Definition slice_from (s : str) (k : Z) : str :=
  drop (slice_index (length s) k) s.

(** [s[:k]] *)
Definition slice_to (s : str) (k : Z) : str :=
  take (slice_index (length s) k) s.

(** [sep.join(l)] *)
Fixpoint join (sep : str) (l : list str) : str :=
  match l with
  | [] => []
  | [s] => s
  | s :: r => s ++ sep ++ join sep r
  end.

(** [s.startswith(p)] *)
Fixpoint startswith (s p : str) {struct p} : bool :=
  match p, s with
  | [], _ => true
  | a :: p', b :: s' => if Ascii.eqb a b then startswith s' p' else false
  | _ :: _, [] => false
  end.

(** [s.replace(old, "")] for a non-empty [old]: the occurrences of [old]
    are removed from left to right, without overlap. [skip] counts the
    characters of the current occurrence that are still to be dropped. *)
Fixpoint remove_go (old : str) (skip : nat) (s : str) : str :=
  match s with
  | [] => []
  | c :: r =>
      match skip with
      | S k => remove_go old k r
      | O =>
          if startswith s old then remove_go old (length old - 1)%nat r
          else c :: remove_go old O r
      end
  end.

Definition remove_all (old s : str) : str := remove_go old O s.

(** [s.split("\n\n")]: cut at every blank-line separator, from left to
    right; [cur] is the piece being read. *)
Fixpoint split_nn_go (cur : str) (s : str) : list str :=
  match s with
  | [] => [cur]
  | c :: r =>
      match r with
      | d :: r' =>
          if decide (c = LF ∧ d = LF) then cur :: split_nn_go [] r'
          else split_nn_go (cur ++ [c]) r
      | [] => [cur ++ [c]]
      end
  end.

Definition split_nn (s : str) : list str := split_nn_go [] s.

(** [str(i)] for a natural number. *)
Definition str_of_nat (i : nat) : str := lit (pretty i).

End PyStr.

Import PyStr.

(* ===================================================================== *)
(** * src/indexer/chunker.py                                              *)
(* ===================================================================== *)

Module Chunker.

(** [url_to_slug], lines 6-10. [re.sub(r"[^a-zA-Z0-9]", "_", slug)]
    rewrites one character at a time. *)
Definition underscore : ascii := ascii_of_nat 95.

Definition sub_non_alnum (s : str) : str :=
  (λ c, if isalnum c then c else underscore) <$> s.

Definition is_underscore (c : ascii) : bool := bool_decide (c = underscore).

Definition url_to_slug (url : str) : str :=
  let slug := remove_all (lit "http://") (remove_all (lit "https://") url) in
  let slug := sub_non_alnum slug in
  strip_by is_underscore slug.

(** [split_into_sentences], lines 13-15:
    [re.split(r"(?<=[.!?])\s+", text)]. A separator is a maximal run of
    whitespace that follows one of [.!?]; [skipping] is set while such a
    run is being consumed and [cur] is the piece being read. *)
Fixpoint split_sentences_go (skipping : bool) (cur : str) (s : str) : list str :=
  match s with
  | [] => [cur]
  | c :: r =>
      if skipping && isspace c then split_sentences_go true cur r
      else if ispunct c && match r with d :: _ => isspace d | [] => false end
      then (cur ++ [c]) :: split_sentences_go true [] r
      else split_sentences_go false (cur ++ [c]) r
  end.

Definition split_into_sentences (text : str) : list str :=
  split_sentences_go false [] text.

(** Line 27: the stripped, non-empty paragraphs of [text]. *)
Definition paragraphs (text : str) : list str :=
  filter (λ p, p ≠ []) (strip <$> split_nn text).

(** The state of the paragraph loop: the chunks finalized so far and the
    working buffer [current]. *)
Definition state : Type := list str * str.

(** Lines 34-48: a paragraph joins the buffer, which is finalized first
    when the paragraph does not fit. *)
Definition absorb (chunk_size overlap : Z) (st : state) (para : str) : state :=
  let '(chunks, current) := st in
  if truthy current && (chunk_size <? len current + len para + 2) then
    let chunks := chunks ++ [current] in
    if overlap <? len current then
      let overlap_text := slice_from current (- overlap) in
      let sentences := split_into_sentences overlap_text in
      if (1 <? length sentences)%nat
      then (chunks, join (lit " ") (drop 1 sentences) ++ nn ++ para)
      else (chunks, overlap_text ++ nn ++ para)
    else (chunks, current ++ nn ++ para)
  else
    (chunks, if truthy current then strip (current ++ nn ++ para) else para).

(** Lines 56-60: the walk over the sentences of the buffer. [Some] is
    the [break] at a sentence that does not fit, with the candidate chunk
    and [sentences[i:]]; [None] is the loop running to its end, which
    selects the [else] clause of the [for]. *)
Fixpoint sentence_walk (chunk_size : Z) (chunk : str) (sentences : list str)
  : option (str * list str) :=
  match sentences with
  | [] => None
  | sent :: rest =>
      if (chunk_size <? len chunk + len sent + 1) && truthy chunk
      then Some (chunk, sentences)
      else sentence_walk chunk_size
             (if truthy chunk then strip (chunk ++ lit " " ++ sent) else sent)
             rest
  end.

(** Line 51: [len(current) > chunk_size * 1.5], in exact arithmetic. *)
Definition too_long (chunk_size : Z) (current : str) : bool :=
  3 * chunk_size <? 2 * len current.

(** Line 51 as Python evaluates it. [chunk_size * 1.5] is
    [float(chunk_size) * 1.5] in binary64.

    [round53 n], for [0 ≤ n], is the integer with a significand of 53
    bits that is nearest to [n], ties going to the even significand. *)
Definition round53 (n : Z) : Z :=
  let shift := Z.log2 n - 52 in
  if shift <=? 0 then n
  else
    let q := n / 2 ^ shift in
    let r := n mod 2 ^ shift in
    let half := 2 ^ (shift - 1) in
    (if (half <? r) || ((r =? half) && Z.odd q) then q + 1 else q) * 2 ^ shift.

(** [float(n)] for an int: the nearest binary64, an integer; [None] is
    the [OverflowError] of an int too large to convert. *)
Definition float_of_int (n : Z) : option Z :=
  let m := round53 (Z.abs n) in
  if 2 ^ 1024 <=? m then None else Some (Z.sgn n * m).

(** The product by [1.5] is rounded in its turn, and is infinite, without
    an error, from [2 ^ 1024] on: [d] is twice its absolute value. An int
    and a float are compared exactly. *)
Definition too_long_float (chunk_size : Z) (current : str) : option bool :=
  f ← float_of_int chunk_size;
  let d := round53 (Z.abs (3 * f)) in
  Some (if f <? 0 then true
        else if 2 ^ 1025 <=? d then false
        else d <? 2 * len current).

(** Lines 53-68: one iteration of the forced split. After a [break] the
    candidate chunk is finalized and the remaining sentences become the
    buffer; otherwise the buffer is cut at [chunk_size] and resumes
    [chunk_size - overlap] characters into it. *)
Definition split_once (chunk_size overlap : Z) (st : state) : state :=
  let '(chunks, current) := st in
  match sentence_walk chunk_size [] (split_into_sentences current) with
  | Some (chunk, remaining_sentences) =>
      (chunks ++ [chunk], join (lit " ") remaining_sentences)
  | None =>
      (chunks ++ [slice_to current chunk_size],
       slice_from current (chunk_size - overlap))
  end.

(** Lines 51-68: the forced split of an over-long buffer. One unit of
    fuel is spent per iteration of the [while]. *)
Fixpoint force_split (fuel : nat) (chunk_size overlap : Z) (st : state)
  : option state :=
  if too_long chunk_size st.2 then
    match fuel with
    | O => None
    | S fuel => force_split fuel chunk_size overlap (split_once chunk_size overlap st)
    end
  else Some st.

(** Lines 32-68: the loop over the paragraphs. *)
Fixpoint paragraph_loop (fuel : nat) (chunk_size overlap : Z)
    (paras : list str) (st : state) : option state :=
  match paras with
  | [] => Some st
  | para :: rest =>
      st ← force_split fuel chunk_size overlap (absorb chunk_size overlap st para);
      paragraph_loop fuel chunk_size overlap rest st
  end.

(** Lines 26-71: the chunks before the title is prepended. *)
Definition segment (fuel : nat) (text : str) (chunk_size overlap : Z)
  : option (list str) :=
  '(chunks, current) ← paragraph_loop fuel chunk_size overlap (paragraphs text) ([], []);
  Some (if truthy current then chunks ++ [current] else chunks).

(** Lines 74-78: strip, drop the short chunks, prepend the title. *)
Fixpoint retain (title : str) (min_chunk_size : Z) (chunks : list str) : list str :=
  match chunks with
  | [] => []
  | chunk :: rest =>
      let chunk := strip chunk in
      if min_chunk_size <=? len chunk
      then (title ++ nn ++ chunk) :: retain title min_chunk_size rest
      else retain title min_chunk_size rest
  end.

(** [chunk_text], lines 18-80. *)
Definition chunk_text (fuel : nat) (text title : str)
    (chunk_size overlap min_chunk_size : Z) : option (list str) :=
  chunks ← segment fuel text chunk_size overlap;
  Some (retain title min_chunk_size chunks).

(** The defaults of [chunk_text]. *)
Definition default_chunk_size : Z := 800.
Definition default_overlap : Z := 200.
Definition default_min_chunk_size : Z := 100.

(** The document and chunk dictionaries. *)
Record Document := mkDocument {
  doc_url : str; doc_title : str; doc_category : str; doc_text : str }.

Record Metadata := mkMetadata {
  url : str; title : str; category : str; chunk_index : nat }.

Record Chunk := mkChunk {
  chunk_id : str; chunk_body : str; chunk_metadata : Metadata }.

(** Lines 96-108: the chunks of one document; the id is [f"{slug}_{i}"]. *)
Definition assemble (doc : Document) (slug : str) (chunks : list str) : list Chunk :=
  imap (λ i chunk,
          mkChunk (slug ++ [underscore] ++ str_of_nat i) chunk
            (mkMetadata (doc_url doc) (doc_title doc) (doc_category doc) i))
       chunks.

(** [chunk_documents], lines 83-111, without the final [print]. *)
Fixpoint chunk_documents_loop (fuel : nat) (documents : list Document)
    (all_chunks : list Chunk) : option (list Chunk) :=
  match documents with
  | [] => Some all_chunks
  | doc :: rest =>
      let slug := url_to_slug (doc_url doc) in
      chunks ← chunk_text fuel (doc_text doc) (doc_title doc)
                 default_chunk_size default_overlap default_min_chunk_size;
      chunk_documents_loop fuel rest (all_chunks ++ assemble doc slug chunks)
  end.

Definition chunk_documents (fuel : nat) (documents : list Document)
  : option (list Chunk) :=
  chunk_documents_loop fuel documents [].

End Chunker.

(* ===================================================================== *)
(** * src/backend/rag.py                                                  *)
(* ===================================================================== *)

Module Rag.

Import Chunker.

Section Pipeline.

(** A distance is a float that the pipeline only carries around. *)
Context {distance : Type}.

(** The first row of the answer of the vector store: four arrays that
    the loop of [retrieve] reads by index. *)
Record Results := mkResults {
  ids : list str;
  documents : list str;
  metadatas : list Metadata;
  distances : list distance }.

(** A retrieved hit, the dictionary built at lines 59-64. *)
Record Hit := mkHit {
  hit_id : str; hit_text : str; hit_metadata : Metadata; hit_distance : distance }.

(** [n_results], line 39. *)
Definition n_results (top_k : Z) : Z := Z.min (top_k * 3) 20.

(** Lines 50-68. [i] is the index of [enumerate] and [rest] what is left
    of [results["ids"][0]]; [url_counts] is the [defaultdict(int)]. *)
Fixpoint dedupe_loop (results : Results) (top_k : Z) (i : nat) (rest : list str)
    (url_counts : gmap str nat) (deduped : list Hit) : option (list Hit) :=
  match rest with
  | [] => Some deduped
  | doc_id :: rest =>
      metadata ← metadatas results !! i;
      let u := url metadata in
      let count := default O (url_counts !! u) in
      if (2 <=? count)%nat
      then dedupe_loop results top_k (S i) rest url_counts deduped
      else
        let url_counts := <[u := S count]> url_counts in
        document ← documents results !! i;
        dist ← distances results !! i;
        let deduped := deduped ++ [mkHit doc_id document metadata dist] in
        if top_k <=? Z.of_nat (length deduped) then Some deduped
        else dedupe_loop results top_k (S i) rest url_counts deduped
  end.

(** [retrieve], lines 43-70, on the answer of the vector store. *)
Definition retrieve (results : Results) (top_k : Z) : option (list Hit) :=
  if truthy (ids results) then dedupe_loop results top_k O (ids results) ∅ []
  else Some [].

(** [retrieve], lines 32-70. [collection_query n] is the first row of
    the answer of the vector store to the embedded query when [n]
    results are asked for, [None] when the store raises instead of
    answering, which ends [retrieve] as well. *)
Definition retrieve_from (collection_query : Z → option Results) (top_k : Z)
  : option (list Hit) :=
  results ← collection_query (n_results top_k);
  retrieve results top_k.

(** The pydantic model [Source] of [backend/models.py]. *)
Record Source := mkSource {
  source_url : str;
  source_title : str;
  source_category : str;
  snippet : str;
  quotes : list str }.

(** Lines 147-149: the text of a hit without its title prefix. *)
Definition recover_raw (ctx : Hit) : str :=
  let title := title (hit_metadata ctx) in
  let raw := hit_text ctx in
  if startswith raw (title ++ nn) then drop (length title + 2) raw else raw.

(** Line 150. *)
Definition quote_of (ctx : Hit) : str := strip (recover_raw ctx).

(** Lines 158-160. *)
Definition snippet_of (ctx : Hit) : str :=
  let raw := recover_raw ctx in
  let snippet := strip (take 200 raw) in
  if (200 <? length raw)%nat then snippet ++ lit "..." else snippet.

(** [sources[idx].quotes.append(quote)] *)
Definition add_quote (quote : str) (s : Source) : Source :=
  mkSource (source_url s) (source_title s) (source_category s) (snippet s)
    (quotes s ++ [quote]).

(** Lines 143-169. *)
Fixpoint sources_loop (contexts : list Hit) (sources : list Source)
    (seen_urls : gmap str nat) : option (list Source) :=
  match contexts with
  | [] => Some sources
  | ctx :: rest =>
      let u := url (hit_metadata ctx) in
      match seen_urls !! u with
      | Some idx =>
          s ← sources !! idx;
          sources_loop rest (<[idx := add_quote (quote_of ctx) s]> sources) seen_urls
      | None =>
          sources_loop rest
            (sources ++ [mkSource u (title (hit_metadata ctx))
                           (category (hit_metadata ctx)) (snippet_of ctx)
                           [quote_of ctx]])
            (<[u := length sources]> seen_urls)
      end
  end.

(** The sources that [query] returns for the contexts of [retrieve],
    lines 131-171. *)
Definition query_sources (contexts : list Hit) : option (list Source) :=
  if truthy contexts then sources_loop contexts [] ∅ else Some [].

End Pipeline.

Arguments Results : clear implicits.
Arguments Hit : clear implicits.

End Rag.

(* ===================================================================== *)
(** * Python lists                                                        *)
(* ===================================================================== *)

Module PyList.

(** [range(0, n, step)] for a positive [step]: the multiples of [step]
    below [n]; there are [ceil(n / step)] of them. *)
Definition range_step (n step : nat) : list nat :=
  (λ k, k * step)%nat <$> seq 0 ((n + step - 1) / step).

(** [l[i : i + size]] *)
Definition window {A} (size : nat) (l : list A) (i : nat) : list A :=
  take size (drop i l).

(** [l[-6:]] *)
Definition last_six {A} (l : list A) : list A := drop (length l - 6) l.

End PyList.

Import PyList.

(* ===================================================================== *)
(** * src/backend/rag.py: generate and query                              *)
(* ===================================================================== *)

Module Prompt.

Import Chunker Rag.

Section Generate.

Context {distance : Type}.

(** [genai.types.Content] with its [Part]s reduced to their text. *)
Record Content := mkContent { role : str; parts : list str }.

(** A message of the chat history: a dictionary. *)
Abbreviation Message := (gmap str str).

(** Lines 81-88, one context with its number [i]. *)
Definition context_part (i : nat) (ctx : Hit distance) : str :=
  let meta := hit_metadata ctx in
  lit "[Source " ++ str_of_nat i ++ lit ": " ++ title meta ++ lit "]" ++ [LF]
  ++ lit "URL: " ++ url meta ++ [LF]
  ++ lit "Category: " ++ category meta ++ [LF]
  ++ hit_text ctx ++ [LF].

(** Lines 80-89: [enumerate(contexts, 1)] and the join. *)
Definition context_block (contexts : list (Hit distance)) : str :=
  join ([LF] ++ lit "---" ++ [LF])
    (imap (λ i ctx, context_part (S i) ctx) contexts).

(** Lines 95-101, one message of the history. [msg.get("role")] may be
    missing; [msg["content"]] raises [KeyError], which is [None]. *)
Definition history_content (msg : Message) : option Content :=
  let role :=
    if decide (msg !! lit "role" = Some (lit "user")) then lit "user"
    else lit "model" in
  content ← msg !! lit "content";
  Some (mkContent role [content]).

(** Lines 92-101: the last six messages, when there is a history. *)
Definition history_contents (chat_history : option (list Message))
  : option (list Content) :=
  match chat_history with
  | Some history =>
      if truthy history then mapM history_content (last_six history)
      else Some []
  | None => Some []
  end.

(** Lines 104-107. *)
Definition user_message (question : str) (contexts : list (Hit distance)) : str :=
  lit "Context from urbanemissions.info:" ++ nn ++ context_block contexts
  ++ nn ++ lit "Question: " ++ question.

(** Lines 79-113: the contents handed to the model. *)
Definition build_contents (question : str) (contexts : list (Hit distance))
    (chat_history : option (list Message)) : option (list Content) :=
  contents ← history_contents chat_history;
  Some (contents ++ [mkContent (lit "user") [user_message question contexts]]).

(** [generate], lines 72-125. [llm] is the text of the response of the
    model to the contents (with the fixed system prompt and
    configuration). *)
Definition generate (llm : list Content → str) (question : str)
    (contexts : list (Hit distance)) (chat_history : option (list Message))
  : option str :=
  contents ← build_contents question contexts chat_history;
  Some (llm contents).

(** Line 135. *)
Definition no_context_answer : str :=
  lit "I couldn't find any relevant information from urbanemissions.info for this question.".

(** [query], lines 127-171, on the answer [results] of the vector store
    to the request of [retrieve] (with the default [top_k = 6]). *)
Definition query (results : Results distance) (llm : list Content → str)
    (question : str) (chat_history : option (list Message))
  : option (str * list Source) :=
  contexts ← retrieve results 6;
  if truthy contexts then
    answer ← generate llm question contexts chat_history;
    sources ← sources_loop contexts [] ∅;
    Some (answer, sources)
  else Some (no_context_answer, []).

End Generate.

End Prompt.

(* ===================================================================== *)
(** * src/indexer/embed.py                                                *)
(* ===================================================================== *)

Module Embed.

Import Chunker.

Definition BATCH_SIZE : nat := 100.

Section Store.

(** The embedding model: [model.encode(texts).tolist()]. *)
Context {embedding : Type} (encode : list str → list embedding).

(** The arguments of one [collection.upsert]. *)
Record Upsert := mkUpsert {
  up_ids : list str;
  up_documents : list str;
  up_embeddings : list embedding;
  up_metadatas : list Metadata }.

(** Lines 37-50, the batch that starts at [i]. *)
Definition upsert_at (chunks : list Chunk) (i : nat) : Upsert :=
  let batch := window BATCH_SIZE chunks i in
  let texts := chunk_body <$> batch in
  mkUpsert (chunk_id <$> batch) texts (encode texts) (chunk_metadata <$> batch).

(** Lines 36-50 of [embed_and_store]: the calls of [collection.upsert],
    in order. *)
Definition upserts (chunks : list Chunk) : list Upsert :=
  upsert_at chunks <$> range_step (length chunks) BATCH_SIZE.

End Store.

End Embed.

(* ===================================================================== *)
(** * src/scraper/crawl.py                                                *)
(* ===================================================================== *)

Module Crawl.

Definition CONCURRENCY : nat := 5.

(** [url_to_slug], lines 16-20: the same text as in the chunker. *)
Definition url_to_slug (url : str) : str :=
  let slug := remove_all (lit "http://") (remove_all (lit "https://") url) in
  let slug := Chunker.sub_non_alnum slug in
  strip_by Chunker.is_underscore slug.

(** What is raised inside the [try] of [download_page]: an [Exception],
    which line 47 catches, or another [BaseException] (a cancellation,
    an interrupt), which it does not. *)
Inductive Raise :=
  | Caught
  | Uncaught.

(** What [dest.write_text(...)] does: it writes the file, or it raises,
    before the file is created or leaving a file with some content
    behind. *)
Inductive Write :=
  | Written
  | NotWritten (raised : Raise) (left_behind : option str).

(** How a call of [download_page] ends: it returns its url with a flag,
    or an exception leaves it. *)
Inductive Download :=
  | Returned (success : bool)
  | Raised.

(** [download_page], lines 31-49, one call with no other task at work
    between its test and its write. [files] are the files of [DATA_DIR]
    by name.
    - [stat_raises dest]: [dest.exists()] raises [OSError] (a name that
      the system refuses, for one). Line 38 is outside the [try], so the
      exception leaves the call.
    - [fetch url]: the text of the response, or what was raised while
      waiting for the semaphore, by the request, by [raise_for_status]
      or by the decoding.
    - [write_text dest text]: what the write of line 45 does. *)
Definition download_page (stat_raises : str → bool) (fetch : str → str + Raise)
    (write_text : str → str → Write) (files : gmap str str) (url : str)
  : Download * gmap str str :=
  let slug := url_to_slug url in
  let dest := slug ++ lit ".html" in
  if stat_raises dest then (Raised, files)
  else if decide (is_Some (files !! dest)) then (Returned true, files)
  else
    match fetch url with
    | inl text =>
        match write_text dest text with
        | Written => (Returned true, <[dest := text]> files)
        | NotWritten raised left_behind =>
            (match raised with Caught => Returned false | Uncaught => Raised end,
             match left_behind with
             | Some partial => <[dest := partial]> files
             | None => files
             end)
        end
    | inr Caught => (Returned false, files)
    | inr Uncaught => (Raised, files)
    end.

(** The bookkeeping of [crawl]. *)
Record Progress := mkProgress {
  downloaded : list str;
  failed : list str;
  sleeps : nat }.

(** Lines 78-82, one result of [asyncio.gather]. *)
Definition record_result (p : Progress) (result : str * bool) : Progress :=
  let '(url, success) := result in
  if success then mkProgress (downloaded p ++ [url]) (failed p) (sleeps p)
  else mkProgress (downloaded p) (failed p ++ [url]) (sleeps p).

(** Lines 73-88, the batch that starts at [i]. [success n] tells whether
    the download of the [n]-th url of the sitemap succeeded:
    [download_page] returns its url with that flag, and [gather] keeps
    the order of the batch. *)
Definition crawl_batch (success : nat → bool) (urls : list str)
    (p : Progress) (i : nat) : Progress :=
  let batch_size := CONCURRENCY in
  let batch := window batch_size urls i in
  let results := imap (λ j url, (url, success (i + j)%nat)) batch in
  let p := foldl record_result p results in
  if (i + batch_size <? length urls)%nat
  then mkProgress (downloaded p) (failed p) (S (sleeps p))
  else p.

(** Lines 67-91 of [crawl]. *)
Definition crawl_loop (success : nat → bool) (urls : list str) : Progress :=
  foldl (crawl_batch success urls) (mkProgress [] [] 0)
    (range_step (length urls) CONCURRENCY).

End Crawl.

(* ===================================================================== *)
(** * src/scraper/extract.py                                              *)
(* ===================================================================== *)

Module Extract.

(** [s.split(sep)] for a non-empty [sep]: cut at the occurrences of
    [sep], from left to right and without overlap. [skip] counts the
    characters of the current occurrence still to be dropped and [cur]
    is the piece being read. *)
Fixpoint split_go (sep : str) (skip : nat) (cur : str) (s : str) : list str :=
  match s with
  | [] => [cur]
  | c :: r =>
      match skip with
      | S k => split_go sep k cur r
      | O =>
          if startswith s sep then cur :: split_go sep (length sep - 1)%nat [] r
          else split_go sep O (cur ++ [c]) r
      end
  end.

Definition split (sep s : str) : list str := split_go sep O [] s.

Definition slash : ascii := ascii_of_nat 47.
Definition dash : ascii := ascii_of_nat 45.
Definition space : ascii := ascii_of_nat 32.

Definition is_slash (c : ascii) : bool := bool_decide (c = slash).

(** [cat.replace("-", " ")] *)
Definition dashes_to_spaces (s : str) : str :=
  (λ c, if decide (c = dash) then space else c) <$> s.

Section Category.

(** [str.title()], which follows the case tables of Unicode. *)
Context (str_title : str → str).

(** [category_from_url], lines 13-20. [split] never returns an empty
    list, so [[-1]] is its last piece; [len(parts) >= 2] with [parts[1]]
    is the second piece when there is one. *)
Definition category_from_url (url : str) : str :=
  let path := List.last (split [slash; slash] (rstrip_by is_slash url)) [] in
  let parts := split [slash] path in
  match parts with
  | _ :: cat :: _ => str_title (dashes_to_spaces cat)
  | _ => lit "General"
  end.

End Category.

End Extract.

(* ===================================================================== *)
(** * src/backend/app.py and models.py: the chat endpoint                 *)
(* ===================================================================== *)

Module App.

Import Rag.

(** The schemas of [models.py]; [Source] is the record of the sources. *)
Record ChatMessage := mkChatMessage { msg_role : str; msg_content : str }.

Record ChatRequest := mkChatRequest {
  question : str;
  chat_history : list ChatMessage }.

Record ChatResponse := mkChatResponse {
  answer : str;
  sources : list Source }.

(** Line 36: one dictionary per message of the request. *)
Definition history_of (request : ChatRequest) : list (gmap str str) :=
  (λ m, <[lit "role" := msg_role m]> (<[lit "content" := msg_content m]> ∅))
  <$> chat_history request.

(** [chat], lines 35-38, with the pipeline initialised: [results] is the
    answer of the vector store and [llm] the model, as for [query]. *)
Definition chat {distance : Type} (results : Results distance)
    (llm : list Prompt.Content → str) (request : ChatRequest)
  : option ChatResponse :=
  '(answer, sources) ← Prompt.query results llm (question request)
                          (Some (history_of request));
  Some (mkChatResponse answer sources).

End App.

(* ===================================================================== *)
(** * Notions used by the statements                                      *)
(* ===================================================================== *)

Import Chunker.

(** The text without its whitespace: what the segmenter never rewrites. *)
Definition nows (s : str) : str := filter (λ c, isspace c = false) s.

(** [W sep l]: the length of [sep.join(l)] plus one separator. *)
Definition weight (n : nat) (l : list str) : nat :=
  sum_list_with (λ s, length s + n)%nat l.

(** No whitespace at either end: a fixed point of [strip]. *)
Definition trimmed (s : str) : Prop :=
  match s with c :: _ => isspace c = false | [] => True end
  ∧ match reverse s with c :: _ => isspace c = false | [] => True end.

(** The buffer and the finalized chunks are at most [m] characters
    long. *)
Definition fits (m : nat) (st : state) : Prop :=
  (length st.2 ≤ m)%nat ∧ Forall (λ c : str, (length c ≤ m)%nat) st.1.

(** [3 * chunk_size] fits the 53-bit significand of a binary64: the
    product [chunk_size * 1.5] of line 51 is then exact, and the test of
    the code is [too_long]. The default 800 is in that range. *)
Definition float_exact (chunk_size : Z) : Prop :=
  - 2 ^ 53 ≤ 3 * chunk_size ≤ 2 ^ 53.

(** The body of a chunk of [chunk_text]: the chunk without the title
    and the blank line in front of it. *)
Definition body_of (title chunk : str) : str := drop (length title + 2) chunk.

(** [chunk] was finalized by the sentence walk of the forced split, on
    some over-long buffer. *)
Definition sentence_walked (chunk_size : Z) (chunk : str) : Prop :=
  ∃ buffer remaining,
    too_long chunk_size buffer = true
    ∧ sentence_walk chunk_size [] (split_into_sentences buffer)
      = Some (chunk, remaining).


(** The overlap carry-over as the design document words it: the last
    [overlap] characters of the finalized buffer, split into sentences,
    without the first sentence when there is more than one. *)
Definition last_chars (n : nat) (s : str) : str := drop (length s - n) s.

Definition overlap_seed (overlap : Z) (buffer : str) : str :=
  let fragment := last_chars (Z.to_nat overlap) buffer in
  let sentences := split_into_sentences fragment in
  if (1 <? length sentences)%nat then join (lit " ") (drop 1 sentences)
  else fragment.

(** The paragraph loop finalizes [current] and seeds the next buffer
    with that carry-over. *)
Definition carries_overlap_seed (chunk_size overlap : Z)
    (chunks : list str) (current para : str) : Prop :=
  absorb chunk_size overlap (chunks, current) para
  = (chunks ++ [current], overlap_seed overlap current ++ nn ++ para).

(** Coverage, read up to whitespace and up to the overlap: after
    dropping a prefix (the overlap) from every body, the bodies in order
    spell the text, whitespace apart. *)
Definition covers (text : str) (bodies : list str) : Prop :=
  ∃ fresh : list str,
    Forall2 suffix fresh bodies ∧ nows (concat fresh) = nows text.

(** The invariant behind coverage: [w], the non-whitespace characters
    consumed so far, is spelled by a suffix of every finalized chunk
    followed by a suffix of the buffer. *)
Definition covered_by (w : str) (st : state) : Prop :=
  ∃ (ws : list str) (wr : str),
    Forall2 (λ w c, w `suffix_of` nows c) ws st.1
    ∧ wr `suffix_of` nows st.2
    ∧ concat ws ++ wr = w.

(** The slug as the design document words it: every run of
    non-alphanumeric characters becomes a single separator. [in_run] is
    set while such a run is being read. *)
Fixpoint collapse_runs (in_run : bool) (s : str) : str :=
  match s with
  | [] => []
  | c :: r =>
      if isalnum c then c :: collapse_runs false r
      else if in_run then collapse_runs true r
      else underscore :: collapse_runs true r
  end.

Definition url_to_slug_by_runs (url : str) : str :=
  strip_by is_underscore
    (collapse_runs false
       (remove_all (lit "http://") (remove_all (lit "https://") url))).

(** The chunks that [chunk_documents] makes of one document. *)
Definition chunks_of_document (doc : Document) (block : list Chunk) (fuel : nat) : Prop :=
  ∃ bodies,
    chunk_text fuel (doc_text doc) (doc_title doc)
      default_chunk_size default_overlap default_min_chunk_size = Some bodies
    ∧ block = assemble doc (url_to_slug (doc_url doc)) bodies.

Import Rag.

Section RagNotions.

Context {distance : Type}.

Implicit Types (h : Hit distance) (hits : list (Hit distance)) (u : str).

Definition hit_url h : str := url (hit_metadata h).

(** The hits that the four arrays of the vector store describe, row by
    row. *)
Fixpoint rows (ids documents : list str) (metadatas : list Metadata)
    (distances : list distance) : list (Hit distance) :=
  match ids, documents, metadatas, distances with
  | i :: ids, d :: documents, m :: metadatas, x :: distances =>
      mkHit i d m x :: rows ids documents metadatas distances
  | _, _, _, _ => []
  end.

Definition hits_of (results : Results distance) : list (Hit distance) :=
  rows (ids results) (documents results) (metadatas results) (distances results).

(** The arrays are index-aligned. *)
Definition aligned (results : Results distance) : Prop :=
  length (documents results) = length (ids results)
  ∧ length (metadatas results) = length (ids results)
  ∧ length (distances results) = length (ids results).

(** The store answers with at most the [n] rows it is asked for, and
    with none when [n] is not positive. *)
Definition within_request (results : Results distance) (n : Z) : Prop :=
  Z.of_nat (length (ids results)) ≤ Z.max 0 n.

(** The hits of the page [u], and their number. *)
Definition hits_with u hits : list (Hit distance) :=
  filter (λ h, hit_url h = u) hits.

Definition url_count u hits : nat := length (hits_with u hits).

(** The deduplication as the design document words it, without the stop
    at [top_k]: the hits are read in order and a hit is accepted when
    fewer than two hits of its page were accepted before it. *)
Fixpoint cap_per_url (accepted hits : list (Hit distance)) : list (Hit distance) :=
  match hits with
  | [] => accepted
  | h :: rest =>
      if decide (url_count (hit_url h) accepted < 2)%nat
      then cap_per_url (accepted ++ [h]) rest
      else cap_per_url accepted rest
  end.

(** The distinct urls in the order of their first occurrence. *)
Fixpoint first_seen (urls : list str) : list str :=
  match urls with
  | [] => []
  | u :: rest => u :: filter (λ v, v ≠ u) (first_seen rest)
  end.

(** The sources of a hit list, one per page: the first hit of a page
    gives the url, title, category and snippet, and every hit of the page
    gives a quote. *)
Fixpoint aggregate hits : list Source :=
  match hits with
  | [] => []
  | h :: rest =>
      mkSource (hit_url h) (title (hit_metadata h)) (category (hit_metadata h))
        (snippet_of h) (quote_of h :: (quote_of <$> hits_with (hit_url h) rest))
      :: filter (λ s, source_url s ≠ hit_url h) (aggregate rest)
  end.

(** The source that the first hit of a page creates, and the effect of
    a later hit of the page [u] on a source. *)
Definition new_source h : Source :=
  mkSource (hit_url h) (title (hit_metadata h)) (category (hit_metadata h))
    (snippet_of h) [quote_of h].

Definition bump u (quote : str) (s : Source) : Source :=
  if decide (source_url s = u) then add_quote quote s else s.

Definition total_quotes (sources : list Source) : nat :=
  sum_list_with (λ s, length (quotes s)) sources.

(** [seen_urls] maps every url of [sources] to its index, and nothing
    else. *)
Definition indexes (seen_urls : gmap str nat) (sources : list Source) : Prop :=
  ∀ u i, seen_urls !! u = Some i ↔ (source_url <$> sources) !! i = Some u.

(** The snippet as the design document words it: the first 200
    characters of the recovered text, and an ellipsis when the text is
    longer. *)
Definition snippet_as_stated (recovered : str) : str :=
  take 200 recovered ++ (if (200 <? length recovered)%nat then lit "..." else []).

(** The quotes of a source as the design document words them: the
    recovered texts of the hits of its page. *)
Definition quotes_recovered hits (s : Source) : Prop :=
  quotes s = recover_raw <$> hits_with (source_url s) hits.

(** The source of a single hit as the design document words it. *)
Definition source_as_stated h : Source :=
  mkSource (hit_url h) (title (hit_metadata h)) (category (hit_metadata h))
    (snippet_as_stated (recover_raw h)) [recover_raw h].

End RagNotions.

(** Some character of [.!?] is followed by whitespace. *)
Fixpoint has_boundary (s : str) : bool :=
  match s with
  | [] => false
  | c :: r =>
      (ispunct c && match r with d :: _ => isspace d | [] => false end)
      || has_boundary r
  end.

Section RowNotions.

Context {distance : Type}.

(** [h] is a row of the four arrays: its fields sit at one common
    index. *)
Definition is_row (results : Results distance) (h : Hit distance) : Prop :=
  ∃ i, ids results !! i = Some (hit_id h)
       ∧ documents results !! i = Some (hit_text h)
       ∧ metadatas results !! i = Some (hit_metadata h)
       ∧ distances results !! i = Some (hit_distance h).

End RowNotions.

(** The results of the downloads of a crawl, by position in the
    sitemap, and the urls of the results with a given flag. *)
Definition outcomes (success : nat → bool) (urls : list str) : list (str * bool) :=
  imap (λ n url, (url, success n)) urls.

Definition urls_with (flag : bool) (results : list (str * bool)) : list str :=
  (filter (λ r, r.2 = flag) results).*1.

(** A string without a slash, and a piece of a path: not empty and
    without a slash. *)
Definition slash_free (s : str) : bool :=
  forallb (λ c, negb (Extract.is_slash c)) s.

Definition path_piece (s : str) : bool := truthy s && slash_free s.

(** What the model is given for one message of a chat request. *)
Definition content_of (m : App.ChatMessage) : Prompt.Content :=
  Prompt.mkContent
    (if decide (App.msg_role m = lit "user") then lit "user" else lit "model")
    [App.msg_content m].

(* ===================================================================== *)
(** * Facts about Python strings                                          *)
(* ===================================================================== *)

Section StrFacts.

Implicit Types (s t : str) (p : ascii → bool).

Lemma len_nonneg s : 0 ≤ len s.
Proof. unfold len. lia. Qed.

Lemma truthy_true {A} (l : list A) : truthy l = true ↔ l ≠ [].
Proof. destruct l; simpl; split; intros; congruence. Qed.

Lemma truthy_false {A} (l : list A) : truthy l = false ↔ l = [].
Proof. destruct l; simpl; split; intros; congruence. Qed.

Lemma lstrip_by_suffix p s : lstrip_by p s `suffix_of` s.
Proof.
  induction s as [|c r IH]; simpl; [done|].
  destruct (p c); [by apply suffix_cons_r | done].
Qed.

Lemma lstrip_by_split p s :
  ∃ k, s = k ++ lstrip_by p s ∧ Forall (λ c, p c = true) k.
Proof.
  induction s as [|c r (k & Hk & Hall)]; simpl.
  - by exists [].
  - destruct (p c) eqn:Hc.
    + exists (c :: k). split; [simpl; congruence | by constructor].
    + by exists [].
Qed.

Lemma rstrip_by_split p s :
  ∃ k, s = rstrip_by p s ++ k ∧ Forall (λ c, p c = true) k.
Proof.
  unfold rstrip_by.
  destruct (lstrip_by_split p (reverse s)) as (k & Hk & Hall).
  exists (reverse k). split; [|by apply Forall_reverse].
  rewrite <- reverse_app, <- Hk. by rewrite reverse_involutive.
Qed.

Lemma strip_by_split p s :
  ∃ k1 k2, s = k1 ++ strip_by p s ++ k2
           ∧ Forall (λ c, p c = true) k1 ∧ Forall (λ c, p c = true) k2.
Proof.
  unfold strip_by.
  destruct (lstrip_by_split p s) as (k1 & H1 & Hall1).
  destruct (rstrip_by_split p (lstrip_by p s)) as (k2 & H2 & Hall2).
  exists k1, k2. split; [|done]. by rewrite <- H2.
Qed.

Lemma strip_by_length p s : (length (strip_by p s) ≤ length s)%nat.
Proof.
  destruct (strip_by_split p s) as (k1 & k2 & H & _).
  rewrite H at 2. rewrite !length_app. lia.
Qed.

Lemma strip_length s : (length (strip s) ≤ length s)%nat.
Proof. apply strip_by_length. Qed.

Lemma len_strip s : len (strip s) ≤ len s.
Proof. unfold len. pose proof (strip_length s). lia. Qed.

Lemma nows_app s t : nows (s ++ t) = nows s ++ nows t.
Proof. apply filter_app. Qed.

Lemma nows_spaces s : Forall (λ c, isspace c = true) s → nows s = [].
Proof.
  induction 1 as [|c r Hc _ IH]; [done|].
  unfold nows in *. rewrite filter_cons_False; [done | congruence].
Qed.

Lemma nows_strip s : nows (strip s) = nows s.
Proof.
  destruct (strip_by_split isspace s) as (k1 & k2 & H & H1 & H2).
  fold (strip s) in H. rewrite H at 2.
  rewrite !nows_app, (nows_spaces k1), (nows_spaces k2) by done.
  by rewrite app_nil_r.
Qed.

Lemma nows_nn : nows nn = [].
Proof. reflexivity. Qed.

Lemma nows_space : nows (lit " ") = [].
Proof. reflexivity. Qed.

Lemma nows_length s : (length (nows s) ≤ length s)%nat.
Proof. apply length_filter. Qed.

Lemma slice_index_le n k : (slice_index n k ≤ n)%nat.
Proof. unfold slice_index. destruct (0 <=? k) eqn:E; lia. Qed.

Lemma slice_from_length s k :
  length (slice_from s k) = (length s - slice_index (length s) k)%nat.
Proof. unfold slice_from. apply length_drop. Qed.

Lemma slice_to_length s k :
  length (slice_to s k) = slice_index (length s) k.
Proof.
  unfold slice_to. rewrite length_take.
  pose proof (slice_index_le (length s) k). lia.
Qed.

Lemma slice_from_suffix s k : slice_from s k `suffix_of` s.
Proof. apply suffix_drop. Qed.

(** Lengths of joins. *)
Lemma join_cons_cons sep s t (l : list str) :
  join sep (s :: t :: l) = s ++ sep ++ join sep (t :: l).
Proof. reflexivity. Qed.

Lemma join_length sep (l : list str) :
  l ≠ [] → (length (join sep l) + length sep = weight (length sep) l)%nat.
Proof.
  induction l as [|s [|t l] IH]; intros Hne; [done| |].
  - simpl. lia.
  - rewrite join_cons_cons, !length_app.
    unfold weight in *. simpl sum_list_with. specialize (IH ltac:(done)).
    simpl sum_list_with in IH. lia.
Qed.

Lemma join_length_le sep (l : list str) :
  (length (join sep l) ≤ weight (length sep) l)%nat.
Proof.
  destruct l as [|s l]; [simpl; lia|].
  pose proof (join_length sep (s :: l) ltac:(done)). lia.
Qed.

Lemma weight_app n (l1 l2 : list str) :
  weight n (l1 ++ l2) = (weight n l1 + weight n l2)%nat.
Proof. unfold weight. apply sum_list_with_app. Qed.

Lemma nows_join_space (l : list str) : nows (join (lit " ") l) = nows (concat l).
Proof.
  induction l as [|s [|t l] IH]; [done| |].
  - simpl. by rewrite app_nil_r.
  - rewrite join_cons_cons. change (concat (s :: t :: l)) with (s ++ concat (t :: l)).
    by rewrite !nows_app, nows_space, IH.
Qed.

End StrFacts.

(* ===================================================================== *)
(** * Facts about the splitters                                           *)
(* ===================================================================== *)

Section SplitFacts.

Implicit Types (s cur : str).

Lemma split_sentences_go_nonempty sk cur s : split_sentences_go sk cur s ≠ [].
Proof.
  revert sk cur. induction s as [|c r IH]; intros sk cur; simpl; [done|].
  destruct (sk && isspace c); [apply IH|].
  destruct (ispunct c && _); [done | apply IH].
Qed.

(** The separators that the split removes are whitespace. *)
Lemma split_sentences_go_nows sk cur s :
  nows (concat (split_sentences_go sk cur s)) = nows cur ++ nows s.
Proof.
  revert sk cur. induction s as [|c r IH]; intros sk cur; simpl.
  - by rewrite !app_nil_r.
  - destruct (sk && isspace c) eqn:Hsk.
    + rewrite IH. apply andb_true_iff in Hsk as [_ Hc].
      change (c :: r) with ([c] ++ r).
      rewrite (nows_app [c]), (nows_spaces [c]); [done | by repeat constructor].
    + change (c :: r) with ([c] ++ r). rewrite (nows_app [c]).
      destruct (ispunct c && _).
      * simpl. rewrite nows_app, IH, nows_app. simpl. by rewrite <- !app_assoc.
      * rewrite IH, nows_app. by rewrite <- !app_assoc.
Qed.

Lemma split_into_sentences_nows s :
  nows (concat (split_into_sentences s)) = nows s.
Proof. apply split_sentences_go_nows. Qed.

(** Joining the sentences with one space never gives more than the
    text: every separator was at least one character. *)
Lemma split_sentences_go_weight sk cur s :
  (weight 1 (split_sentences_go sk cur s)
   + (if sk then length s - length (lstrip_by isspace s) else 0)
   ≤ length cur + length s + 1)%nat.
Proof.
  revert sk cur. induction s as [|c r IH]; intros sk cur.
  - simpl. unfold weight. simpl. destruct sk; lia.
  - cbn [split_sentences_go].
    destruct (sk && isspace c) eqn:Hsk.
    + apply andb_true_iff in Hsk as [-> Hc].
      specialize (IH true cur). cbv iota in IH. cbn [lstrip_by]. rewrite Hc.
      pose proof (suffix_length _ _ (lstrip_by_suffix isspace r)).
      cbn [length]. lia.
    + assert (Hlead : ((if sk then length (c :: r) - length (lstrip_by isspace (c :: r))
                        else 0) = 0)%nat).
      { destruct sk; [|done]. simpl in Hsk. cbn [lstrip_by]. rewrite Hsk. lia. }
      rewrite Hlead. clear Hlead Hsk.
      destruct (ispunct c && _) eqn:Hp.
      * apply andb_true_iff in Hp as [_ Hd].
        destruct r as [|d r']; [done|].
        specialize (IH true []). cbv iota in IH.
        cbn [lstrip_by] in IH. rewrite Hd in IH.
        pose proof (suffix_length _ _ (lstrip_by_suffix isspace r')).
        unfold weight in *. cbn [sum_list_with]. rewrite length_app.
        cbn [length] in *. lia.
      * specialize (IH false (cur ++ [c])). cbv iota in IH.
        rewrite length_app in IH. cbn [length] in *. lia.
Qed.

Lemma split_into_sentences_weight s :
  (weight 1 (split_into_sentences s) ≤ length s + 1)%nat.
Proof.
  pose proof (split_sentences_go_weight false [] s). simpl in *.
  unfold split_into_sentences. lia.
Qed.

Lemma join_split_into_sentences_length s :
  (length (join (lit " ") (split_into_sentences s)) ≤ length s)%nat.
Proof.
  pose proof (split_into_sentences_weight s).
  pose proof (join_length (lit " ") (split_into_sentences s)
                (split_sentences_go_nonempty _ _ _)).
  simpl in *. lia.
Qed.

Lemma split_nn_go_cons2 cur c d s :
  split_nn_go cur (c :: d :: s) =
  if decide (c = LF ∧ d = LF) then cur :: split_nn_go [] s
  else split_nn_go (cur ++ [c]) (d :: s).
Proof. reflexivity. Qed.

(** Splitting on blank lines removes two line feeds per cut. *)
Lemma split_nn_go_weight cur s :
  weight 2 (split_nn_go cur s) = (length cur + length s + 2)%nat.
Proof.
  remember (length s) as n eqn:Hn. revert cur s Hn.
  induction n as [n IH] using lt_wf_ind. intros cur s ->.
  destruct s as [|c [|d r']]; [| |rewrite split_nn_go_cons2].
  - unfold weight. simpl. lia.
  - unfold weight. simpl. rewrite length_app. simpl. lia.
  - destruct (decide (c = LF ∧ d = LF)).
    + unfold weight in *. cbn [sum_list_with].
      rewrite (IH (length r') ltac:(simpl; lia) [] r' eq_refl). simpl. lia.
    + rewrite (IH (length (d :: r')) ltac:(simpl; lia) (cur ++ [c]) (d :: r') eq_refl).
      rewrite length_app. simpl. lia.
Qed.

Lemma split_nn_go_nows cur s :
  nows (concat (split_nn_go cur s)) = nows cur ++ nows s.
Proof.
  remember (length s) as n eqn:Hn. revert cur s Hn.
  induction n as [n IH] using lt_wf_ind. intros cur s ->.
  destruct s as [|c [|d r']]; [| |rewrite split_nn_go_cons2].
  - simpl. by rewrite !app_nil_r.
  - simpl. rewrite app_nil_r. apply nows_app.
  - destruct (decide (c = LF ∧ d = LF)) as [[-> ->]|_].
    + cbn [concat]. rewrite nows_app.
      rewrite (IH (length r') ltac:(simpl; lia) [] r' eq_refl).
      change (LF :: LF :: r') with (nn ++ r'). by rewrite nows_app, nows_nn.
    + rewrite (IH (length (d :: r')) ltac:(simpl; lia) (cur ++ [c]) (d :: r') eq_refl).
      change (c :: d :: r') with ([c] ++ d :: r').
      rewrite !nows_app. by rewrite <- app_assoc.
Qed.

(** The paragraphs, joined by blank lines, are no longer than the text,
    and carry all of its characters that are not whitespace. *)
Lemma paragraphs_weight text :
  (weight 2 (paragraphs text) ≤ length text + 2)%nat.
Proof.
  unfold paragraphs, split_nn.
  pose proof (split_nn_go_weight [] text) as H. simpl in H. rewrite <- H.
  generalize (split_nn_go [] text). intros l. unfold weight.
  induction l as [|p l IH]; [done|].
  rewrite fmap_cons, filter_cons. pose proof (strip_length p).
  destruct (decide _); simpl; lia.
Qed.

Lemma paragraphs_nows text : nows (concat (paragraphs text)) = nows text.
Proof.
  unfold paragraphs, split_nn.
  rewrite <- (split_nn_go_nows [] text) at 1. simpl.
  generalize (split_nn_go [] text). intros l.
  induction l as [|p l IH]; [done|].
  rewrite fmap_cons, filter_cons. cbn [concat]. rewrite nows_app, <- IH.
  destruct (decide _) as [Hne|He].
  - cbn [concat]. by rewrite nows_app, nows_strip.
  - apply dec_stable in He. rewrite <- (nows_strip p), He. done.
Qed.

Lemma paragraphs_nonempty text : Forall (λ p, p ≠ []) (paragraphs text).
Proof.
  unfold paragraphs. apply Forall_forall. intros p Hp.
  by apply list_elem_of_filter in Hp as [? _].
Qed.

Lemma paragraphs_empty : paragraphs [] = [].
Proof. reflexivity. Qed.

End SplitFacts.

(* ===================================================================== *)
(** * Facts about the forced split                                        *)
(* ===================================================================== *)

Section ForceSplitFacts.

Context (chunk_size overlap : Z).

Implicit Types (st : state) (chunk current : str) (chunks : list str).

(** What a [break] of the sentence walk returns: the sentences split into
    those merged into the candidate and those left over. *)
Lemma sentence_walk_break chunk sentences chunk' remaining :
  sentence_walk chunk_size chunk sentences = Some (chunk', remaining) →
  ∃ taken,
    sentences = taken ++ remaining ∧ remaining ≠ [] ∧ chunk' ≠ []
    ∧ nows chunk' = nows chunk ++ nows (concat taken)
    ∧ (length chunk' ≤ length chunk + weight 1 taken)%nat
    ∧ (chunk = [] → (length chunk' + 1 ≤ weight 1 taken)%nat).
Proof.
  revert chunk. induction sentences as [|sent rest IH]; intros chunk; [done|].
  cbn [sentence_walk].
  destruct ((chunk_size <? len chunk + len sent + 1) && truthy chunk) eqn:Hc.
  - intros [= <- <-]. apply andb_true_iff in Hc as [_ Hc%truthy_true].
    exists []. simpl. rewrite app_nil_r. unfold weight. simpl.
    repeat split; try done; lia.
  - intros (taken & -> & Hrem & Hne & Hnows & Hlen & Hlen0)%IH.
    exists (sent :: taken). repeat split; try done.
    + assert (Hc1 : ∀ c, nows (if truthy c then strip (c ++ lit " " ++ sent) else sent)
                         = nows c ++ nows sent).
      { intros [|a c]; cbn [truthy]; [reflexivity|].
        by rewrite nows_strip, !nows_app, nows_space. }
      rewrite Hnows, Hc1. cbn [concat]. rewrite (nows_app sent).
      by rewrite <- app_assoc.
    + unfold weight in *. cbn [sum_list_with].
      destruct chunk as [|a chunk]; cbn [truthy] in *; [simpl; lia|].
      pose proof (strip_length ((a :: chunk) ++ lit " " ++ sent)) as Hs.
      rewrite !length_app in Hs. simpl in *. lia.
    + intros ->. cbn [truthy] in *. unfold weight in *. cbn [sum_list_with].
      destruct sent as [|a sent]; [specialize (Hlen0 eq_refl)|]; simpl in *; lia.
Qed.

(** One iteration never lengthens the buffer, and the chunk it finalizes
    is no longer than the buffer was. *)
Lemma split_once_length chunks current chunks' current' :
  split_once chunk_size overlap (chunks, current) = (chunks', current') →
  ∃ chunk, chunks' = chunks ++ [chunk]
    ∧ (length chunk ≤ length current)%nat
    ∧ (length current' ≤ length current)%nat.
Proof.
  unfold split_once.
  destruct (sentence_walk _ _ _) as [[chunk remaining]|] eqn:Hw.
  - intros [= <- <-]. exists chunk. split; [done|].
    apply sentence_walk_break in Hw
      as (taken & Hs & Hrem & _ & _ & _ & Hlen); [|done..].
    specialize (Hlen eq_refl).
    pose proof (split_into_sentences_weight current) as Hwt.
    rewrite Hs, weight_app in Hwt.
    pose proof (join_length (lit " ") remaining Hrem). simpl in *. lia.
  - intros [= <- <-]. exists (slice_to current chunk_size). split; [done|].
    rewrite slice_to_length, slice_from_length.
    pose proof (slice_index_le (length current) chunk_size). lia.
Qed.

(** The progress of one iteration when [0 ≤ chunk_size] and
    [overlap < chunk_size]: the buffer gets strictly shorter. *)
Lemma split_once_progress chunks current :
  0 ≤ chunk_size → overlap < chunk_size →
  too_long chunk_size current = true →
  (length (split_once chunk_size overlap (chunks, current)).2 < length current)%nat.
Proof.
  intros Hcs Hov Hlong. unfold too_long, len in Hlong.
  apply Z.ltb_lt in Hlong. unfold split_once.
  destruct (sentence_walk _ _ _) as [[chunk remaining]|] eqn:Hw; cbn [snd].
  - apply sentence_walk_break in Hw
      as (taken & Hs & Hrem & _ & _ & _ & Hlen); [|done..].
    specialize (Hlen eq_refl).
    pose proof (split_into_sentences_weight current) as Hwt.
    rewrite Hs, weight_app in Hwt.
    pose proof (join_length (lit " ") remaining Hrem). simpl in *. lia.
  - rewrite slice_from_length. unfold slice_index.
    destruct (0 <=? chunk_size - overlap) eqn:E; lia.
Qed.

(** The hard cut: the buffer resumes exactly [chunk_size - overlap]
    characters further when [0 ≤ overlap < chunk_size]. *)
Lemma hard_cut_progress current :
  0 ≤ overlap → overlap < chunk_size →
  too_long chunk_size current = true →
  len (slice_from current (chunk_size - overlap)) + (chunk_size - overlap)
  = len current.
Proof.
  intros Hov Hcs Hlong. unfold too_long, len in *. apply Z.ltb_lt in Hlong.
  rewrite slice_from_length. unfold slice_index.
  destruct (0 <=? chunk_size - overlap) eqn:E; lia.
Qed.

Lemma force_split_unfold fuel st :
  force_split fuel chunk_size overlap st =
  if too_long chunk_size st.2 then
    match fuel with
    | O => None
    | S fuel => force_split fuel chunk_size overlap (split_once chunk_size overlap st)
    end
  else Some st.
Proof. by destruct fuel. Qed.

(** The invariant rule of the [while]: what every iteration preserves
    holds at the exit, where the buffer is no longer too long. *)
Lemma force_split_invariant (P : state → Prop) fuel st st' :
  (∀ st0, P st0 → too_long chunk_size st0.2 = true →
          P (split_once chunk_size overlap st0)) →
  force_split fuel chunk_size overlap st = Some st' →
  P st → P st' ∧ too_long chunk_size st'.2 = false.
Proof.
  intros Hstep. revert st. induction fuel as [|fuel IH]; intros st;
    rewrite force_split_unfold; destruct (too_long chunk_size st.2) eqn:Hl;
    try done.
  - intros [= <-]. done.
  - intros Hrun HP. eapply IH; [done|]. by apply Hstep.
  - intros [= <-]. done.
Qed.

(** More fuel does not change a result. *)
Lemma force_split_fuel_mono fuel fuel' st st' :
  (fuel ≤ fuel')%nat →
  force_split fuel chunk_size overlap st = Some st' →
  force_split fuel' chunk_size overlap st = Some st'.
Proof.
  revert fuel' st. induction fuel as [|fuel IH]; intros fuel' st Hle;
    rewrite (force_split_unfold fuel' st), (force_split_unfold _ st);
    destruct (too_long chunk_size st.2); try done.
  destruct fuel' as [|fuel']; [lia|]. apply IH. lia.
Qed.

(** Termination: a buffer of [n] characters needs at most [n]
    iterations. *)
Lemma force_split_terminates fuel st :
  0 ≤ chunk_size → overlap < chunk_size →
  (length st.2 ≤ fuel)%nat →
  is_Some (force_split fuel chunk_size overlap st).
Proof.
  intros Hcs Hov. revert st. induction fuel as [|fuel IH]; intros [chunks current] Hlen;
    rewrite force_split_unfold; cbn [snd] in *;
    destruct (too_long chunk_size current) eqn:Hl; try done.
  - unfold too_long, len in Hl. apply Z.ltb_lt in Hl. lia.
  - apply IH. pose proof (split_once_progress chunks current Hcs Hov Hl). lia.
Qed.

(** With a negative [chunk_size] the loop, once entered, never exits. *)
Lemma force_split_exit_nonneg fuel st st' :
  force_split fuel chunk_size overlap st = Some st' →
  too_long chunk_size st'.2 = false ∧ (st = st' ∨ 0 ≤ chunk_size).
Proof.
  intros Hrun.
  destruct (force_split_invariant (λ _, True) fuel st st') as [_ Hexit]; [done..|].
  split; [done|]. unfold too_long, len in Hexit. apply Z.ltb_ge in Hexit. lia.
Qed.

End ForceSplitFacts.

(* ===================================================================== *)
(** * Facts about the paragraph loop                                      *)
(* ===================================================================== *)

Section ParagraphLoopFacts.

Context (chunk_size overlap : Z).

Implicit Types (st : state) (para current : str) (chunks paras : list str).

Lemma join_suffix_length sep (l1 l2 : list str) :
  (length (join sep l2) ≤ length (join sep (l1 ++ l2)))%nat.
Proof.
  destruct l2 as [|s l2]; [simpl; lia|].
  pose proof (join_length sep (s :: l2) ltac:(done)).
  pose proof (join_length sep (l1 ++ s :: l2) ltac:(by destruct l1)) as H2.
  rewrite weight_app in H2. lia.
Qed.

(** The overlap seed is never longer than the buffer it is cut from. *)
Lemma overlap_seed_length current k :
  (length (join (lit " ") (drop 1 (split_into_sentences (slice_from current k))))
   ≤ length current)%nat.
Proof.
  set (o := slice_from current k).
  pose proof (join_suffix_length (lit " ") (take 1 (split_into_sentences o))
                (drop 1 (split_into_sentences o))) as H.
  rewrite take_drop in H.
  pose proof (join_split_into_sentences_length o).
  pose proof (suffix_length _ _ (slice_from_suffix current k)) as H1.
  fold o in H1. lia.
Qed.

(** What [absorb] does to the chunks and to the length of the buffer. *)
Lemma absorb_shape chunks current para :
  ∃ current',
    (absorb chunk_size overlap (chunks, current) para = (chunks, current')
     ∨ (absorb chunk_size overlap (chunks, current) para = (chunks ++ [current], current')
        ∧ current ≠ []))
    ∧ (length current' ≤ (if truthy current then length current + 2 else 0)
                          + length para)%nat.
Proof.
  unfold absorb.
  destruct (truthy current && (chunk_size <? len current + len para + 2)) eqn:Hfin.
  - apply andb_true_iff in Hfin as [Ht _]. rewrite Ht.
    pose proof Ht as Hne%truthy_true.
    destruct (overlap <? len current).
    + destruct (1 <? length _)%nat.
      * eexists. split; [right; done|].
        pose proof (overlap_seed_length current (- overlap)).
        rewrite !length_app. simpl in *. lia.
      * eexists. split; [right; done|].
        pose proof (suffix_length _ _ (slice_from_suffix current (- overlap))).
        rewrite !length_app. simpl. lia.
    + eexists. split; [right; done|]. rewrite !length_app. simpl. lia.
  - eexists. split; [left; done|].
    destruct (truthy current); [|lia].
    pose proof (strip_length (current ++ nn ++ para)) as H.
    rewrite !length_app in H. simpl in *. lia.
Qed.

Lemma absorb_fits m st para :
  fits (m - 2) st → fits (m + (length para + 2) - 2) (absorb chunk_size overlap st para).
Proof.
  destruct st as [chunks current]. intros [Hcur Hchunks]. cbn [fst snd] in *.
  destruct (absorb_shape chunks current para) as (current' & [->|[-> Hne]] & Hlen);
    split; cbn [fst snd].
  - destruct current; simpl in *; lia.
  - eapply Forall_impl; [done|]. simpl. lia.
  - destruct current; simpl in *; lia.
  - apply Forall_app. split.
    + eapply Forall_impl; [done|]. simpl. lia.
    + repeat constructor. lia.
Qed.

Lemma split_once_fits m st :
  fits m st → fits m (split_once chunk_size overlap st).
Proof.
  destruct st as [chunks current]. intros [Hcur Hchunks]. cbn [fst snd] in *.
  destruct (split_once chunk_size overlap (chunks, current)) as [chunks' current'] eqn:E.
  apply split_once_length in E as (chunk & -> & Hc & Hc').
  split; cbn [fst snd]; [lia|].
  apply Forall_app. split; [done|]. repeat constructor. lia.
Qed.

Lemma force_split_fits fuel m st st' :
  force_split fuel chunk_size overlap st = Some st' → fits m st → fits m st'.
Proof.
  intros Hrun Hfit.
  eapply (force_split_invariant _ _ (fits m)) in Hrun as [H _]; [done| |done].
  intros st0 H0 _. by apply split_once_fits.
Qed.

(** The invariant rule of the paragraph loop: [seen] are the paragraphs
    consumed so far. *)
Lemma paragraph_loop_invariant (I : list str → state → Prop) fuel paras seen st st' :
  (∀ seen st para st1,
      I seen st →
      force_split fuel chunk_size overlap (absorb chunk_size overlap st para) = Some st1 →
      I (seen ++ [para]) st1) →
  paragraph_loop fuel chunk_size overlap paras st = Some st' →
  I seen st → I (seen ++ paras) st'.
Proof.
  intros Hstep. revert seen st. induction paras as [|para rest IH]; intros seen st.
  - simpl. intros [= <-]. by rewrite app_nil_r.
  - cbn [paragraph_loop]. intros Hrun HI.
    destruct (force_split _ _ _ _) as [st1|] eqn:Hf; [|done]. simpl in Hrun.
    rewrite (cons_middle para), app_assoc. eapply IH; [done|]. by eapply Hstep.
Qed.

Lemma paragraph_loop_fuel_mono fuel fuel' paras st st' :
  (fuel ≤ fuel')%nat →
  paragraph_loop fuel chunk_size overlap paras st = Some st' →
  paragraph_loop fuel' chunk_size overlap paras st = Some st'.
Proof.
  intros Hle. revert st. induction paras as [|para rest IH]; intros st; [done|].
  cbn [paragraph_loop].
  destruct (force_split fuel _ _ _) as [st1|] eqn:Hf; [|done].
  rewrite (force_split_fuel_mono _ _ _ _ _ _ Hle Hf). simpl. apply IH.
Qed.

(** Termination of the whole loop: with [0 ≤ chunk_size] and
    [overlap < chunk_size], fuel for the longest possible buffer is
    enough, and nothing ever exceeds the paragraphs joined by blank
    lines. *)
Lemma paragraph_loop_runs fuel paras st m :
  0 ≤ chunk_size → overlap < chunk_size →
  fits (m - 2) st →
  (m + weight 2 paras ≤ fuel + 2)%nat →
  ∃ st', paragraph_loop fuel chunk_size overlap paras st = Some st'
         ∧ fits (m + weight 2 paras - 2) st'.
Proof.
  intros Hcs Hov. revert st m. induction paras as [|para rest IH]; intros st m Hfit Hfuel.
  - exists st. split; [done|]. unfold weight. simpl. by rewrite Nat.add_0_r.
  - unfold weight in *. cbn [sum_list_with] in *. cbn [paragraph_loop].
    pose proof (absorb_fits m st para Hfit) as Hfit1.
    destruct (force_split_terminates chunk_size overlap fuel
                (absorb chunk_size overlap st para) Hcs Hov) as [st1 Hst1].
    { destruct Hfit1 as [H _]. lia. }
    rewrite Hst1. simpl.
    apply (force_split_fits _ _ _ _ Hst1) in Hfit1.
    destruct (IH st1 (m + (length para + 2))%nat) as (st' & Hrun & Hfit').
    + done.
    + lia.
    + exists st'. split; [done|].
      by replace (m + (length para + 2 + sum_list_with (λ s, length s + 2) rest) - 2)%nat
        with (m + (length para + 2) + sum_list_with (λ s, length s + 2) rest - 2)%nat by lia.
Qed.

End ParagraphLoopFacts.

(* ===================================================================== *)
(** * chunk_text: size, termination, edge cases                           *)
(* ===================================================================== *)

Section ChunkTextFacts.

Implicit Types (st : state) (title text current : str) (chunks : list str).

Lemma body_of_prepend title body : body_of title (title ++ nn ++ body) = body.
Proof.
  unfold body_of. by rewrite drop_app_add.
Qed.

(** The chunks that [retain] keeps. *)
Lemma elem_of_retain title min_chunk_size chunks r :
  r ∈ retain title min_chunk_size chunks ↔
  ∃ c, c ∈ chunks ∧ min_chunk_size ≤ len (strip c) ∧ r = title ++ nn ++ strip c.
Proof.
  induction chunks as [|c chunks IH]; cbn [retain].
  - split; [by intros ?%elem_of_nil | by intros (? & ?%elem_of_nil & _)].
  - destruct (min_chunk_size <=? len (strip c)) eqn:E.
    + apply Z.leb_le in E. rewrite elem_of_cons, IH. split.
      * intros [->|(c' & ? & ? & ?)]; [exists c | exists c'];
          rewrite elem_of_cons; auto.
      * intros (c' & [->|?]%elem_of_cons & ? & ->); [by left|right; eauto].
    + apply Z.leb_gt in E. rewrite IH. split.
      * intros (c' & ? & ? & ?). exists c'. rewrite elem_of_cons. auto.
      * intros (c' & [->|?]%elem_of_cons & ? & ->); [lia|eauto].
Qed.

Lemma retain_short title min_chunk_size chunks :
  Forall (λ c, len c < min_chunk_size) chunks →
  retain title min_chunk_size chunks = [].
Proof.
  induction 1 as [|c chunks Hc _ IH]; [done|]. cbn [retain].
  pose proof (len_strip c).
  destruct (min_chunk_size <=? len (strip c)) eqn:E; [|done].
  apply Z.leb_le in E. lia.
Qed.

Lemma retain_all title min_chunk_size chunks :
  min_chunk_size ≤ 0 →
  retain title min_chunk_size chunks = (λ c, title ++ nn ++ strip c) <$> chunks.
Proof.
  intros Hmin. induction chunks as [|c chunks IH]; [done|]. cbn [retain].
  pose proof (len_nonneg (strip c)).
  destruct (min_chunk_size <=? len (strip c)) eqn:E.
  - by rewrite IH.
  - apply Z.leb_gt in E. lia.
Qed.

Lemma bodies_of_prepend title (bodies : list str) :
  body_of title <$> ((λ body, title ++ nn ++ body) <$> bodies) = bodies.
Proof.
  induction bodies as [|b bodies IH]; [done|].
  rewrite !fmap_cons, body_of_prepend. by f_equal.
Qed.

(** The chunks that [retain] keeps, in order. *)
Lemma retain_filter title min_chunk_size chunks :
  retain title min_chunk_size chunks
  = (λ body, title ++ nn ++ body)
    <$> filter (λ body, min_chunk_size ≤ len body) (strip <$> chunks).
Proof.
  induction chunks as [|c chunks IH]; [done|]. cbn [retain].
  rewrite fmap_cons, filter_cons.
  destruct (min_chunk_size <=? len (strip c)) eqn:E.
  - apply Z.leb_le in E. rewrite decide_True by done. by rewrite fmap_cons, IH.
  - apply Z.leb_gt in E. rewrite decide_False by lia. done.
Qed.

(** Below [2 ^ 53] an int is a binary64. *)
Lemma round53_small n : 0 ≤ n < 2 ^ 53 → round53 n = n.
Proof.
  intros [Hn Hlt]. unfold round53.
  assert (Z.log2 n < 53) as Hlog.
  { destruct (decide (n = 0)) as [->|Hne]; [done|].
    apply Z.log2_lt_pow2; lia. }
  destruct (Z.log2 n - 52 <=? 0) eqn:E; [done|]. apply Z.leb_gt in E. lia.
Qed.

(** Where [3 * chunk_size] fits the significand, the test of line 51 is
    evaluated without rounding and without an error: it is [too_long]. *)
Lemma too_long_float_exact chunk_size current :
  float_exact chunk_size →
  too_long_float chunk_size current = Some (too_long chunk_size current).
Proof.
  unfold float_exact, too_long_float, float_of_int, too_long.
  assert (2 ^ 53 = 9007199254740992) as -> by reflexivity. intros Hex.
  assert (2 ^ 53 ≤ 2 ^ 1024) as Hbig by (apply Z.pow_le_mono_r; lia).
  assert (2 ^ 1024 ≤ 2 ^ 1025) as Hbig' by (apply Z.pow_le_mono_r; lia).
  assert (2 ^ 53 = 9007199254740992) as H53 by reflexivity.
  rewrite round53_small by lia.
  destruct (2 ^ 1024 <=? Z.abs chunk_size) eqn:E1; [apply Z.leb_le in E1; lia|].
  cbn [mbind option_bind].
  assert (Z.sgn chunk_size * Z.abs chunk_size = chunk_size) as -> by (destruct chunk_size; lia).
  rewrite round53_small by lia.
  pose proof (len_nonneg current).
  destruct (chunk_size <? 0) eqn:E2.
  - apply Z.ltb_lt in E2. symmetry. f_equal. apply Z.ltb_lt. lia.
  - apply Z.ltb_ge in E2.
    destruct (2 ^ 1025 <=? Z.abs (3 * chunk_size)) eqn:E3; [apply Z.leb_le in E3; lia|].
    do 2 f_equal. lia.
Qed.

(** A run that returns has a non-negative [chunk_size] and leaves a
    buffer of at most [1.5 * chunk_size]. *)
Lemma force_split_exit fuel chunk_size overlap st st' :
  force_split fuel chunk_size overlap st = Some st' →
  0 ≤ chunk_size ∧ 2 * len st'.2 ≤ 3 * chunk_size.
Proof.
  intros [Hexit _]%force_split_exit_nonneg.
  unfold too_long in Hexit. apply Z.ltb_ge in Hexit.
  pose proof (len_nonneg st'.2). lia.
Qed.

(** The chunks of the forced split: a hard cut has at most [chunk_size]
    characters, every other one comes from the sentence walk. *)
Lemma force_split_chunks fuel chunk_size overlap st st' :
  force_split fuel chunk_size overlap st = Some st' →
  Forall (λ c, 2 * len c ≤ 3 * chunk_size ∨ sentence_walked chunk_size c) st.1 →
  Forall (λ c, 2 * len c ≤ 3 * chunk_size ∨ sentence_walked chunk_size c) st'.1.
Proof.
  intros Hrun Hst. pose proof (force_split_exit _ _ _ _ _ Hrun) as [Hcs _].
  eapply (force_split_invariant _ _ (λ st, Forall _ st.1)) in Hrun as [H _];
    [exact H| |exact Hst].
  intros [chunks current] Hall Hlong. cbn [fst snd] in *. unfold split_once.
  destruct (sentence_walk _ _ _) as [[chunk remaining]|] eqn:Hw; cbn [fst].
  - apply Forall_app. split; [done|]. apply Forall_singleton. right.
    by exists current, remaining.
  - apply Forall_app. split; [done|]. apply Forall_singleton. left.
    unfold len. rewrite slice_to_length. unfold slice_index.
    destruct (0 <=? chunk_size) eqn:E; lia.
Qed.

(** Every chunk of [segment] is at most [1.5 * chunk_size] long, those
    of the sentence walk apart. *)
Lemma segment_chunks fuel text chunk_size overlap chunks :
  segment fuel text chunk_size overlap = Some chunks →
  Forall (λ c, 2 * len c ≤ 3 * chunk_size ∨ sentence_walked chunk_size c) chunks.
Proof.
  unfold segment. intros Hseg.
  destruct (paragraph_loop _ _ _ _ _) as [[chunks' current]|] eqn:Hloop; [|done].
  simpl in Hseg. injection Hseg as <-.
  apply (paragraph_loop_invariant chunk_size overlap
           (λ _ st, Forall (λ c, 2 * len c ≤ 3 * chunk_size
                                 ∨ sentence_walked chunk_size c) st.1
                    ∧ (st.2 = [] ∨ 2 * len st.2 ≤ 3 * chunk_size))
           _ _ []) in Hloop as [Hall Hcur].
  - cbn [fst snd] in *. destruct current as [|a current]; [done|]. cbn [truthy].
    apply Forall_app. split; [done|]. apply Forall_singleton. left.
    destruct Hcur; [done|lia].
  - clear. intros _ [chunks current] para st1 [Hall Hcur] Hrun. cbn [fst snd] in *.
    split; [|right; by eapply force_split_exit].
    eapply force_split_chunks; [done|].
    destruct (absorb_shape chunk_size overlap chunks current para)
      as (current' & [->|[-> Hne]] & _); cbn [fst]; [done|].
    apply Forall_app. split; [done|]. apply Forall_singleton. left.
    destruct Hcur; [done|lia].
  - split; [constructor | by left].
Qed.

End ChunkTextFacts.

Section ChunkTextRuns.

Implicit Types (title text : str) (chunks : list str).

Lemma segment_fuel_mono fuel fuel' text chunk_size overlap chunks :
  (fuel ≤ fuel')%nat →
  segment fuel text chunk_size overlap = Some chunks →
  segment fuel' text chunk_size overlap = Some chunks.
Proof.
  unfold segment. intros Hle Hseg.
  destruct (paragraph_loop fuel _ _ _ _) as [st|] eqn:Hloop; [|done].
  by rewrite (paragraph_loop_fuel_mono _ _ _ _ _ _ _ Hle Hloop).
Qed.

(** [segment] returns when [0 ≤ chunk_size] and [overlap < chunk_size],
    and no chunk is longer than the text. *)
Lemma segment_runs fuel text chunk_size overlap :
  0 ≤ chunk_size → overlap < chunk_size → (length text ≤ fuel)%nat →
  ∃ chunks, segment fuel text chunk_size overlap = Some chunks
            ∧ Forall (λ c, (length c ≤ length text)%nat) chunks.
Proof.
  intros Hcs Hov Hfuel. pose proof (paragraphs_weight text) as Hw.
  destruct (paragraph_loop_runs chunk_size overlap fuel (paragraphs text) ([], []) 0)
    as ([chunks current] & Hrun & Hcur & Hchunks); [done|done| |lia|].
  { split; [simpl; lia | constructor]. }
  cbn [fst snd] in *. unfold segment. rewrite Hrun. simpl.
  eexists. split; [done|].
  assert (Forall (λ c, (length c ≤ length text)%nat) chunks) as Hall.
  { eapply Forall_impl; [done|]. simpl. lia. }
  destruct (truthy current); [|done].
  apply Forall_app. split; [done|]. apply Forall_singleton. lia.
Qed.

Lemma chunk_text_fuel_mono fuel fuel' text title chunk_size overlap min_chunk_size result :
  (fuel ≤ fuel')%nat →
  chunk_text fuel text title chunk_size overlap min_chunk_size = Some result →
  chunk_text fuel' text title chunk_size overlap min_chunk_size = Some result.
Proof.
  unfold chunk_text. intros Hle Hrun.
  destruct (segment fuel _ _ _) as [chunks|] eqn:Hseg; [|done].
  by rewrite (segment_fuel_mono _ _ _ _ _ _ Hle Hseg).
Qed.

(** The result does not depend on the fuel. *)
Lemma chunk_text_fuel_irrelevant fuel fuel' text title chunk_size overlap
    min_chunk_size result result' :
  chunk_text fuel text title chunk_size overlap min_chunk_size = Some result →
  chunk_text fuel' text title chunk_size overlap min_chunk_size = Some result' →
  result = result'.
Proof.
  intros H1 H2.
  apply (chunk_text_fuel_mono _ (fuel `max` fuel')) in H1; [|lia].
  apply (chunk_text_fuel_mono _ (fuel `max` fuel')) in H2; [|lia].
  congruence.
Qed.

Lemma chunk_text_runs fuel text title chunk_size overlap min_chunk_size :
  0 ≤ chunk_size → overlap < chunk_size → (length text ≤ fuel)%nat →
  is_Some (chunk_text fuel text title chunk_size overlap min_chunk_size).
Proof.
  intros Hcs Hov Hfuel.
  destruct (segment_runs fuel text chunk_size overlap) as (chunks & Hseg & _);
    [done..|].
  unfold chunk_text. rewrite Hseg. by eexists.
Qed.

End ChunkTextRuns.

(* ===================================================================== *)
(** * C1: the size bound                                                  *)
(* ===================================================================== *)


(** With the defaults: the sentence walk takes its first sentence
    whatever its length, here 2001 characters for a bound of 1200. *)
Example sentence_walk_overshoot :
  chunk_text 2013 (replicate 2000 "a"%char ++ lit ". " ++ replicate 100 "b"%char)
    (lit "T") 800 200 100
  = Some [lit "T" ++ nn ++ replicate 2000 "a"%char ++ lit ".";
          lit "T" ++ nn ++ replicate 100 "b"%char].
Proof. vm_compute. reflexivity. Qed.



(* ===================================================================== *)
(** * C2: termination                                                     *)
(* ===================================================================== *)

(** C2. With [0 ≤ overlap < chunk_size], as with the defaults,
    [chunk_text] returns on every text and title: fuel for [len(text)]
    iterations is enough and more fuel does not change the result. Every
    iteration of the forced split shortens the buffer; the hard cut
    finalizes exactly [chunk_size] characters and resumes the buffer
    [chunk_size - overlap] characters further. *)
Theorem chunk_text_terminates text title chunk_size overlap min_chunk_size :
  0 ≤ overlap → overlap < chunk_size →
  (∃ result, ∀ fuel, (length text ≤ fuel)%nat →
     chunk_text fuel text title chunk_size overlap min_chunk_size = Some result)
  ∧ (∀ chunks current,
       too_long chunk_size current = true →
       (length (split_once chunk_size overlap (chunks, current)).2 < length current)%nat)
  ∧ (∀ chunks current,
       too_long chunk_size current = true →
       sentence_walk chunk_size [] (split_into_sentences current) = None →
       split_once chunk_size overlap (chunks, current)
       = (chunks ++ [slice_to current chunk_size],
          slice_from current (chunk_size - overlap))
       ∧ len (slice_to current chunk_size) = chunk_size
       ∧ len (slice_from current (chunk_size - overlap)) + (chunk_size - overlap)
         = len current).
Proof.
  intros Hov Hcs. split; [|split].
  - destruct (chunk_text_runs (length text) text title chunk_size overlap min_chunk_size)
      as [result Hres]; [lia..|].
    exists result. intros fuel Hfuel. by eapply chunk_text_fuel_mono.
  - intros chunks current Hlong. apply split_once_progress; [lia|done..].
  - intros chunks current Hlong Hwalk. unfold split_once. rewrite Hwalk.
    split; [done|]. split; [|by apply hard_cut_progress].
    unfold too_long, len in *. apply Z.ltb_lt in Hlong.
    rewrite slice_to_length. unfold slice_index.
    destruct (0 <=? chunk_size) eqn:E; lia.
Qed.

Lemma chunk_text_terminates_witness :
  0 ≤ 200 ∧ 200 < 800
  ∧ (∃ result, ∀ fuel, (length (lit "No blank line here.") ≤ fuel)%nat →
       chunk_text fuel (lit "No blank line here.") (lit "T") 800 200 100 = Some result).
Proof.
  split; [lia|]. split; [lia|].
  apply (chunk_text_terminates (lit "No blank line here.") (lit "T") 800 200 100); lia.
Defined.

(* ===================================================================== *)
(** * C8: the edge cases                                                  *)
(* ===================================================================== *)

(** C8. An empty text gives no chunk, whatever the parameters: the
    test of line 51 is not reached. With [overlap < chunk_size] and a
    [chunk_size ≥ 0] whose product by [1.5] is exact in binary64, so
    that no [OverflowError] or rounding is met at line 51, a text
    shorter than [min_chunk_size] gives no chunk. Every chunk that is
    returned is the title, a blank line and a body of at least
    [min_chunk_size] characters. In the same range of [chunk_size], the
    test of line 51 is false on a buffer of exactly [1.5 * chunk_size]
    characters, which the forced split leaves as it is. *)
Theorem chunk_text_edge_cases :
  (∀ fuel title chunk_size overlap min_chunk_size,
     chunk_text fuel [] title chunk_size overlap min_chunk_size = Some [])
  ∧ (∀ fuel text title chunk_size overlap min_chunk_size,
       0 ≤ chunk_size → float_exact chunk_size → overlap < chunk_size →
       (length text ≤ fuel)%nat →
       len text < min_chunk_size →
       chunk_text fuel text title chunk_size overlap min_chunk_size = Some [])
  ∧ (∀ fuel text title chunk_size overlap min_chunk_size result,
       chunk_text fuel text title chunk_size overlap min_chunk_size = Some result →
       ∀ r, r ∈ result →
         r = title ++ nn ++ body_of title r
         ∧ min_chunk_size ≤ len (body_of title r))
  ∧ (∀ fuel chunk_size overlap chunks current,
       float_exact chunk_size →
       2 * len current = 3 * chunk_size →
       too_long_float chunk_size current = Some false
       ∧ force_split fuel chunk_size overlap (chunks, current) = Some (chunks, current)).
Proof.
  split; [|split; [|split]].
  - done.
  - intros fuel text title chunk_size overlap min_chunk_size Hcs _ Hov Hfuel Hshort.
    destruct (segment_runs fuel text chunk_size overlap) as (chunks & Hseg & Hall);
      [done..|].
    unfold chunk_text. rewrite Hseg. simpl. f_equal. apply retain_short.
    eapply Forall_impl; [done|]. unfold len in *. simpl. lia.
  - unfold chunk_text. intros fuel text title chunk_size overlap min_chunk_size
      result Hrun r Hr.
    destruct (segment _ _ _ _) as [chunks|]; [|done].
    simpl in Hrun. injection Hrun as <-.
    apply elem_of_retain in Hr as (c & _ & Hmin & ->).
    by rewrite body_of_prepend.
  - intros fuel chunk_size overlap chunks current Hex Heq.
    rewrite (too_long_float_exact _ _ Hex), force_split_unfold. cbn [snd].
    unfold too_long.
    destruct (3 * chunk_size <? 2 * len current) eqn:E; [|done].
    apply Z.ltb_lt in E. lia.
Qed.

Lemma chunk_text_edge_cases_witness :
  chunk_text 5 (lit "hello") (lit "T") 800 200 100 = Some []
  ∧ too_long_float 4 (lit "bbbbbb") = Some false
  ∧ force_split 0 4 1 ([], lit "bbbbbb") = Some ([], lit "bbbbbb").
Proof.
  destruct chunk_text_edge_cases as (_ & Hshort & _ & Hexact).
  split.
  - apply Hshort; [lia | by vm_compute | lia | simpl; lia | reflexivity].
  - apply Hexact; [by vm_compute | reflexivity].
Defined.

(** Outside that range the test of line 51 need not answer: for a
    [chunk_size] of [10 ^ 400] the conversion to a float raises. *)
Example too_long_float_overflow :
  too_long_float (10 ^ 400) (lit "hello") = None
  ∧ too_long (10 ^ 400) (lit "hello") = false.
Proof. split; vm_compute; reflexivity. Qed.

(** A paragraph of exactly 1200 characters is one chunk with the
    defaults; one more character and it is cut. *)
Example chunk_text_at_threshold :
  chunk_text 1200 (replicate 1200 "a"%char) (lit "T") 800 200 100
  = Some [lit "T" ++ nn ++ replicate 1200 "a"%char].
Proof. vm_compute. reflexivity. Qed.

Example chunk_text_above_threshold :
  chunk_text 1201 (replicate 1201 "a"%char) (lit "T") 800 200 100
  = Some [lit "T" ++ nn ++ replicate 800 "a"%char;
          lit "T" ++ nn ++ replicate 601 "a"%char].
Proof. vm_compute. reflexivity. Qed.

(* ===================================================================== *)
(** * C7: the overlap carry-over                                          *)
(* ===================================================================== *)

(** C7, as stated, fails when the finalized buffer is not longer than
    [overlap]: with the defaults, the buffer ["Hi. There."] is finalized
    in front of a paragraph of 795 characters and is carried over whole,
    first sentence included. *)
Lemma absorb_short_buffer_not_seeded :
  lit "Hi. There." ≠ []
  ∧ 800 < len (lit "Hi. There.") + len (replicate 795 "x"%char) + 2
  ∧ absorb 800 200 ([], lit "Hi. There.") (replicate 795 "x"%char)
    = ([lit "Hi. There."], lit "Hi. There." ++ nn ++ replicate 795 "x"%char)
  ∧ overlap_seed 200 (lit "Hi. There.") = lit "There."
  ∧ ¬ carries_overlap_seed 800 200 [] (lit "Hi. There.") (replicate 795 "x"%char).
Proof.
  split; [done|]. split; [reflexivity|].
  split; [vm_compute; reflexivity|]. split; [vm_compute; reflexivity|].
  unfold carries_overlap_seed. intros H.
  apply (f_equal (λ st : state, len st.2)) in H. vm_compute in H. discriminate.
Qed.

(** C7 (amended). When the paragraph loop finalizes a buffer that is
    longer than [overlap] (with [0 < overlap]), the next buffer is the
    overlap seed, a blank line and the new paragraph; when the buffer is
    not longer than [overlap], the whole buffer is carried over
    unmodified in place of the seed. *)
Theorem absorb_overlap_carry chunk_size overlap chunks current para :
  current ≠ [] →
  chunk_size < len current + len para + 2 →
  (0 < overlap → overlap < len current →
     carries_overlap_seed chunk_size overlap chunks current para)
  ∧ (len current ≤ overlap →
       absorb chunk_size overlap (chunks, current) para
       = (chunks ++ [current], current ++ nn ++ para)).
Proof.
  intros Hne%truthy_true Hfull%Z.ltb_lt.
  unfold carries_overlap_seed, absorb. rewrite Hne, Hfull. cbn [andb].
  split.
  - intros Hpos Hlt. apply Z.ltb_lt in Hlt as Hlt'. rewrite Hlt'.
    unfold overlap_seed, last_chars, slice_from, slice_index, len in *.
    destruct (0 <=? - overlap) eqn:E; [apply Z.leb_le in E; lia|].
    replace (Z.to_nat (Z.max 0 (Z.of_nat (length current) + - overlap)))
      with (length current - Z.to_nat overlap)%nat by lia.
    by destruct (1 <? length _)%nat.
  - intros Hle. apply Z.ltb_ge in Hle. by rewrite Hle.
Qed.

Lemma absorb_overlap_carry_witness :
  carries_overlap_seed 12 3 [] (lit "A. B.") (lit "CCCCCCCC")
  ∧ absorb 12 10 ([], lit "A. B.") (lit "CCCCCCCC")
    = ([lit "A. B."], lit "A. B." ++ nn ++ lit "CCCCCCCC").
Proof.
  split.
  - apply (absorb_overlap_carry 12 3 [] (lit "A. B.") (lit "CCCCCCCC"));
      [done | reflexivity | reflexivity | reflexivity].
  - apply (absorb_overlap_carry 12 10 [] (lit "A. B.") (lit "CCCCCCCC"));
      [done | reflexivity | vm_compute; discriminate].
Defined.

(* ===================================================================== *)
(** * C4: coverage                                                        *)
(* ===================================================================== *)

Section Coverage.

Implicit Types (w s t current chunk : str) (chunks : list str) (st : state).

Lemma suffix_app_cases {A} (l k1 k2 : list A) :
  l `suffix_of` k1 ++ k2 →
  (∃ l1, l = l1 ++ k2 ∧ l1 `suffix_of` k1) ∨ l `suffix_of` k2.
Proof.
  intros [p Hp]. apply app_eq_app in Hp as [m [[-> ->]|[-> ->]]].
  - left. exists m. split; [done|]. by exists p.
  - right. by exists m.
Qed.

Lemma suffix_cons_cases {A} (l k : list A) x :
  l `suffix_of` x :: k → l = x :: k ∨ l `suffix_of` k.
Proof.
  intros [[|y p] Hp]; [left; by simplify_eq/=|].
  right. exists p. by simplify_eq/=.
Qed.

(** A suffix of the non-whitespace characters of [s] is spelled by a
    suffix of [s]. *)
Lemma suffix_nows_lift w s :
  w `suffix_of` nows s → ∃ t, t `suffix_of` s ∧ nows t = w.
Proof.
  induction s as [|c r IH]; intros Hw.
  - apply suffix_nil_inv in Hw as ->. by exists [].
  - unfold nows in Hw. rewrite filter_cons in Hw.
    destruct (decide (isspace c = false)) as [Hc|Hc].
    + apply suffix_cons_cases in Hw as [->|Hw].
      * exists (c :: r). split; [done|]. unfold nows. by rewrite filter_cons_True.
      * destruct (IH Hw) as (t & Ht & <-). exists t. split; [by apply suffix_cons_r|done].
    + destruct (IH Hw) as (t & Ht & <-). exists t. split; [by apply suffix_cons_r|done].
Qed.

Lemma suffix_nows s t : s `suffix_of` t → nows s `suffix_of` nows t.
Proof. intros [k ->]. rewrite nows_app. by apply suffix_app_r. Qed.

(** Finalizing [chunk] and going on with [current'] keeps the invariant
    when the old buffer is spelled by [chunk] followed by a suffix of
    [current']. *)
Lemma covered_by_step w chunks current chunk current' w2 :
  covered_by w (chunks, current) →
  nows current = nows chunk ++ w2 →
  w2 `suffix_of` nows current' →
  covered_by w (chunks ++ [chunk], current').
Proof.
  intros (ws & wr & Hws & Hwr & <-) Hcur Hw2. cbn [fst snd] in *.
  rewrite Hcur in Hwr. apply suffix_app_cases in Hwr as [(wc & -> & Hwc)|Hwr].
  - exists (ws ++ [wc]), w2. cbn [fst snd]. split; [|split; [done|]].
    + apply Forall2_app; [done|]. by repeat constructor.
    + rewrite concat_app. simpl. by rewrite app_nil_r, <- app_assoc.
  - exists (ws ++ [[]]), wr. cbn [fst snd]. split; [|split].
    + apply Forall2_app; [done|]. repeat constructor. apply suffix_nil.
    + by etrans.
    + rewrite concat_app. simpl. by rewrite app_nil_r.
Qed.

Lemma split_once_covered chunk_size overlap w st :
  0 ≤ overlap → overlap ≤ chunk_size →
  covered_by w st → covered_by w (split_once chunk_size overlap st).
Proof.
  intros Hov Hcs. destruct st as [chunks current]. intros Hcov. unfold split_once.
  destruct (sentence_walk _ _ _) as [[chunk remaining]|] eqn:Hw.
  - apply sentence_walk_break in Hw as (taken & Hs & _ & _ & Hnows & _).
    eapply covered_by_step; [done| |done].
    rewrite nows_join_space, Hnows. simpl.
    by rewrite <- split_into_sentences_nows, Hs, concat_app, nows_app.
  - eapply (covered_by_step _ _ _ _ _ (nows (drop (slice_index (length current) chunk_size) current)));
      [done| |].
    + unfold slice_to. by rewrite <- nows_app, take_drop.
    + apply suffix_nows. unfold slice_from.
      assert (slice_index (length current) (chunk_size - overlap)
              ≤ slice_index (length current) chunk_size)%nat as Hle.
      { unfold slice_index.
        destruct (0 <=? chunk_size - overlap) eqn:E1; destruct (0 <=? chunk_size) eqn:E2;
          lia. }
      replace (slice_index (length current) chunk_size)
        with (slice_index (length current) (chunk_size - overlap)
              + (slice_index (length current) chunk_size
                 - slice_index (length current) (chunk_size - overlap)))%nat by lia.
      rewrite <- drop_drop. apply suffix_drop.
Qed.

Lemma absorb_covered chunk_size overlap w st para :
  covered_by w st →
  covered_by (w ++ nows para) (absorb chunk_size overlap st para).
Proof.
  destruct st as [chunks current]. intros (ws & wr & Hws & Hwr & <-).
  cbn [fst snd] in *. unfold absorb.
  destruct (truthy current && _) eqn:Hfin.
  - assert (∀ seed, covered_by ((concat ws ++ wr) ++ nows para)
                      (chunks ++ [current], seed ++ nn ++ para)) as Hfinal.
    { intros seed. exists (ws ++ [wr]), (nows para). cbn [fst snd].
      split; [|split].
      - apply Forall2_app; [done|]. by repeat constructor.
      - rewrite !nows_app. by do 2 apply suffix_app_r.
      - rewrite concat_app. simpl. by rewrite app_nil_r. }
    destruct (overlap <? len current); [|apply Hfinal].
    destruct (1 <? length _)%nat; apply Hfinal.
  - exists ws, (wr ++ nows para). cbn [fst snd]. split; [done|].
    split; [|by rewrite app_assoc].
    destruct current as [|a current]; cbn [truthy].
    + apply suffix_nil_inv in Hwr as ->. done.
    + rewrite nows_strip, !nows_app, nows_nn. simpl. by apply suffix_app.
Qed.

Lemma segment_covered fuel text chunk_size overlap chunks :
  0 ≤ overlap → overlap ≤ chunk_size →
  segment fuel text chunk_size overlap = Some chunks →
  ∃ ws, Forall2 (λ w c, w `suffix_of` nows c) ws chunks ∧ concat ws = nows text.
Proof.
  intros Hov Hcs. unfold segment. intros Hseg.
  destruct (paragraph_loop _ _ _ _ _) as [[chunks' current]|] eqn:Hloop; [|done].
  simpl in Hseg. injection Hseg as <-.
  apply (paragraph_loop_invariant chunk_size overlap
           (λ seen st, covered_by (nows (concat seen)) st) _ _ []) in Hloop.
  - simpl in Hloop. rewrite paragraphs_nows in Hloop.
    destruct Hloop as (ws & wr & Hws & Hwr & Heq). cbn [fst snd] in *.
    destruct current as [|a current]; cbn [truthy].
    + apply suffix_nil_inv in Hwr as ->. rewrite app_nil_r in Heq. by exists ws.
    + exists (ws ++ [wr]). split.
      * apply Forall2_app; [done|]. by repeat constructor.
      * rewrite concat_app. simpl. by rewrite app_nil_r.
  - clear -Hov Hcs. intros seen st para st1 Hcov Hrun.
    rewrite concat_app, nows_app. simpl. rewrite app_nil_r.
    eapply (force_split_invariant _ _ (covered_by _)) in Hrun as [H _]; [exact H| |].
    + intros st0 H0 _. by apply split_once_covered.
    + by apply absorb_covered.
  - exists [], []. by repeat split; [constructor|].
Qed.

End Coverage.

(** C4, as stated, fails: a document shorter than [min_chunk_size] gives
    no chunk at all, so its content is in no body. *)
Lemma chunk_text_loses_short_document :
  chunk_text 5 (lit "hello") (lit "T") 800 200 100 = Some []
  ∧ ¬ covers (lit "hello") (body_of (lit "T") <$> []).
Proof.
  split; [reflexivity|].
  intros (fresh & Hsuf & Hnows). apply Forall2_nil_inv_r in Hsuf as ->.
  vm_compute in Hnows. discriminate.
Qed.

(** The stripped chunks of [segment] cover the text. *)
Lemma covers_stripped text (ws chunks : list str) :
  Forall2 (λ w c, w `suffix_of` nows c) ws chunks →
  concat ws = nows text →
  covers text (strip <$> chunks).
Proof.
  intros Hws Heq. unfold covers. rewrite <- Heq.
  clear -Hws. induction Hws as [|w c ws chunks Hw _ (fresh & Hfresh & Heq)].
  - by exists [].
  - rewrite <- (nows_strip c) in Hw.
    apply suffix_nows_lift in Hw as (t & Ht & <-).
    exists (t :: fresh). split.
    + rewrite fmap_cons. by constructor.
    + simpl. by rewrite nows_app, Heq.
Qed.

(** C4 (amended). With [0 ≤ overlap < chunk_size], a [chunk_size] whose
    product by [1.5] is exact in binary64, and any [min_chunk_size],
    [chunk_text] returns, and nothing is lost but what the minimum-size
    filter drops. The candidates are the chunks that the loops have
    built when line 73 is reached. Stripped, they cover the text: after
    dropping an overlap prefix from every one, they have in order the
    characters of the text, whitespace apart (paragraph separators and
    the whitespace between sentences are not kept). The bodies that are
    returned are the stripped candidates of at least [min_chunk_size]
    characters, in order, each behind the title and a blank line; every
    other candidate is dropped whole. With [min_chunk_size ≤ 0] none is
    dropped and the bodies cover the text. *)
Theorem chunk_text_covers fuel text title chunk_size overlap min_chunk_size :
  0 ≤ overlap → overlap < chunk_size → float_exact chunk_size →
  (length text ≤ fuel)%nat →
  ∃ candidates result,
    segment fuel text chunk_size overlap = Some candidates
    ∧ chunk_text fuel text title chunk_size overlap min_chunk_size = Some result
    ∧ covers text (strip <$> candidates)
    ∧ body_of title <$> result
      = filter (λ body, min_chunk_size ≤ len body) (strip <$> candidates)
    ∧ Forall (λ r, r = title ++ nn ++ body_of title r) result
    ∧ (min_chunk_size ≤ 0 → covers text (body_of title <$> result)).
Proof.
  intros Hov Hcs _ Hfuel.
  destruct (segment_runs fuel text chunk_size overlap) as (chunks & Hseg & _);
    [lia|done..|].
  exists chunks, (retain title min_chunk_size chunks).
  split; [done|]. split; [unfold chunk_text; by rewrite Hseg|].
  apply segment_covered in Hseg as (ws & Hws & Heq); [|lia..].
  pose proof (covers_stripped text ws chunks Hws Heq) as Hcov.
  assert (body_of title <$> retain title min_chunk_size chunks
          = filter (λ body, min_chunk_size ≤ len body) (strip <$> chunks)) as Hbodies.
  { by rewrite retain_filter, bodies_of_prepend. }
  split; [done|]. split; [done|]. split.
  - rewrite retain_filter. apply Forall_fmap, Forall_forall. intros body _.
    unfold compose. by rewrite body_of_prepend.
  - intros Hmin. rewrite Hbodies.
    assert (∀ l : list str, filter (λ body, min_chunk_size ≤ len body) l = l) as Hall.
    { intros l. induction l as [|b l IH]; [done|].
      rewrite filter_cons_True; [by rewrite IH|]. pose proof (len_nonneg b). lia. }
    by rewrite Hall.
Qed.

(** 24 letters in chunks of 6 with an overlap of 2 and a minimum of 7:
    the four candidates of 6 letters are dropped, the last one, of 8
    letters, is kept. *)
Lemma chunk_text_covers_witness :
  ∃ candidates result,
    segment 24 (lit "abcdefghijklmnopqrstuvwx") 6 2 = Some candidates
    ∧ chunk_text 24 (lit "abcdefghijklmnopqrstuvwx") (lit "T") 6 2 7 = Some result
    ∧ covers (lit "abcdefghijklmnopqrstuvwx") (strip <$> candidates)
    ∧ body_of (lit "T") <$> result
      = filter (λ body, 7 ≤ len body) (strip <$> candidates)
    ∧ Forall (λ r, r = lit "T" ++ nn ++ body_of (lit "T") r) result
    ∧ (7 ≤ 0 → covers (lit "abcdefghijklmnopqrstuvwx") (body_of (lit "T") <$> result)).
Proof.
  apply (chunk_text_covers 24 (lit "abcdefghijklmnopqrstuvwx") (lit "T") 6 2 7);
    [lia | lia | by vm_compute | simpl; lia].
Defined.

Example chunk_text_drops_short_candidates :
  segment 24 (lit "abcdefghijklmnopqrstuvwx") 6 2
  = Some [lit "abcdef"; lit "efghij"; lit "ijklmn"; lit "mnopqr"; lit "qrstuvwx"]
  ∧ chunk_text 24 (lit "abcdefghijklmnopqrstuvwx") (lit "T") 6 2 7
    = Some [lit "T" ++ nn ++ lit "qrstuvwx"].
Proof. split; vm_compute; reflexivity. Qed.

(* ===================================================================== *)
(** * C9: slugs and chunk ids                                             *)
(* ===================================================================== *)

Section SlugFacts.

Implicit Types (s url : str) (p : ascii → bool).

Lemma lstrip_by_head p s c : head (lstrip_by p s) = Some c → p c = false.
Proof.
  induction s as [|a r IH]; [done|]. simpl.
  destruct (p a) eqn:Ha; [done|]. simpl. by intros [= <-].
Qed.

Lemma rstrip_by_last p s c : last (rstrip_by p s) = Some c → p c = false.
Proof. unfold rstrip_by. rewrite last_reverse. apply lstrip_by_head. Qed.

Lemma rstrip_by_head p s c :
  head (rstrip_by p s) = Some c → head s = Some c.
Proof.
  destruct (rstrip_by_split p s) as (k & Hk & _). intros Hc.
  rewrite Hk. by destruct (rstrip_by p s).
Qed.

(** A stripped string neither starts nor ends with a stripped
    character. *)
Lemma strip_by_ends p s :
  (∀ c, head (strip_by p s) = Some c → p c = false)
  ∧ (∀ c, last (strip_by p s) = Some c → p c = false).
Proof.
  unfold strip_by. split; intros c Hc.
  - by apply rstrip_by_head, lstrip_by_head in Hc.
  - by apply rstrip_by_last in Hc.
Qed.

(** A scheme in front of the url is removed. *)
Lemma url_to_slug_https url :
  url_to_slug (lit "https://" ++ url) = url_to_slug url.
Proof. reflexivity. Qed.

Lemma url_to_slug_http url :
  url_to_slug (lit "http://" ++ url) = url_to_slug url.
Proof. reflexivity. Qed.

Lemma sub_non_alnum_charset s :
  Forall (λ c, isalnum c = true ∨ c = underscore) (sub_non_alnum s).
Proof.
  unfold sub_non_alnum. apply Forall_fmap, Forall_forall. intros c _. simpl.
  destruct (isalnum c) eqn:E; auto.
Qed.

Lemma str_of_nat_inj i j : str_of_nat i = str_of_nat j → i = j.
Proof.
  unfold str_of_nat, lit. intros H.
  apply (f_equal String.string_of_list_ascii) in H.
  rewrite !String.string_of_list_ascii_of_string in H.
  by apply (inj pretty) in H.
Qed.

(** The ids of one document: the slug, a separator and the index. *)
Lemma assemble_lookup doc slug bodies i c :
  assemble doc slug bodies !! i = Some c →
  chunk_id c = slug ++ [underscore] ++ str_of_nat i
  ∧ chunk_index (chunk_metadata c) = i
  ∧ bodies !! i = Some (chunk_body c)
  ∧ url (chunk_metadata c) = doc_url doc.
Proof.
  unfold assemble. rewrite list_lookup_imap.
  destruct (bodies !! i) as [b|]; [|done]. simpl. by intros [= <-].
Qed.

Lemma assemble_NoDup doc slug bodies :
  NoDup (chunk_id <$> assemble doc slug bodies).
Proof.
  apply NoDup_alt. intros i j x Hi Hj.
  rewrite list_lookup_fmap in Hi, Hj.
  destruct (assemble doc slug bodies !! i) as [ci|] eqn:Eci; [|done].
  destruct (assemble doc slug bodies !! j) as [cj|] eqn:Ecj; [|done].
  simpl in *. injection Hi as <-. injection Hj as Hj.
  apply assemble_lookup in Eci as (Hci & _). apply assemble_lookup in Ecj as (Hcj & _).
  rewrite Hci, Hcj in Hj. apply app_inv_head in Hj. apply app_inv_head in Hj.
  by apply str_of_nat_inj in Hj.
Qed.

(** [chunk_documents] lays the chunks of the documents out one document
    after the other. *)
Lemma chunk_documents_loop_blocks fuel docs acc all :
  chunk_documents_loop fuel docs acc = Some all →
  ∃ blocks, all = acc ++ concat blocks
            ∧ Forall2 (λ doc block, chunks_of_document doc block fuel) docs blocks.
Proof.
  revert acc. induction docs as [|doc rest IH]; intros acc; cbn [chunk_documents_loop].
  - intros [= <-]. exists []. simpl. by rewrite app_nil_r.
  - destruct (chunk_text _ _ _ _ _ _) as [bodies|] eqn:Hct; [|done]. simpl.
    intros (blocks & -> & Hall)%IH.
    exists (assemble doc (url_to_slug (doc_url doc)) bodies :: blocks).
    split; [simpl; by rewrite app_assoc|].
    constructor; [|done]. by exists bodies.
Qed.

Lemma chunk_documents_loop_runs fuel docs acc :
  Forall (λ d, (length (doc_text d) ≤ fuel)%nat) docs →
  is_Some (chunk_documents_loop fuel docs acc).
Proof.
  intros Hall. revert acc. induction Hall as [|doc rest Hdoc _ IH]; intros acc;
    cbn [chunk_documents_loop]; [by eexists|].
  destruct (chunk_text_runs fuel (doc_text doc) (doc_title doc)
              default_chunk_size default_overlap default_min_chunk_size)
    as [bodies ->]; [done..|]. simpl. apply IH.
Qed.

Lemma chunk_documents_loop_fuel_irrelevant fuel fuel' docs acc a b :
  chunk_documents_loop fuel docs acc = Some a →
  chunk_documents_loop fuel' docs acc = Some b →
  a = b.
Proof.
  revert acc. induction docs as [|doc rest IH]; intros acc; cbn [chunk_documents_loop].
  - congruence.
  - destruct (chunk_text fuel _ _ _ _ _) as [bodies|] eqn:H1; [|done].
    destruct (chunk_text fuel' _ _ _ _ _) as [bodies'|] eqn:H2; [|done].
    rewrite (chunk_text_fuel_irrelevant _ _ _ _ _ _ _ _ _ H1 H2). simpl. apply IH.
Qed.

End SlugFacts.

(** C9, as stated, fails: [url_to_slug] writes one separator for every
    non-alphanumeric character, so a run of two gives two separators. *)
Lemma url_to_slug_keeps_runs :
  url_to_slug (lit "https://urbanemissions.info/?s=pm")
  = lit "urbanemissions_info__s_pm"
  ∧ url_to_slug_by_runs (lit "https://urbanemissions.info/?s=pm")
    = lit "urbanemissions_info_s_pm"
  ∧ url_to_slug (lit "https://urbanemissions.info/?s=pm")
    ≠ url_to_slug_by_runs (lit "https://urbanemissions.info/?s=pm").
Proof.
  split; [vm_compute; reflexivity|]. split; [vm_compute; reflexivity|].
  intros H. apply (f_equal length) in H. vm_compute in H. discriminate.
Qed.

(** C9 (amended). [url_to_slug] drops a leading scheme, writes one
    separator for every non-alphanumeric character (runs are not
    collapsed) and trims the separators at both ends; the chunks of a
    document have the ids [slug + "_" + chunk_index], which are unique
    within the document; [chunk_documents] returns for every batch, with
    one block of chunks per document, and its result does not depend on
    the run. *)
Theorem slug_and_chunk_ids :
  (∀ url, url_to_slug (lit "https://" ++ url) = url_to_slug url
          ∧ url_to_slug (lit "http://" ++ url) = url_to_slug url)
  ∧ (∀ s, length (sub_non_alnum s) = length s
          ∧ ∀ i c, s !! i = Some c →
              sub_non_alnum s !! i = Some (if isalnum c then c else underscore))
  ∧ (∀ url,
       Forall (λ c, isalnum c = true ∨ c = underscore) (url_to_slug url)
       ∧ head (url_to_slug url) ≠ Some underscore
       ∧ last (url_to_slug url) ≠ Some underscore
       ∧ ∃ k1 k2,
           sub_non_alnum (remove_all (lit "http://") (remove_all (lit "https://") url))
           = k1 ++ url_to_slug url ++ k2
           ∧ Forall (λ c, c = underscore) k1 ∧ Forall (λ c, c = underscore) k2)
  ∧ (∀ doc slug bodies,
       NoDup (chunk_id <$> assemble doc slug bodies)
       ∧ ∀ i c, assemble doc slug bodies !! i = Some c →
           chunk_id c = slug ++ [underscore] ++ str_of_nat i
           ∧ chunk_index (chunk_metadata c) = i
           ∧ bodies !! i = Some (chunk_body c))
  ∧ (∀ fuel docs all,
       chunk_documents fuel docs = Some all →
       ∃ blocks, all = concat blocks
                 ∧ Forall2 (λ doc block, chunks_of_document doc block fuel) docs blocks)
  ∧ (∀ fuel docs,
       Forall (λ d, (length (doc_text d) ≤ fuel)%nat) docs →
       is_Some (chunk_documents fuel docs))
  ∧ (∀ fuel fuel' docs a b,
       chunk_documents fuel docs = Some a →
       chunk_documents fuel' docs = Some b → a = b).
Proof.
  split; [|split; [|split; [|split; [|split; [|split]]]]].
  - intros url. split; [apply url_to_slug_https | apply url_to_slug_http].
  - intros s. unfold sub_non_alnum. split; [apply length_fmap|].
    intros i c Hc. by rewrite list_lookup_fmap, Hc.
  - intros url. unfold url_to_slug.
    set (t := sub_non_alnum _).
    destruct (strip_by_split is_underscore t) as (k1 & k2 & Heq & H1 & H2).
    split; [|split; [|split]].
    + pose proof (sub_non_alnum_charset
                    (remove_all (lit "http://") (remove_all (lit "https://") url))) as H.
      fold t in H. rewrite Heq in H. by apply Forall_app in H as [_ [H _]%Forall_app].
    + intros Hh. apply strip_by_ends in Hh. unfold is_underscore in Hh.
      by apply bool_decide_eq_false in Hh.
    + intros Hl. apply strip_by_ends in Hl. unfold is_underscore in Hl.
      by apply bool_decide_eq_false in Hl.
    + exists k1, k2. split; [done|].
      split; (eapply Forall_impl; [done|]); intros c Hc;
        unfold is_underscore in Hc; by apply bool_decide_eq_true in Hc.
  - intros doc slug bodies. split; [apply assemble_NoDup|].
    intros i c Hc. by apply assemble_lookup in Hc as (? & ? & ? & ?).
  - intros fuel docs all Hrun. unfold chunk_documents in Hrun.
    apply chunk_documents_loop_blocks in Hrun as (blocks & -> & Hall). by exists blocks.
  - intros fuel docs Hall. by apply chunk_documents_loop_runs.
  - intros fuel fuel' docs a b. apply chunk_documents_loop_fuel_irrelevant.
Qed.

Lemma slug_and_chunk_ids_witness :
  url_to_slug (lit "https://" ++ lit "a.b/c") = url_to_slug (lit "a.b/c")
  ∧ is_Some (chunk_documents 5
               [mkDocument (lit "https://a.b/c") (lit "T") (lit "docs") (lit "hello")]).
Proof.
  destruct slug_and_chunk_ids as (Hscheme & _ & _ & _ & _ & Hruns & _).
  split.
  - apply Hscheme.
  - apply Hruns. repeat constructor.
Defined.

(* ===================================================================== *)
(** * C3: the deduplication of retrieve                                   *)
(* ===================================================================== *)

Section DedupeFacts.

Context {distance : Type}.

Implicit Types (h : Hit distance) (hits accepted : list (Hit distance)) (u : str)
  (results : Results distance).

Lemma rows_lookup (ids documents : list str) (metadatas : list Metadata)
    (distances : list distance) i a :
  length documents = length ids → length metadatas = length ids →
  length distances = length ids →
  ids !! i = Some a →
  ∃ d m x, documents !! i = Some d ∧ metadatas !! i = Some m
           ∧ distances !! i = Some x
           ∧ rows ids documents metadatas distances !! i = Some (mkHit a d m x).
Proof.
  revert documents metadatas distances i.
  induction ids as [|a0 ids IH]; intros [|d ds] [|m ms] [|x xs] i; try done.
  simpl. intros [= H1] [= H2] [= H3]. destruct i as [|i]; simpl.
  - intros [= <-]. by exists d, m, x.
  - by apply IH.
Qed.

Lemma rows_length (ids documents : list str) (metadatas : list Metadata)
    (distances : list distance) :
  length documents = length ids → length metadatas = length ids →
  length distances = length ids →
  length (rows ids documents metadatas distances) = length ids.
Proof.
  revert documents metadatas distances.
  induction ids as [|a0 ids IH]; intros [|d ds] [|m ms] [|x xs]; try done.
  simpl. intros [= H1] [= H2] [= H3]. f_equal. by apply IH.
Qed.

Lemma url_count_app u hits1 hits2 :
  url_count u (hits1 ++ hits2) = (url_count u hits1 + url_count u hits2)%nat.
Proof. unfold url_count, hits_with. by rewrite filter_app, length_app. Qed.

Lemma url_count_snoc u hits h :
  url_count u (hits ++ [h])
  = (url_count u hits + if decide (hit_url h = u) then 1 else 0)%nat.
Proof.
  rewrite url_count_app. f_equal. unfold url_count, hits_with.
  rewrite filter_cons, filter_nil. by destruct (decide _).
Qed.

Lemma url_count_take u hits n :
  (url_count u (take n hits) ≤ url_count u hits)%nat.
Proof. rewrite <- (take_drop n hits) at 2. rewrite url_count_app. lia. Qed.

(** The capped list extends the accepted hits by a subsequence of the
    hits that were read. *)
Lemma cap_per_url_extends accepted hits :
  ∃ more, cap_per_url accepted hits = accepted ++ more ∧ more `sublist_of` hits.
Proof.
  revert accepted. induction hits as [|h rest IH]; intros accepted; simpl.
  - exists []. by rewrite app_nil_r.
  - destruct (decide _).
    + destruct (IH (accepted ++ [h])) as (more & -> & Hsub).
      exists (h :: more). split; [by rewrite <- app_assoc | by constructor].
    + destruct (IH accepted) as (more & -> & Hsub).
      exists more. split; [done | by constructor].
Qed.

Lemma cap_per_url_count accepted hits :
  (∀ u, url_count u accepted ≤ 2)%nat →
  ∀ u, (url_count u (cap_per_url accepted hits) ≤ 2)%nat.
Proof.
  revert accepted. induction hits as [|h rest IH]; intros accepted Hacc; simpl; [done|].
  destruct (decide _) as [Hlt|_]; [|by apply IH].
  apply IH. intros u. rewrite url_count_snoc. specialize (Hacc u).
  destruct (decide (hit_url h = u)) as [<-|]; lia.
Qed.

(** The loop of [retrieve] on index-aligned arrays: it returns the first
    [max(top_k, 1)] hits of the capped list. *)
Lemma dedupe_loop_capped results top_k i rest url_counts deduped :
  aligned results →
  drop i (ids results) = rest →
  (∀ u, default O (url_counts !! u) = url_count u deduped) →
  Z.of_nat (length deduped) < Z.max 1 top_k →
  dedupe_loop results top_k i rest url_counts deduped
  = Some (take (Z.to_nat (Z.max 1 top_k))
            (cap_per_url deduped (drop i (hits_of results)))).
Proof.
  intros (Hd & Hm & Hx). revert i url_counts deduped.
  induction rest as [|doc_id rest IH]; intros i url_counts deduped Hrest Hcounts Hlen.
  - assert (length (ids results) ≤ i)%nat as Hi.
    { apply (f_equal length) in Hrest. rewrite length_drop in Hrest. simpl in Hrest. lia. }
    rewrite drop_ge; [|unfold hits_of; rewrite rows_length; done].
    simpl. rewrite take_ge; [done|lia].
  - assert (ids results !! i = Some doc_id) as Hi.
    { rewrite <- (Nat.add_0_r i), <- lookup_drop, Hrest. done. }
    assert (drop (S i) (ids results) = rest) as Hrest'.
    { rewrite <- (Nat.add_1_r i), <- drop_drop, Hrest. done. }
    destruct (rows_lookup _ _ _ _ i doc_id Hd Hm Hx Hi) as (d & m & x & Hdi & Hmi & Hxi & Hrow).
    fold (hits_of results) in Hrow.
    rewrite (drop_S _ _ _ Hrow). cbn [dedupe_loop cap_per_url].
    rewrite Hmi. cbn [mbind option_bind]. rewrite Hcounts.
    change (url m) with (hit_url (mkHit doc_id d m x)).
    set (h := mkHit doc_id d m x).
    destruct (decide (url_count (hit_url h) deduped < 2)%nat) as [Hlt|Hge].
    + destruct (2 <=? url_count (hit_url h) deduped)%nat eqn:E;
        [apply Nat.leb_le in E; lia|].
      rewrite Hdi, Hxi. cbn [mbind option_bind]. fold h.
      destruct (top_k <=? Z.of_nat (length (deduped ++ [h]))) eqn:Ek.
      * apply Z.leb_le in Ek. rewrite length_app in Ek. simpl in Ek.
        destruct (cap_per_url_extends (deduped ++ [h]) (drop (S i) (hits_of results)))
          as (more & -> & _).
        rewrite take_app_length'; [done|]. rewrite length_app. simpl. lia.
      * apply Z.leb_gt in Ek. apply IH; [done| |lia].
        intros u. rewrite url_count_snoc.
        destruct (decide (hit_url h = u)) as [<-|Hne].
        -- rewrite lookup_insert_eq. simpl. lia.
        -- rewrite lookup_insert_ne by done. rewrite Hcounts. lia.
    + destruct (2 <=? url_count (hit_url h) deduped)%nat eqn:E;
        [|apply Nat.leb_gt in E; lia].
      by apply IH.
Qed.

End DedupeFacts.

(** C3. [retrieve] asks the store for [min(3 * top_k, 20)] rows. When
    the store answers with index-aligned arrays of at most that many
    rows (none when the number is not positive), the deduplication
    returns the first [top_k] hits of the capped list: an
    order-preserving subsequence of the hits of the answer, fields
    unchanged, with at most 2 hits per url and at most [top_k] hits; the
    loop stops as soon as [top_k] hits are accepted, and fewer are
    returned when fewer qualify. For [top_k ≤ 0] no row is asked for and
    no hit is returned. *)
Theorem retrieve_dedupe {distance : Type}
    (collection_query : Z → option (Results distance)) (top_k : Z)
    (results : Results distance) :
  collection_query (n_results top_k) = Some results →
  aligned results →
  within_request results (n_results top_k) →
  ∃ out,
    retrieve_from collection_query top_k = Some out
    ∧ out = take (Z.to_nat top_k) (cap_per_url [] (hits_of results))
    ∧ out `sublist_of` hits_of results
    ∧ (∀ u, (url_count u out ≤ 2)%nat)
    ∧ (0 ≤ top_k → Z.of_nat (length out) ≤ top_k)
    ∧ (top_k ≤ 0 → out = []).
Proof.
  unfold retrieve_from, within_request, n_results. intros -> Hal Hreq.
  cbn [mbind option_bind].
  assert (retrieve results top_k
          = Some (take (Z.to_nat top_k) (cap_per_url [] (hits_of results)))) as Hrun.
  { unfold retrieve. destruct (ids results) as [|a l] eqn:Hids.
    - cbn [truthy]. unfold hits_of. rewrite Hids. simpl. by rewrite take_nil.
    - cbn [truthy]. rewrite <- Hids.
      assert (1 ≤ top_k) as Hk by (simpl in Hreq; lia).
      rewrite (dedupe_loop_capped results top_k 0 (ids results) ∅ []); try done.
      + by rewrite Z.max_r by lia.
      + simpl. lia. }
  eexists. split; [exact Hrun|]. split; [reflexivity|].
  destruct (cap_per_url_extends [] (hits_of results)) as (more & Heq & Hsub).
  simpl in Heq. split; [|split; [|split]].
  - etrans; [apply sublist_take|]. by rewrite Heq.
  - intros u. etrans; [apply url_count_take|].
    apply cap_per_url_count. intros v. unfold url_count, hits_with.
    rewrite filter_nil. simpl. lia.
  - intros Hk. rewrite length_take. lia.
  - intros Hk. by rewrite Z2Nat.nonpos.
Qed.

(** A store that holds three chunks of one page and answers with the
    first rows it has: two hits for [top_k = 6], none for [top_k = 0]. *)
Lemma retrieve_dedupe_witness :
  let m := mkMetadata (lit "a") (lit "T") (lit "c") 0 in
  let store (n : Z) : option (Results Z) :=
    Some (mkResults (take (Z.to_nat n) [lit "a_0"; lit "a_1"; lit "a_2"])
            (take (Z.to_nat n) [lit "x"; lit "y"; lit "z"])
            (take (Z.to_nat n) [m; m; m]) (take (Z.to_nat n) [1%Z; 2%Z; 3%Z])) in
  (∃ out, retrieve_from store 6 = Some out ∧ Z.of_nat (length out) ≤ 6
          ∧ (url_count (lit "a") out ≤ 2)%nat)
  ∧ retrieve_from store 0 = Some [].
Proof.
  intros m store. split.
  - destruct (retrieve_dedupe store 6 _ eq_refl)
      as (out & Hrun & _ & _ & Hcount & Hlen & _).
    + repeat split.
    + by vm_compute.
    + exists out. split; [done|]. split; [apply Hlen; lia | apply Hcount].
  - destruct (retrieve_dedupe store 0 _ eq_refl)
      as (out & Hrun & _ & _ & _ & _ & Hnone).
    + repeat split.
    + by vm_compute.
    + rewrite Hrun, Hnone; [done|lia].
Defined.

(** The loop on its own tests the number of hits after it has accepted
    one: handed a row with [top_k = 0], which [retrieve] does not ask
    the store for, it returns that row. *)
Example dedupe_loop_tests_after_append :
  let results := mkResults [lit "a_0"] [lit "T"] [mkMetadata (lit "a") (lit "T") (lit "c") 0]
                   [0%Z] in
  dedupe_loop results 0 0 (ids results) ∅ []
  = Some [mkHit (lit "a_0") (lit "T") (mkMetadata (lit "a") (lit "T") (lit "c") 0) 0%Z].
Proof. reflexivity. Qed.

(** The cap example of the design document: 20 hits, 4 for each of 5
    urls, and [top_k = 6] give the first two hits of the first three
    urls. *)
Example retrieve_twenty_hits :
  let page (u : string) := replicate 4 (mkMetadata (lit u) (lit "T") (lit "c") 0) in
  let results : Results Z :=
    mkResults (str_of_nat <$> seq 0 20) (replicate 20 (lit "T"))
      (page "A" ++ page "B" ++ page "C" ++ page "D" ++ page "E")
      (Z.of_nat <$> seq 0 20) in
  (λ out : list (Hit Z), hit_id <$> out) <$> retrieve results 6
  = Some (str_of_nat <$> [0; 1; 4; 5; 8; 9]%nat).
Proof. vm_compute. reflexivity. Qed.

(* ===================================================================== *)
(** * The sources of query                                                *)
(* ===================================================================== *)

Section AggregateFacts.

Context {distance : Type}.

Implicit Types (h : Hit distance) (hits pre : list (Hit distance)) (u v : str)
  (s : Source) (sources : list Source).

Lemma first_seen_elem v (urls : list str) : v ∈ first_seen urls ↔ v ∈ urls.
Proof.
  induction urls as [|u rest IH]; simpl; [done|].
  rewrite !elem_of_cons, list_elem_of_filter, IH.
  destruct (decide (v = u)); tauto.
Qed.

Lemma first_seen_NoDup (urls : list str) : NoDup (first_seen urls).
Proof.
  induction urls as [|u rest IH]; simpl; [constructor|].
  apply NoDup_cons. split; [|by apply NoDup_filter].
  rewrite list_elem_of_filter. by intros [? _].
Qed.

Lemma source_url_filter v sources :
  source_url <$> filter (λ s, source_url s ≠ v) sources
  = filter (λ w, w ≠ v) (source_url <$> sources).
Proof.
  induction sources as [|s sources IH]; [done|].
  rewrite fmap_cons, !filter_cons.
  destruct (decide _); rewrite ?fmap_cons; by rewrite IH.
Qed.

(** The urls of the sources, in order. *)
Lemma aggregate_urls hits :
  source_url <$> aggregate hits = first_seen (hit_url <$> hits).
Proof.
  induction hits as [|h rest IH]; [done|].
  cbn [aggregate]. rewrite !fmap_cons. cbn [first_seen source_url].
  by rewrite source_url_filter, IH.
Qed.

Lemma aggregate_NoDup hits : NoDup (source_url <$> aggregate hits).
Proof. rewrite aggregate_urls. apply first_seen_NoDup. Qed.

Lemma aggregate_url_elem u hits :
  u ∈ source_url <$> aggregate hits ↔ u ∈ hit_url <$> hits.
Proof. rewrite aggregate_urls. apply first_seen_elem. Qed.

(** A source is made of the hits of its page. *)
Lemma aggregate_member hits s :
  s ∈ aggregate hits →
  ∃ h more,
    hits_with (source_url s) hits = h :: more
    ∧ s = mkSource (hit_url h) (title (hit_metadata h)) (category (hit_metadata h))
            (snippet_of h) (quote_of <$> h :: more).
Proof.
  induction hits as [|a rest IH]; cbn [aggregate]; [by intros ?%elem_of_nil|].
  intros [->|[Hne Hs]%list_elem_of_filter]%elem_of_cons.
  - exists a, (hits_with (hit_url a) rest). split; [|done].
    cbn [source_url]. unfold hits_with. by rewrite filter_cons_True.
  - destruct (IH Hs) as (h & more & Hw & Heq). exists h, more. split; [|done].
    unfold hits_with in *. rewrite filter_cons_False; [done|]. congruence.
Qed.

Lemma hits_with_first u hits h more :
  hits_with u hits = h :: more →
  ∃ pre post, hits = pre ++ h :: post ∧ (u ∉ hit_url <$> pre) ∧ hit_url h = u.
Proof.
  unfold hits_with. induction hits as [|a rest IH]; [done|].
  rewrite filter_cons. destruct (decide (hit_url a = u)) as [Ha|Ha].
  - intros [= -> _]. exists [], rest. split; [done|]. split; [|done].
    by intros ?%elem_of_nil.
  - intros (pre & post & -> & Hpre & Hh)%IH. exists (a :: pre), post.
    split; [done|]. split; [|done]. rewrite fmap_cons, elem_of_cons.
    intros [?|?]; congruence.
Qed.

Lemma bump_url u quote s : source_url (bump u quote s) = source_url s.
Proof. unfold bump. by destruct (decide _). Qed.

Lemma bump_other u quote sources :
  Forall (λ s, source_url s ≠ u) sources → bump u quote <$> sources = sources.
Proof.
  induction 1 as [|s sources Hs _ IH]; [done|].
  rewrite fmap_cons, IH. f_equal. unfold bump. by destruct (decide _).
Qed.

Lemma filter_bump u quote v sources :
  filter (λ s, source_url s ≠ v) (bump u quote <$> sources)
  = bump u quote <$> filter (λ s, source_url s ≠ v) sources.
Proof.
  induction sources as [|s sources IH]; [done|].
  rewrite fmap_cons, !filter_cons, bump_url.
  destruct (decide _); [rewrite fmap_cons|]; by rewrite IH.
Qed.

Lemma filter_bump_same u quote sources :
  filter (λ s, source_url s ≠ u) (bump u quote <$> sources)
  = filter (λ s, source_url s ≠ u) sources.
Proof.
  rewrite filter_bump. apply bump_other, Forall_forall.
  by intros s [? _]%list_elem_of_filter.
Qed.

(** One more hit at the end: a further quote for the source of its
    page, or a new source at the end. *)
Lemma aggregate_snoc pre h :
  aggregate (pre ++ [h])
  = if decide (hit_url h ∈ hit_url <$> pre)
    then bump (hit_url h) (quote_of h) <$> aggregate pre
    else aggregate pre ++ [new_source h].
Proof.
  induction pre as [|a pre IH]; [by rewrite decide_False by apply not_elem_of_nil|].
  cbn [app aggregate]. rewrite IH. clear IH.
  rewrite fmap_cons,  (decide_ext _ _ _ _ (elem_of_cons _ _ _)).
  assert (hits_with (hit_url a) (pre ++ [h])
          = hits_with (hit_url a) pre
            ++ (if decide (hit_url h = hit_url a) then [h] else [])) as ->.
  { unfold hits_with. rewrite filter_app, filter_cons, filter_nil. done. }
  destruct (decide (hit_url h = hit_url a)) as [Heq|Hne].
  - destruct (decide (_ ∨ _)) as [_|Hnor]; [|exfalso; apply Hnor; by left].
    rewrite fmap_cons. f_equal.
    + unfold bump. cbn [source_url]. rewrite decide_True by done.
      unfold add_quote. cbn. by rewrite fmap_app.
    + rewrite <- Heq.
      rewrite (bump_other (hit_url h) _ (filter _ _))
        by (apply Forall_forall; by intros s [? _]%list_elem_of_filter).
      destruct (decide (hit_url h ∈ hit_url <$> pre)).
      * apply filter_bump_same.
      * rewrite filter_app, filter_cons_False, filter_nil, app_nil_r; [done|].
        cbn. by intros ?.
  - rewrite app_nil_r.
    destruct (decide (hit_url h ∈ hit_url <$> pre)) as [Hin|Hout].
    + destruct (decide (_ ∨ _)) as [_|Hnor]; [|exfalso; apply Hnor; by right].
      rewrite fmap_cons. f_equal.
      * unfold bump. cbn [source_url]. by rewrite decide_False.
      * by rewrite filter_bump.
    + destruct (decide (_ ∨ _)) as [[?|?]|_]; [done..|].
      cbn [app]. f_equal.
      rewrite filter_app, filter_cons_True, filter_nil; [done|]. cbn. done.
Qed.

(** Updating the source at the index of a url is [bump]. *)
Lemma insert_bump sources idx s u quote :
  NoDup (source_url <$> sources) →
  sources !! idx = Some s → source_url s = u →
  <[idx := add_quote quote s]> sources = bump u quote <$> sources.
Proof.
  intros Hnd Hidx Hu. apply list_eq. intros j.
  rewrite list_lookup_fmap. destruct (decide (idx = j)) as [<-|Hne].
  - rewrite list_lookup_insert_eq by (by eapply lookup_lt_Some).
    rewrite Hidx. simpl. unfold bump. by rewrite decide_True.
  - rewrite list_lookup_insert_ne by done.
    destruct (sources !! j) as [s'|] eqn:Hj; [|done]. simpl. f_equal.
    unfold bump. rewrite decide_False; [done|]. intros Hs'.
    apply Hne. eapply (NoDup_lookup _ _ _ u Hnd); rewrite list_lookup_fmap.
    + by rewrite Hidx, <- Hu.
    + by rewrite Hj, <- Hs'.
Qed.

Lemma indexes_bump seen_urls sources u quote :
  indexes seen_urls sources → indexes seen_urls (bump u quote <$> sources).
Proof.
  unfold indexes. intros H v i. rewrite H, <- list_fmap_compose.
  rewrite !list_lookup_fmap. destruct (sources !! i); simpl; [|done].
  by rewrite bump_url.
Qed.

Lemma indexes_snoc seen_urls sources s :
  indexes seen_urls sources →
  seen_urls !! source_url s = None →
  indexes (<[source_url s := length sources]> seen_urls) (sources ++ [s]).
Proof.
  unfold indexes. intros H Hnone v i. rewrite fmap_app. simpl.
  rewrite lookup_snoc_Some, length_fmap.
  destruct (decide (source_url s = v)) as [<-|Hne].
  - rewrite lookup_insert_eq. split.
    + intros [= <-]. by right.
    + intros [[_ Hi]|[-> _]]; [|done]. apply H in Hi. congruence.
  - rewrite lookup_insert_ne by done. rewrite H. split.
    + intros Hi. left. split; [|done].
      apply lookup_lt_Some in Hi. by rewrite length_fmap in Hi.
    + intros [[_ Hi]|[_ ?]]; done.
Qed.

(** The loop of [query] computes [aggregate], and raises no
    [IndexError]. *)
Lemma sources_loop_aggregate pre rest seen_urls :
  indexes seen_urls (aggregate pre) →
  sources_loop rest (aggregate pre) seen_urls = Some (aggregate (pre ++ rest)).
Proof.
  revert pre seen_urls. induction rest as [|h rest IH]; intros pre seen_urls Hidx.
  - simpl. by rewrite app_nil_r.
  - rewrite (cons_middle h), app_assoc. cbn [sources_loop]. fold (hit_url h).
    destruct (seen_urls !! hit_url h) as [idx|] eqn:Hseen.
    + apply Hidx in Hseen as Hlook.
      apply list_lookup_fmap_Some in Hlook as (s & Hu & Hs).
      assert (hit_url h ∈ hit_url <$> pre) as Hin.
      { apply aggregate_url_elem. rewrite Hu. apply list_elem_of_fmap_2.
        by eapply list_elem_of_lookup_2. }
      rewrite Hs. cbn [mbind option_bind].
      rewrite (insert_bump _ _ _ (hit_url h)); [|apply aggregate_NoDup|done..].
      assert (bump (hit_url h) (quote_of h) <$> aggregate pre = aggregate (pre ++ [h]))
        as Hnext by (by rewrite aggregate_snoc, decide_True).
      rewrite Hnext. apply IH. rewrite <- Hnext. by apply indexes_bump.
    + assert (hit_url h ∉ hit_url <$> pre) as Hout.
      { rewrite <- aggregate_url_elem. intros (i & Hi)%list_elem_of_lookup_1.
        apply Hidx in Hi. congruence. }
      fold (new_source h).
      assert (aggregate pre ++ [new_source h] = aggregate (pre ++ [h]))
        as Hnext by (by rewrite aggregate_snoc, decide_False).
      rewrite Hnext. apply IH. rewrite <- Hnext.
      by apply (indexes_snoc _ _ (new_source h)).
Qed.

Lemma query_sources_aggregate hits : query_sources hits = Some (aggregate hits).
Proof.
  unfold query_sources. destruct hits as [|h rest]; [done|]. cbn [truthy].
  apply (sources_loop_aggregate [] (h :: rest)).
  intros u i. by rewrite lookup_empty.
Qed.

End AggregateFacts.

(* ===================================================================== *)
(** * C5: one source per page, in first-seen order                        *)
(* ===================================================================== *)

(** C5, as stated, fails: what is appended to the quotes is the
    recovered text stripped of the whitespace at its ends
    ([raw.strip()], lines 150 and 155). Two hits of one page with the
    texts ["T\n\nfirst"] and [" second "] have the recovered texts
    ["first"] and [" second "], and the quotes ["first"] and
    ["second"]. *)
Lemma query_quotes_not_recovered_texts :
  let m := mkMetadata (lit "a") (lit "T") (lit "c") 0 in
  let hits := [mkHit (lit "a_0") (lit "T" ++ nn ++ lit "first") m 1%Z;
               mkHit (lit "a_1") (lit " second ") m 2%Z] in
  recover_raw <$> hits = [lit "first"; lit " second "]
  ∧ query_sources hits
    = Some [mkSource (lit "a") (lit "T") (lit "c") (lit "first")
              [lit "first"; lit "second"]]
  ∧ ¬ (∀ sources, query_sources hits = Some sources →
         ∀ s, s ∈ sources → quotes_recovered hits s).
Proof.
  intros m hits. split; [vm_compute; reflexivity|].
  split; [vm_compute; reflexivity|]. intros Hstated.
  specialize (Hstated _ eq_refl _ (list_elem_of_here _ _)).
  apply (f_equal (λ l : list str, length (concat l))) in Hstated.
  vm_compute in Hstated. discriminate.
Qed.

(** C5 (amended). The sources of a hit list have pairwise distinct urls,
    in the order of the first occurrence of each url in the hits; the
    quotes of a source are the recovered texts of the hits of its page,
    each stripped of the whitespace at its ends, in the order of the
    hits; a further hit of a known page adds its quote, the stripped
    recovered text, to that source and changes no snippet, and a hit of
    a new page adds a source at the end. *)
Theorem query_sources_grouped {distance : Type} (hits : list (Hit distance)) :
  ∃ sources,
    query_sources hits = Some sources
    ∧ NoDup (source_url <$> sources)
    ∧ source_url <$> sources = first_seen (hit_url <$> hits)
    ∧ (∀ s, s ∈ sources →
         quotes s = (λ h, strip (recover_raw h)) <$> hits_with (source_url s) hits)
    ∧ (∀ h, hit_url h ∈ hit_url <$> hits →
         query_sources (hits ++ [h])
         = Some (bump (hit_url h) (quote_of h) <$> sources)
         ∧ snippet <$> (bump (hit_url h) (quote_of h) <$> sources)
           = snippet <$> sources)
    ∧ (∀ h, hit_url h ∉ hit_url <$> hits →
         query_sources (hits ++ [h]) = Some (sources ++ [new_source h])).
Proof.
  exists (aggregate hits). split; [apply query_sources_aggregate|].
  split; [apply aggregate_NoDup|]. split; [apply aggregate_urls|].
  split; [|split].
  - intros s (h & more & Hw & ->)%aggregate_member. cbn [source_url quotes] in *.
    by rewrite Hw.
  - intros h Hin. rewrite query_sources_aggregate, aggregate_snoc, decide_True by done.
    split; [done|]. rewrite <- list_fmap_compose. apply list_fmap_ext.
    intros i s _. unfold compose, bump. by destruct (decide _).
  - intros h Hout. by rewrite query_sources_aggregate, aggregate_snoc, decide_False.
Qed.

(** The merge example of the design document: two hits of page A and
    one of page B. *)
Lemma query_sources_grouped_witness :
  let mA := mkMetadata (lit "A") (lit "Ta") (lit "c") 0 in
  let mB := mkMetadata (lit "B") (lit "Tb") (lit "c") 0 in
  let hits := [mkHit (lit "A_0") (lit "Ta" ++ nn ++ lit "alpha one") mA 1%Z;
               mkHit (lit "A_1") (lit "Ta" ++ nn ++ lit "alpha two") mA 2%Z;
               mkHit (lit "B_0") (lit "Tb" ++ nn ++ lit "beta one") mB 3%Z] in
  query_sources hits
  = Some [mkSource (lit "A") (lit "Ta") (lit "c") (lit "alpha one")
            [lit "alpha one"; lit "alpha two"];
          mkSource (lit "B") (lit "Tb") (lit "c") (lit "beta one") [lit "beta one"]]
  ∧ ∃ sources, query_sources hits = Some sources
               ∧ source_url <$> sources = [lit "A"; lit "B"].
Proof.
  intros mA mB hits. split; [vm_compute; reflexivity|].
  destruct (query_sources_grouped hits) as (sources & Hrun & _ & Hurls & _).
  exists sources. split; [done|]. rewrite Hurls. vm_compute. reflexivity.
Defined.

(* ===================================================================== *)
(** * C10: the quotes of the sources                                      *)
(* ===================================================================== *)

Section QuoteFacts.

Context {distance : Type}.

Implicit Types (h : Hit distance) (hits : list (Hit distance)) (s : Source)
  (sources : list Source).

Lemma total_quotes_insert sources idx s quote :
  sources !! idx = Some s →
  total_quotes (<[idx := add_quote quote s]> sources) = S (total_quotes sources).
Proof.
  intros Hs. rewrite insert_take_drop by (by eapply lookup_lt_Some).
  rewrite <- (take_drop_middle sources idx s Hs) at 3.
  unfold total_quotes. rewrite !sum_list_with_app. simpl.
  rewrite length_app. simpl. lia.
Qed.

(** Every hit adds exactly one quote. *)
Lemma sources_loop_total hits sources seen_urls out :
  sources_loop hits sources seen_urls = Some out →
  total_quotes out = (total_quotes sources + length hits)%nat.
Proof.
  revert sources seen_urls. induction hits as [|h rest IH]; intros sources seen_urls.
  - simpl. intros [= <-]. lia.
  - cbn [sources_loop]. destruct (seen_urls !! _) as [idx|].
    + destruct (sources !! idx) as [s|] eqn:Hs; [|done]. cbn [mbind option_bind].
      intros ->%IH. rewrite (total_quotes_insert _ _ _ _ Hs). simpl. lia.
    + intros ->%IH. unfold total_quotes. rewrite sum_list_with_app. simpl. lia.
Qed.

End QuoteFacts.

(** C10. For every hit list the source-building loop of [query] returns
    sources whose quotes lists are non-empty and hold one quote per hit
    in total, and whose url, title, category and snippet are those of
    the first hit bearing that url. *)
Theorem query_sources_quotes {distance : Type} (hits : list (Hit distance)) :
  ∃ sources,
    query_sources hits = Some sources
    ∧ Forall (λ s, quotes s ≠ []) sources
    ∧ total_quotes sources = length hits
    ∧ ∀ s, s ∈ sources →
        ∃ pre h post,
          hits = pre ++ h :: post
          ∧ (source_url s ∉ hit_url <$> pre)
          ∧ source_url s = hit_url h
          ∧ source_title s = title (hit_metadata h)
          ∧ source_category s = category (hit_metadata h)
          ∧ snippet s = snippet_of h.
Proof.
  exists (aggregate hits). split; [apply query_sources_aggregate|].
  split; [|split].
  - apply Forall_forall. by intros s (h & more & _ & ->)%aggregate_member.
  - pose proof (query_sources_aggregate hits) as Hrun. unfold query_sources in Hrun.
    destruct hits as [|h rest]; [done|]. cbn [truthy] in Hrun.
    by apply sources_loop_total in Hrun.
  - intros s (h & more & Hw & ->)%aggregate_member.
    apply hits_with_first in Hw as (pre & post & -> & Hpre & Hu).
    cbn [source_url] in *. by exists pre, h, post.
Qed.

Lemma query_sources_quotes_witness :
  let mA := mkMetadata (lit "A") (lit "Ta") (lit "c") 0 in
  let hits := [mkHit (lit "A_0") (lit "Ta" ++ nn ++ lit "alpha one") mA 1%Z;
               mkHit (lit "A_1") (lit "Ta" ++ nn ++ lit "alpha two") mA 2%Z] in
  ∃ sources, query_sources hits = Some sources ∧ total_quotes sources = 2%nat.
Proof.
  intros mA hits.
  destruct (query_sources_quotes hits) as (sources & Hrun & _ & Htotal & _).
  exists sources. split; [done|]. exact Htotal.
Defined.

(* ===================================================================== *)
(** * C6: the recovered text and the snippet                              *)
(* ===================================================================== *)

Section SnippetFacts.

Implicit Types (s p : str).

Lemma startswith_spec s p : startswith s p = true ↔ ∃ r, s = p ++ r.
Proof.
  revert s. induction p as [|a p IH]; intros s; simpl.
  - split; [by exists s | done].
  - destruct s as [|b s]; [split; [done | by intros [r ?]]|].
    destruct (Ascii.eqb a b) eqn:E.
    + apply Ascii.eqb_eq in E as ->. rewrite IH. split.
      * intros [r ->]. by exists r.
      * intros [r [= ->]]. by exists r.
    + apply Ascii.eqb_neq in E. split; [done|]. intros [r [= ? _]]. congruence.
Qed.

Lemma lstrip_by_id (f : ascii → bool) s :
  match s with c :: _ => f c = false | [] => True end → lstrip_by f s = s.
Proof. destruct s as [|c s]; [done|]. simpl. by intros ->. Qed.

(** [strip] leaves a string without whitespace at its ends as it is. *)
Lemma strip_trimmed s : trimmed s → strip s = s.
Proof.
  intros [Hhead Hlast]. unfold strip, strip_by, rstrip_by.
  rewrite (lstrip_by_id _ s Hhead), (lstrip_by_id _ (reverse s) Hlast).
  apply reverse_involutive.
Qed.

End SnippetFacts.

(** C6, as stated, fails. A recovered body of 250 characters whose
    200th character is a space gives a snippet of 199 characters plus
    the ellipsis; a text without the title prefix but with a leading
    space is not quoted unmodified. *)
Lemma query_source_not_as_stated :
  let m := mkMetadata (lit "a") (lit "T") (lit "c") 0 in
  let h := mkHit (lit "a_0")
             (lit "T" ++ nn ++ replicate 199 "a"%char ++ lit " " ++ replicate 50 "b"%char)
             m 0%Z in
  let h' := mkHit (lit "a_1") (lit " x") m 0%Z in
  (length (recover_raw h) = 250%nat
   ∧ length (snippet_of h) = 202%nat
   ∧ query_sources [h] ≠ Some [source_as_stated h])
  ∧ (recover_raw h' = lit " x"
     ∧ quote_of h' = lit "x"
     ∧ query_sources [h'] ≠ Some [source_as_stated h']).
Proof.
  intros m h h'. split; (split; [vm_compute; reflexivity|]);
    (split; [vm_compute; reflexivity|]); intros H.
  - apply (f_equal (λ o, match o with
                         | Some [s] => length (snippet s)
                         | _ => O
                         end)) in H.
    vm_compute in H. discriminate.
  - apply (f_equal (λ o, match o with
                         | Some [s] => length (concat (quotes s))
                         | _ => O
                         end)) in H.
    vm_compute in H. discriminate.
Qed.

(** C6 (amended). The recovered text of a hit is its text without the
    leading [title + "\n\n"] when the text starts with it, and the whole
    text otherwise; the quote is the recovered text stripped of the
    whitespace at its ends, and the snippet of a new source is the first
    200 characters of the recovered text, stripped in the same way, with
    an ellipsis appended if and only if the recovered text (before
    stripping) is longer than 200 characters. When no whitespace is at
    the ends, the quote is the recovered text and the snippet is its
    first 200 characters (plus the ellipsis: 203 characters for a longer
    text); a text of at most 200 characters gives the quote as snippet. *)
Theorem recovered_text_and_snippet {distance : Type} (h : Hit distance) :
  let title := title (hit_metadata h) in
  let raw := recover_raw h in
  (startswith (hit_text h) (title ++ nn) = true ↔ ∃ body, hit_text h = title ++ nn ++ body)
  ∧ (startswith (hit_text h) (title ++ nn) = true → hit_text h = title ++ nn ++ raw)
  ∧ (startswith (hit_text h) (title ++ nn) = false → raw = hit_text h)
  ∧ query_sources [h]
    = Some [mkSource (hit_url h) title (category (hit_metadata h))
              (strip (take 200 raw)
               ++ (if (200 <? length raw)%nat then lit "..." else []))
              [strip raw]]
  ∧ (trimmed raw → quote_of h = raw)
  ∧ (trimmed (take 200 raw) → snippet_of h = snippet_as_stated raw)
  ∧ ((length raw ≤ 200)%nat → snippet_of h = quote_of h)
  ∧ ((200 < length raw)%nat → trimmed (take 200 raw) →
       length (snippet_of h) = 203%nat).
Proof.
  intros title raw.
  assert (snippet_of h
          = strip (take 200 raw) ++ (if (200 <? length raw)%nat then lit "..." else []))
    as Hsnip.
  { unfold snippet_of. fold raw. destruct (200 <? length raw)%nat; [done|].
    by rewrite app_nil_r. }
  split; [|split; [|split; [|split; [|split; [|split; [|split]]]]]].
  - rewrite startswith_spec. by setoid_rewrite <- app_assoc.
  - intros Hpre. unfold raw, recover_raw. fold title. rewrite Hpre.
    apply startswith_spec in Hpre as [body Hbody]. rewrite Hbody at 1.
    rewrite Hbody, <- app_assoc.
    do 2 f_equal. by rewrite drop_app_add.
  - intros Hpre. unfold raw, recover_raw. fold title. by rewrite Hpre.
  - rewrite query_sources_aggregate. cbn [aggregate]. unfold hits_with.
    rewrite filter_nil. cbn [fmap list_fmap]. rewrite Hsnip. done.
  - intros Htrim. unfold quote_of. fold raw. by apply strip_trimmed.
  - intros Htrim. rewrite Hsnip. unfold snippet_as_stated.
    by rewrite strip_trimmed.
  - intros Hlen. rewrite Hsnip. unfold quote_of. fold raw.
    rewrite take_ge by done.
    destruct (200 <? length raw)%nat eqn:E; [apply Nat.ltb_lt in E; lia|].
    by rewrite app_nil_r.
  - intros Hlen Htrim. rewrite Hsnip, strip_trimmed by done.
    pose proof Hlen as Hlt. apply Nat.ltb_lt in Hlt. rewrite Hlt.
    rewrite length_app, length_take. change (length (lit "...")) with 3%nat. lia.
Qed.

(** The two cases of the design document: a body of 250 characters
    without whitespace at the cut, and a body of 150 characters. *)
Lemma recovered_text_and_snippet_witness :
  let m := mkMetadata (lit "a") (lit "T") (lit "c") 0 in
  let long := mkHit (lit "a_0") (lit "T" ++ nn ++ replicate 250 "a"%char) m 0%Z in
  let short := mkHit (lit "a_1") (lit "T" ++ nn ++ replicate 150 "a"%char) m 0%Z in
  length (snippet_of long) = 203%nat
  ∧ snippet_of long = replicate 200 "a"%char ++ lit "..."
  ∧ snippet_of short = quote_of short
  ∧ quote_of short = replicate 150 "a"%char.
Proof.
  intros m long short.
  destruct (recovered_text_and_snippet long) as (_ & _ & _ & _ & _ & Hsnip & _ & Hlen).
  destruct (recovered_text_and_snippet short) as (_ & _ & _ & _ & Hquote & _ & Hfull & _).
  split; [|split; [|split]].
  - apply Hlen; [vm_compute; lia | vm_compute; split; reflexivity].
  - rewrite Hsnip; [vm_compute; reflexivity | vm_compute; split; reflexivity].
  - apply Hfull. vm_compute. lia.
  - rewrite Hquote; [vm_compute; reflexivity | vm_compute; split; reflexivity].
Defined.

(* ===================================================================== *)
(** * Further properties of the splitters                                 *)
(* ===================================================================== *)

Section SentenceShape.

Implicit Types (s cur p : str).

Lemma split_sentences_go_head sk cur s :
  ∃ p rest, split_sentences_go sk cur s = (cur ++ p) :: rest.
Proof.
  revert sk cur. induction s as [|c r IH]; intros sk cur; simpl.
  - exists [], []. by rewrite app_nil_r.
  - destruct (sk && isspace c); [apply IH|].
    destruct (ispunct c && _); [by eexists [c], _|].
    destruct (IH false (cur ++ [c])) as (p & rest & ->).
    exists (c :: p), rest. by rewrite <- app_assoc.
Qed.

(** Every piece but the last ends with one of [.!?]. *)
Lemma split_sentences_go_ends sk cur s i p :
  split_sentences_go sk cur s !! i = Some p →
  (S i < length (split_sentences_go sk cur s))%nat →
  ∃ q c, p = q ++ [c] ∧ ispunct c = true.
Proof.
  revert sk cur i. induction s as [|c r IH]; intros sk cur i; simpl.
  - intros _ Hi. simpl in Hi. lia.
  - destruct (sk && isspace c); [apply IH|].
    destruct (ispunct c && _) eqn:Hp; [|apply IH].
    apply andb_true_iff in Hp as [Hc _].
    destruct i as [|i]; simpl.
    + intros [= <-] _. by exists cur, c.
    + intros Hp Hi. apply (IH true [] i Hp). lia.
Qed.

(** No piece after the first starts with whitespace, nor does the first
    one when it is read right after a separator. *)
Lemma split_sentences_go_starts sk cur s :
  (sk = true → cur = [] →
   ∀ p c, head (split_sentences_go sk cur s) = Some p →
          head p = Some c → isspace c = false)
  ∧ Forall (λ p, ∀ c, head p = Some c → isspace c = false)
      (tail (split_sentences_go sk cur s)).
Proof.
  revert sk cur. induction s as [|c r IH]; intros sk cur; simpl.
  - split; [|constructor]. intros _ -> p c' [= <-]. done.
  - destruct (sk && isspace c) eqn:Hsk;
      [apply andb_true_iff in Hsk as [-> _]; apply IH|].
    destruct (ispunct c && _).
    + simpl. split.
      * intros -> -> p c' [= <-] [= <-]. done.
      * destruct (IH true []) as [Hhead Htail].
        destruct (split_sentences_go true [] r) as [|p0 rest] eqn:E; [constructor|].
        constructor; [|done]. intros c' Hc'. by apply (Hhead eq_refl eq_refl p0 c').
    + destruct (IH false (cur ++ [c])) as [_ Htail]. split; [|done].
      intros -> -> p c'.
      destruct (split_sentences_go_head false ([] ++ [c]) r) as (q & rest & ->).
      simpl. intros [= <-] [= <-]. done.
Qed.

(** A text without a separator comes back whole, and only such a
    text. *)
Lemma split_sentences_go_whole cur s :
  has_boundary s = false → split_sentences_go false cur s = [cur ++ s].
Proof.
  revert cur. induction s as [|c r IH]; intros cur; simpl.
  - by rewrite app_nil_r.
  - intros [Hp Hr]%orb_false_iff. rewrite Hp, IH, <- app_assoc; done.
Qed.

Lemma split_sentences_go_cut sk cur s :
  has_boundary s = true → (2 ≤ length (split_sentences_go sk cur s))%nat.
Proof.
  revert sk cur. induction s as [|c r IH]; intros sk cur; simpl; [done|].
  destruct (ispunct c && _) eqn:Hp; simpl.
  - intros _. apply andb_true_iff in Hp as [Hc Hd].
    destruct (sk && isspace c) eqn:Hsk.
    + apply andb_true_iff in Hsk as [_ Hs]. exfalso. revert Hc Hs.
      unfold ispunct, isspace. generalize (nat_of_ascii c). intros n Hc Hs.
      repeat (apply orb_true_iff in Hc as [Hc|Hc]);
        apply Nat.eqb_eq in Hc; subst n; simpl in Hs; discriminate.
    + simpl. pose proof (split_sentences_go_nonempty true [] r).
      destruct (split_sentences_go true [] r); [done|simpl; lia].
  - intros Hr. destruct (sk && isspace c); by apply IH.
Qed.

End SentenceShape.

(** X1. [split_into_sentences] never returns an empty list and loses
    nothing but whitespace: the sentences, put end to end, have the
    characters of the text that are not whitespace, in order; joined by
    single spaces they are not longer than the text. *)
Theorem split_into_sentences_keeps_text (text : str) :
  split_into_sentences text ≠ []
  ∧ nows (concat (split_into_sentences text)) = nows text
  ∧ (length (join (lit " ") (split_into_sentences text)) ≤ length text)%nat.
Proof.
  split; [apply split_sentences_go_nonempty|].
  split; [apply split_into_sentences_nows | apply join_split_into_sentences_length].
Qed.

(** X2. Every sentence of [split_into_sentences] but the last ends with
    ['.'], ['!'] or ['?']; no sentence after the first starts with
    whitespace; the text is returned as a single sentence exactly when
    none of these characters is followed by whitespace in it. *)
Theorem split_into_sentences_shape (text : str) :
  (∀ i p, split_into_sentences text !! i = Some p →
          (S i < length (split_into_sentences text))%nat →
          ∃ q c, p = q ++ [c] ∧ ispunct c = true)
  ∧ (∀ i p c, split_into_sentences text !! S i = Some p →
              head p = Some c → isspace c = false)
  ∧ (split_into_sentences text = [text] ↔ has_boundary text = false).
Proof.
  split; [|split].
  - intros i p. apply split_sentences_go_ends.
  - intros i p c Hp Hc.
    destruct (split_sentences_go_starts false [] text) as [_ Htail].
    unfold split_into_sentences in Hp.
    destruct (split_sentences_go false [] text) as [|p0 rest]; [done|].
    simpl in *. rewrite Forall_forall in Htail.
    eapply Htail; [|done]. by eapply list_elem_of_lookup_2.
  - split; [|by apply (split_sentences_go_whole [] text)].
    intros Heq. destruct (has_boundary text) eqn:Hb; [|done].
    pose proof (split_sentences_go_cut false [] text Hb) as Hlen.
    unfold split_into_sentences in Heq. rewrite Heq in Hlen. simpl in Hlen. lia.
Qed.

Lemma split_into_sentences_shape_witness :
  split_into_sentences (lit "no boundary.here") = [lit "no boundary.here"]
  ∧ ∃ q c, lit "One." = q ++ [c] ∧ ispunct c = true.
Proof.
  split.
  - apply (split_into_sentences_shape (lit "no boundary.here")). reflexivity.
  - apply (proj1 (split_into_sentences_shape (lit "One. Two")) 0%nat (lit "One."));
      [reflexivity | vm_compute; lia].
Defined.

(* ===================================================================== *)
(** * Further properties of chunk_text                                    *)
(* ===================================================================== *)

Section ChunkShape.

Implicit Types (s text title current : str) (chunks : list str).

Lemma lstrip_by_all (f : ascii → bool) s :
  Forall (λ c, f c = true) s → lstrip_by f s = [].
Proof. induction 1 as [|c r Hc _ IH]; [done|]. simpl. by rewrite Hc. Qed.

Lemma strip_spaces s : Forall (λ c, isspace c = true) s → strip s = [].
Proof. intros H. unfold strip, strip_by. by rewrite lstrip_by_all. Qed.

(** What [strip] returns has no whitespace at its ends. *)
Lemma strip_is_trimmed s : trimmed (strip s).
Proof.
  destruct (strip_by_ends isspace s) as [Hhead Hlast]. fold (strip s) in *.
  split.
  - destruct (strip s) as [|c r]; [done|]. by apply Hhead.
  - destruct (reverse (strip s)) as [|c r] eqn:E; [done|]. apply Hlast.
    by rewrite <- head_reverse, E.
Qed.

Lemma split_nn_go_spaces cur s :
  Forall (λ c, isspace c = true) cur → Forall (λ c, isspace c = true) s →
  Forall (Forall (λ c, isspace c = true)) (split_nn_go cur s).
Proof.
  remember (length s) as n eqn:Hn. revert cur s Hn.
  induction n as [n IH] using lt_wf_ind. intros cur s -> Hcur Hs.
  destruct s as [|c [|d r']]; [| |rewrite split_nn_go_cons2].
  - by repeat constructor.
  - simpl. repeat constructor. apply Forall_app. split; [done|].
    by apply Forall_singleton, Forall_cons in Hs as [? _].
  - apply Forall_cons in Hs as [Hc Hs]. pose proof Hs as [Hd Hr]%Forall_cons.
    destruct (decide _).
    + constructor; [done|]. by apply (IH (length r')); [simpl; lia|..].
    + apply (IH (length (d :: r'))); [simpl; lia|done| |done].
      apply Forall_app. split; [done|]. by apply Forall_singleton.
Qed.

(** A text of whitespace has no paragraph. *)
Lemma paragraphs_spaces text :
  Forall (λ c, isspace c = true) text → paragraphs text = [].
Proof.
  intros Hs. unfold paragraphs, split_nn.
  pose proof (split_nn_go_spaces [] text ltac:(constructor) Hs) as Hall.
  induction Hall as [|p l Hp _ IH]; [done|].
  rewrite fmap_cons, filter_cons, (strip_spaces p Hp).
  by destruct (decide _).
Qed.

Lemma paragraphs_trimmed text :
  Forall (λ p, p ≠ [] ∧ trimmed p) (paragraphs text).
Proof.
  unfold paragraphs. apply Forall_forall.
  intros p [Hne (q & -> & _)%list_elem_of_fmap]%list_elem_of_filter.
  split; [done | apply strip_is_trimmed].
Qed.

(** The candidate of the sentence walk fits [chunk_size] unless it is one
    sentence taken whole. *)
Lemma sentence_walk_budget chunk_size chunk sentences chunk' remaining :
  sentence_walk chunk_size chunk sentences = Some (chunk', remaining) →
  len chunk' ≤ chunk_size ∨ chunk' = chunk ∨ chunk' ∈ sentences.
Proof.
  revert chunk. induction sentences as [|sent rest IH]; intros chunk; [done|].
  cbn [sentence_walk].
  destruct ((chunk_size <? len chunk + len sent + 1) && truthy chunk) eqn:Hc.
  - intros [= <- _]. by right; left.
  - intros [Hle|[->|Hin]]%IH; [by left| |right; right; by right].
    destruct chunk as [|a chunk]; cbn [truthy] in *.
    + right; right. by left.
    + left. rewrite andb_true_r in Hc. apply Z.ltb_ge in Hc.
      pose proof (len_strip ((a :: chunk) ++ lit " " ++ sent)) as Hs.
      unfold len in *. rewrite !length_app in Hs. simpl in *. lia.
Qed.

(** No chunk of [segment] is longer than the text. *)
Lemma segment_bounded fuel text chunk_size overlap chunks :
  segment fuel text chunk_size overlap = Some chunks →
  Forall (λ c, (length c ≤ length text)%nat) chunks.
Proof.
  unfold segment. intros Hseg.
  destruct (paragraph_loop _ _ _ _ _) as [[chunks' current]|] eqn:Hloop; [|done].
  simpl in Hseg. injection Hseg as <-.
  apply (paragraph_loop_invariant chunk_size overlap
           (λ seen st, fits (weight 2 seen - 2) st) _ _ []) in Hloop.
  - destruct Hloop as [Hcur Hall]. cbn [fst snd app] in *.
    pose proof (paragraphs_weight text) as Hw.
    assert (Forall (λ c, (length c ≤ length text)%nat) chunks') as Hall'.
    { eapply Forall_impl; [done|]. simpl. lia. }
    destruct (truthy current); [|done].
    apply Forall_app. split; [done|]. apply Forall_singleton. lia.
  - clear. intros seen st para st1 Hfit Hrun.
    eapply force_split_fits; [done|].
    rewrite weight_app. unfold weight at 2. simpl. rewrite Nat.add_0_r.
    by apply absorb_fits.
  - split; [simpl; lia | constructor].
Qed.

(** The chunks of the forced split: a hard cut has at most [chunk_size]
    characters, and a candidate of the sentence walk too unless it is
    one sentence longer than [chunk_size]. *)
Lemma sentence_walked_sentence chunk_size c :
  sentence_walked chunk_size c →
  len c ≤ chunk_size
  ∨ ∃ buffer, too_long chunk_size buffer = true
              ∧ c ∈ split_into_sentences buffer.
Proof.
  intros (buffer & remaining & Hlong & Hwalk).
  pose proof Hwalk as (_ & _ & _ & Hne & _)%sentence_walk_break.
  apply sentence_walk_budget in Hwalk as [Hle|[->|Hin]]; [by left|done|].
  right. by exists buffer.
Qed.

End ChunkShape.

(** X3. A text that is empty or made of whitespace only gives no chunk,
    whatever the parameters and the fuel; the paragraphs of a text are
    never empty and have no whitespace at their ends. *)
Theorem chunk_text_blank fuel text title chunk_size overlap min_chunk_size :
  Forall (λ c, isspace c = true) text →
  chunk_text fuel text title chunk_size overlap min_chunk_size = Some []
  ∧ paragraphs text = [].
Proof.
  intros Hs. split; [|by apply paragraphs_spaces].
  unfold chunk_text, segment. by rewrite (paragraphs_spaces text Hs).
Qed.

Lemma chunk_text_blank_witness :
  chunk_text 0 ([LF; LF] ++ lit "   " ++ [LF]) (lit "T") (-3) 7 1 = Some [].
Proof.
  apply (chunk_text_blank 0 ([LF; LF] ++ lit "   " ++ [LF]) (lit "T") (-3) 7 1).
  repeat constructor.
Defined.

(** X4. A chunk body of [chunk_text] is longer than [1.5 * chunk_size]
    only when it is one whole sentence of an over-long buffer, longer
    than [chunk_size] on its own: the sentence walk never merges
    sentences beyond [chunk_size]. *)
Theorem chunk_text_long_bodies fuel text title chunk_size overlap min_chunk_size result :
  chunk_text fuel text title chunk_size overlap min_chunk_size = Some result →
  ∀ r, r ∈ result →
    2 * len (body_of title r) ≤ 3 * chunk_size
    ∨ ∃ buffer sentence,
        too_long chunk_size buffer = true
        ∧ sentence ∈ split_into_sentences buffer
        ∧ chunk_size < len sentence
        ∧ body_of title r = strip sentence.
Proof.
  unfold chunk_text. intros Hrun r Hr.
  destruct (segment _ _ _ _) as [chunks|] eqn:Hseg; [|done].
  simpl in Hrun. injection Hrun as <-.
  apply elem_of_retain in Hr as (c & Hc & _ & ->). rewrite body_of_prepend.
  pose proof (len_strip c) as Hs. pose proof (len_nonneg (strip c)).
  apply segment_chunks in Hseg. rewrite Forall_forall in Hseg.
  destruct (Hseg c Hc) as [Hle|[Hle|(buffer & Hlong & Hin)]%sentence_walked_sentence].
  - left. lia.
  - left. lia.
  - destruct (decide (len c ≤ chunk_size)); [left; lia|].
    right. exists buffer, c. repeat split; [done..|lia].
Qed.

Lemma chunk_text_long_bodies_witness :
  2 * len (body_of (lit "T") (lit "T" ++ nn ++ lit "aaaaaaaaa.")) ≤ 3 * 4
  ∨ ∃ buffer sentence,
      too_long 4 buffer = true
      ∧ sentence ∈ split_into_sentences buffer
      ∧ 4 < len sentence
      ∧ body_of (lit "T") (lit "T" ++ nn ++ lit "aaaaaaaaa.") = strip sentence.
Proof.
  apply (chunk_text_long_bodies 17 (lit "aaaaaaaaa. bbbbbb") (lit "T") 4 1 1
           [lit "T" ++ nn ++ lit "aaaaaaaaa."; lit "T" ++ nn ++ lit "bbbbbb"]).
  - vm_compute. reflexivity.
  - apply list_elem_of_here.
Defined.

(** X5. In a hard cut the finalized chunk and the buffer that is resumed
    share exactly [overlap] characters: the last [overlap] characters of
    the chunk are the first [overlap] characters of the new buffer. *)
Theorem hard_cut_overlap chunk_size overlap (chunks : list str) (current : str) :
  0 ≤ overlap → overlap ≤ chunk_size → chunk_size ≤ len current →
  sentence_walk chunk_size [] (split_into_sentences current) = None →
  ∃ chunk current',
    split_once chunk_size overlap (chunks, current) = (chunks ++ [chunk], current')
    ∧ len chunk = chunk_size
    ∧ slice_from chunk (chunk_size - overlap) = slice_to current' overlap
    ∧ len (slice_to current' overlap) = overlap.
Proof.
  intros Hov Hcs Hlen Hwalk. unfold split_once. rewrite Hwalk.
  eexists _, _. split; [done|].
  unfold slice_from, slice_to, len in *. rewrite !length_take, !length_drop.
  unfold slice_index.
  destruct (0 <=? chunk_size) eqn:E1; [|apply Z.leb_gt in E1; lia].
  destruct (0 <=? chunk_size - overlap) eqn:E2; [|apply Z.leb_gt in E2; lia].
  destruct (0 <=? overlap) eqn:E3; [|apply Z.leb_gt in E3; lia].
  assert (Z.to_nat chunk_size
          = (Z.to_nat (chunk_size - overlap) + Z.to_nat overlap)%nat) as Ha by lia.
  assert (Z.to_nat chunk_size ≤ length current)%nat as Hn by lia.
  revert Ha Hn. generalize (Z.to_nat (chunk_size - overlap)) as b.
  intros b Ha Hn.
  rewrite (Nat.min_r _ b), (Nat.min_r (length current) b) by lia.
  rewrite (Nat.min_r _ (Z.to_nat overlap)), (Nat.min_l (Z.to_nat overlap)) by lia.
  split; [lia|]. split; [|lia].
  rewrite (Nat.min_r (length current)) by lia.
  by rewrite take_drop_commute, Ha.
Qed.

Lemma hard_cut_overlap_witness :
  ∃ chunk current',
    split_once 6 2 ([], lit "abcdefghijklmnopqrstuvwxyz") = ([] ++ [chunk], current')
    ∧ len chunk = 6
    ∧ slice_from chunk (6 - 2) = slice_to current' 2
    ∧ len (slice_to current' 2) = 2.
Proof.
  apply (hard_cut_overlap 6 2 [] (lit "abcdefghijklmnopqrstuvwxyz"));
    [lia | lia | vm_compute; discriminate | reflexivity].
Defined.

(** X6. No chunk body of [chunk_text] is longer than the text (the
    overlap never makes a chunk grow beyond the document), and a body
    has no whitespace at its ends. *)
Theorem chunk_text_bodies fuel text title chunk_size overlap min_chunk_size result :
  chunk_text fuel text title chunk_size overlap min_chunk_size = Some result →
  ∀ r, r ∈ result →
    (length (body_of title r) ≤ length text)%nat ∧ trimmed (body_of title r).
Proof.
  unfold chunk_text. intros Hrun r Hr.
  destruct (segment _ _ _ _) as [chunks|] eqn:Hseg; [|done].
  simpl in Hrun. injection Hrun as <-.
  apply elem_of_retain in Hr as (c & Hc & _ & ->). rewrite body_of_prepend.
  split; [|apply strip_is_trimmed].
  apply segment_bounded in Hseg. rewrite Forall_forall in Hseg.
  pose proof (Hseg c Hc). pose proof (strip_length c). lia.
Qed.

Lemma chunk_text_bodies_witness :
  (length (body_of (lit "T") (lit "T" ++ nn ++ lit "bbbbbb"))
   ≤ length (lit "aaaaaaaaa. bbbbbb"))%nat
  ∧ trimmed (body_of (lit "T") (lit "T" ++ nn ++ lit "bbbbbb")).
Proof.
  apply (chunk_text_bodies 17 (lit "aaaaaaaaa. bbbbbb") (lit "T") 4 1 1
           [lit "T" ++ nn ++ lit "aaaaaaaaa."; lit "T" ++ nn ++ lit "bbbbbb"]).
  - vm_compute. reflexivity.
  - apply list_elem_of_further, list_elem_of_here.
Defined.

(* ===================================================================== *)
(** * Further properties of slugs and chunk ids                           *)
(* ===================================================================== *)

Section SlugStability.

Implicit Types (s url old : str) (f : ascii → bool).

Lemma startswith_elem s old c : startswith s old = true → c ∈ old → c ∈ s.
Proof.
  intros [r ->]%startswith_spec Hc. apply elem_of_app. by left.
Qed.

(** Removing a string that has a character foreign to [s] changes
    nothing. *)
Lemma remove_all_absent old s c : c ∈ old → c ∉ s → remove_all old s = s.
Proof.
  intros Hold. unfold remove_all. induction s as [|a r IH]; intros Hs; [done|].
  cbn [remove_go]. destruct (startswith (a :: r) old) eqn:E.
  - exfalso. apply Hs. by eapply startswith_elem.
  - rewrite IH; [done|]. intros ?. apply Hs. by right.
Qed.

Lemma sub_non_alnum_fixed s :
  Forall (λ c, isalnum c = true ∨ c = underscore) s → sub_non_alnum s = s.
Proof.
  unfold sub_non_alnum. induction 1 as [|c r Hc _ IH]; [done|].
  rewrite fmap_cons, IH. f_equal. destruct Hc as [->| ->]; done.
Qed.

Lemma strip_by_fixed f s :
  (∀ c, head s = Some c → f c = false) →
  (∀ c, last s = Some c → f c = false) →
  strip_by f s = s.
Proof.
  intros Hhead Hlast. unfold strip_by, rstrip_by.
  rewrite (lstrip_by_id f s).
  - rewrite (lstrip_by_id f (reverse s)); [apply reverse_involutive|].
    destruct (reverse s) as [|c r] eqn:E; [done|]. apply Hlast.
    by rewrite <- head_reverse, E.
  - destruct s as [|c r]; [done|]. by apply Hhead.
Qed.

Lemma url_to_slug_charset url :
  Forall (λ c, isalnum c = true ∨ c = underscore) (url_to_slug url).
Proof.
  unfold url_to_slug. set (t := sub_non_alnum _).
  destruct (strip_by_split is_underscore t) as (k1 & k2 & Heq & _).
  pose proof (sub_non_alnum_charset
                (remove_all (lit "http://") (remove_all (lit "https://") url))) as H.
  fold t in H. rewrite Heq in H. by apply Forall_app in H as [_ [H _]%Forall_app].
Qed.

Lemma url_to_slug_no_colon url : ascii_of_nat 58 ∉ url_to_slug url.
Proof.
  intros Hin. pose proof (url_to_slug_charset url) as Hall.
  rewrite Forall_forall in Hall. by destruct (Hall _ Hin).
Qed.

End SlugStability.

(** X7. [url_to_slug] is idempotent: the slug of a slug is the slug
    itself, so a slug names the same file or id however often it is
    passed through; the copy of the function in the crawler computes
    the same slugs as the one of the chunker. *)
Theorem url_to_slug_idempotent (url : str) :
  url_to_slug (url_to_slug url) = url_to_slug url
  ∧ Crawl.url_to_slug url = url_to_slug url.
Proof.
  split; [|reflexivity].
  unfold url_to_slug at 1.
  rewrite (remove_all_absent (lit "https://") _ (ascii_of_nat 58));
    [|do 5 apply list_elem_of_further; apply list_elem_of_here
     |apply url_to_slug_no_colon].
  rewrite (remove_all_absent (lit "http://") _ (ascii_of_nat 58));
    [|do 4 apply list_elem_of_further; apply list_elem_of_here
     |apply url_to_slug_no_colon].
  rewrite sub_non_alnum_fixed by apply url_to_slug_charset.
  apply strip_by_fixed; apply (strip_by_ends is_underscore).
Qed.

Section BatchIds.

Implicit Types (doc : Document) (docs : list Document) (c : Chunk).

Lemma pretty_N_go_no_underscore (x : N) (s : string) :
  underscore ∉ lit s → underscore ∉ lit (pretty_N_go x s).
Proof.
  revert s. induction x as [x IH] using (well_founded_ind N.lt_wf_0). intros s Hs.
  assert (x = 0 ∨ 0 < x)%N as [->|Hx] by lia.
  - by rewrite pretty_N_go_0.
  - rewrite pretty_N_go_step by done. apply IH; [by apply N.div_lt|].
    unfold lit in *. simpl. apply not_elem_of_cons. split; [|done].
    unfold pretty_N_char. by repeat case_match.
Qed.

Lemma str_of_nat_no_underscore i : underscore ∉ str_of_nat i.
Proof.
  unfold str_of_nat, pretty, pretty_nat, pretty, pretty_N.
  destruct (decide _).
  - cbn. apply not_elem_of_cons. split; [done | apply not_elem_of_nil].
  - apply pretty_N_go_no_underscore. apply not_elem_of_nil.
Qed.

(** An id determines its slug and its index. *)
Lemma chunk_id_split (slug1 slug2 : str) i j :
  slug1 ++ [underscore] ++ str_of_nat i = slug2 ++ [underscore] ++ str_of_nat j →
  slug1 = slug2 ∧ i = j.
Proof.
  intros H. apply not_elem_of_app_cons_inv_r in H as (-> & _ & Hij);
    [|apply str_of_nat_no_underscore..].
  split; [done|]. by apply str_of_nat_inj.
Qed.

Lemma assemble_metadata doc slug bodies i c :
  assemble doc slug bodies !! i = Some c →
  chunk_metadata c = mkMetadata (doc_url doc) (doc_title doc) (doc_category doc) i.
Proof.
  unfold assemble. rewrite list_lookup_imap.
  destruct (bodies !! i) as [b|]; [|done]. simpl. by intros [= <-].
Qed.

(** Every chunk of a batch belongs to a document of the batch. *)
Lemma blocks_member fuel docs (blocks : list (list Chunk)) c :
  Forall2 (λ doc block, chunks_of_document doc block fuel) docs blocks →
  c ∈ concat blocks →
  ∃ doc bodies i,
    doc ∈ docs
    ∧ chunk_text fuel (doc_text doc) (doc_title doc)
        default_chunk_size default_overlap default_min_chunk_size = Some bodies
    ∧ assemble doc (url_to_slug (doc_url doc)) bodies !! i = Some c.
Proof.
  induction 1 as [|doc block docs blocks (bodies & Hrun & ->) _ IH]; simpl.
  - by intros ?%elem_of_nil.
  - intros [Hc|Hc]%elem_of_app.
    + apply list_elem_of_lookup_1 in Hc as [i Hi].
      exists doc, bodies, i. split; [by left|done].
    + destruct (IH Hc) as (doc' & bodies' & i & Hin & Hrun' & Hi).
      exists doc', bodies', i. split; [by right|done].
Qed.

Lemma chunk_text_member fuel text title chunk_size overlap min_chunk_size result r :
  chunk_text fuel text title chunk_size overlap min_chunk_size = Some result →
  r ∈ result →
  ∃ b : str, r = title ++ nn ++ strip b ∧ min_chunk_size ≤ len (strip b).
Proof.
  unfold chunk_text. intros Hrun Hr.
  destruct (segment _ _ _ _) as [chunks|]; [|done].
  simpl in Hrun. injection Hrun as <-.
  apply elem_of_retain in Hr as (b & _ & Hmin & ->). by exists b.
Qed.

End BatchIds.

(** X8. The chunk ids of a whole batch are pairwise distinct as soon as
    the slugs of the urls of its documents are: an id determines the
    slug and the index it was made of. *)
Theorem chunk_documents_ids_unique fuel (docs : list Document) (all : list Chunk) :
  chunk_documents fuel docs = Some all →
  NoDup ((λ doc, url_to_slug (doc_url doc)) <$> docs) →
  NoDup (chunk_id <$> all).
Proof.
  unfold chunk_documents. intros (blocks & -> & Hall)%chunk_documents_loop_blocks.
  simpl. induction Hall as [|doc block docs blocks (bodies & Hrun & ->) Hall IH];
    [constructor|].
  rewrite fmap_cons. intros [Hnew Hnd]%NoDup_cons. simpl.
  rewrite fmap_app. apply NoDup_app. split; [apply assemble_NoDup|].
  split; [|by apply IH].
  intros x (c & -> & [i Hi]%list_elem_of_lookup_1)%list_elem_of_fmap
         (c' & Heq & Hc')%list_elem_of_fmap.
  apply assemble_lookup in Hi as (Hid & _).
  destruct (blocks_member _ _ _ _ Hall Hc') as (doc' & bodies' & j & Hin & _ & Hj).
  apply assemble_lookup in Hj as (Hid' & _).
  rewrite Hid, Hid' in Heq. apply chunk_id_split in Heq as [Heq _].
  apply Hnew. rewrite Heq. by apply (list_elem_of_fmap_2 (λ doc, url_to_slug (doc_url doc))).
Qed.

Lemma chunk_documents_ids_unique_witness :
  let text := replicate 150 "a"%char in
  let docs := [mkDocument (lit "https://a.org/x") (lit "T") (lit "c") text;
               mkDocument (lit "https://a.org/y") (lit "T") (lit "c") text] in
  ∃ all, chunk_documents 150 docs = Some all ∧ NoDup (chunk_id <$> all).
Proof.
  intros text docs. eexists. split; [vm_compute; reflexivity|].
  apply (chunk_documents_ids_unique 150 docs); [vm_compute; reflexivity|].
  vm_compute. constructor; [|constructor; [apply not_elem_of_nil | constructor]].
  intros H. apply list_elem_of_singleton in H. discriminate H.
Defined.

(** Two urls that differ by the scheme only have the same slug, and
    then the same chunk ids. *)
Example chunk_ids_collide :
  let text := replicate 150 "a"%char in
  (λ chunks : list Chunk, chunk_id <$> chunks) <$>
    chunk_documents 150 [mkDocument (lit "https://a.org/x") (lit "T") (lit "c") text;
                         mkDocument (lit "http://a.org/x/") (lit "T") (lit "c") text]
  = Some [lit "a_org_x_0"; lit "a_org_x_0"].
Proof. vm_compute. reflexivity. Qed.

(* ===================================================================== *)
(** * From the chunker to the citations                                   *)
(* ===================================================================== *)

(** X9. A chunk of [chunk_documents] that comes back as a hit (same id,
    text and metadata) is cited by its body: the text starts with the
    title of its metadata and a blank line, the recovered text is the
    rest, the quote is that text unchanged and has at least
    [min_chunk_size] characters; the metadata is that of a document of
    the batch. *)
Theorem chunk_round_trip {distance : Type} fuel (docs : list Document)
    (all : list Chunk) (c : Chunk) (d : distance) :
  chunk_documents fuel docs = Some all → c ∈ all →
  chunk_body c
  = title (chunk_metadata c) ++ nn
    ++ recover_raw (mkHit (chunk_id c) (chunk_body c) (chunk_metadata c) d)
  ∧ quote_of (mkHit (chunk_id c) (chunk_body c) (chunk_metadata c) d)
    = recover_raw (mkHit (chunk_id c) (chunk_body c) (chunk_metadata c) d)
  ∧ default_min_chunk_size
    ≤ len (quote_of (mkHit (chunk_id c) (chunk_body c) (chunk_metadata c) d))
  ∧ ∃ doc, doc ∈ docs
           ∧ url (chunk_metadata c) = doc_url doc
           ∧ title (chunk_metadata c) = doc_title doc
           ∧ category (chunk_metadata c) = doc_category doc.
Proof.
  unfold chunk_documents. intros (blocks & -> & Hall)%chunk_documents_loop_blocks Hc.
  simpl in Hc.
  destruct (blocks_member _ _ _ _ Hall Hc) as (doc & bodies & i & Hdoc & Hrun & Hi).
  pose proof (assemble_metadata _ _ _ _ _ Hi) as Hmeta.
  apply assemble_lookup in Hi as (_ & _ & Hbody & _).
  apply list_elem_of_lookup_2 in Hbody.
  destruct (chunk_text_member _ _ _ _ _ _ _ _ Hrun Hbody) as (b & Hb & Hmin).
  assert (recover_raw (mkHit (chunk_id c) (chunk_body c) (chunk_metadata c) d)
          = strip b) as Hraw.
  { unfold recover_raw. cbn [hit_text hit_metadata]. rewrite Hmeta, Hb.
    cbn [title].
    assert (startswith (doc_title doc ++ nn ++ strip b) (doc_title doc ++ nn) = true)
      as -> by (apply startswith_spec; exists (strip b); by rewrite <- app_assoc).
    apply body_of_prepend. }
  unfold quote_of. rewrite Hraw, (strip_trimmed _ (strip_is_trimmed b)).
  rewrite Hmeta. cbn [title url category]. split; [done|]. split; [done|].
  split; [done|]. by exists doc.
Qed.

Lemma chunk_round_trip_witness :
  let text := replicate 150 "a"%char in
  let c := mkChunk (lit "a_org_x_0") (lit "T" ++ nn ++ text)
             (mkMetadata (lit "https://a.org/x") (lit "T") (lit "c") 0) in
  quote_of (mkHit (chunk_id c) (chunk_body c) (chunk_metadata c) 0%Z)
  = recover_raw (mkHit (chunk_id c) (chunk_body c) (chunk_metadata c) 0%Z).
Proof.
  intros text c.
  apply (chunk_round_trip 150
           [mkDocument (lit "https://a.org/x") (lit "T") (lit "c") text] [c] c 0%Z).
  - vm_compute. reflexivity.
  - apply list_elem_of_here.
Defined.

(* ===================================================================== *)
(** * Further properties of retrieve                                      *)
(* ===================================================================== *)

Section RetrieveMore.

Context {distance : Type}.

Implicit Types (h : Hit distance) (hits accepted out : list (Hit distance)) (u : str)
  (results : Results distance).

(** What the loop returns, on any arrays: rows, at most two per url, at
    most [max(top_k, 1)] and no more than one per id that is read. *)
Lemma dedupe_loop_rows results top_k i rest url_counts deduped out :
  drop i (ids results) = rest →
  (∀ u, default O (url_counts !! u) = url_count u deduped) →
  Forall (is_row results) deduped →
  (∀ u, url_count u deduped ≤ 2)%nat →
  Z.of_nat (length deduped) < Z.max 1 top_k →
  dedupe_loop results top_k i rest url_counts deduped = Some out →
  Forall (is_row results) out
  ∧ (∀ u, url_count u out ≤ 2)%nat
  ∧ Z.of_nat (length out) ≤ Z.max 1 top_k
  ∧ (length out ≤ length deduped + length rest)%nat.
Proof.
  revert i url_counts deduped.
  induction rest as [|doc_id rest IH];
    intros i url_counts deduped Hrest Hcounts Hrows Hcap Hlen; cbn [dedupe_loop].
  - intros [= <-]. repeat split; [done..|lia|lia].
  - assert (ids results !! i = Some doc_id) as Hi.
    { rewrite <- (Nat.add_0_r i), <- lookup_drop, Hrest. done. }
    assert (drop (S i) (ids results) = rest) as Hrest'.
    { rewrite <- (Nat.add_1_r i), <- drop_drop, Hrest. done. }
    destruct (metadatas results !! i) as [m|] eqn:Hm; [|done].
    cbn [mbind option_bind]. rewrite Hcounts.
    destruct (2 <=? url_count (url m) deduped)%nat eqn:E.
    + intros Hrun. destruct (IH _ _ _ Hrest' Hcounts Hrows Hcap Hlen Hrun)
        as (? & ? & ? & ?). repeat split; [done..|simpl; lia].
    + apply Nat.leb_gt in E.
      destruct (documents results !! i) as [d|] eqn:Hd; [|done].
      destruct (distances results !! i) as [x|] eqn:Hx; [|done].
      cbn [mbind option_bind]. set (h := mkHit doc_id d m x).
      assert (Forall (is_row results) (deduped ++ [h])) as Hrows'.
      { apply Forall_app. split; [done|]. apply Forall_singleton. by exists i. }
      assert (∀ u, url_count u (deduped ++ [h]) ≤ 2)%nat as Hcap'.
      { intros u. rewrite url_count_snoc. specialize (Hcap u).
        destruct (decide (hit_url h = u)) as [<-|]; [|lia].
        change (hit_url h) with (url m). lia. }
      destruct (top_k <=? Z.of_nat (length (deduped ++ [h]))) eqn:Ek.
      * intros [= <-]. rewrite length_app in *. simpl in *.
        repeat split; [done..|lia|lia].
      * apply Z.leb_gt in Ek. intros Hrun.
        destruct (IH (S i) (<[url m := S (url_count (url m) deduped)]> url_counts)
                    (deduped ++ [h])) as (? & ? & ? & Hl); [done| |done|done|lia|done|].
        { intros u. rewrite url_count_snoc.
          destruct (decide (hit_url h = u)) as [<-|Hne].
          - change (hit_url h) with (url m). rewrite lookup_insert_eq. simpl. lia.
          - change (hit_url h) with (url m) in Hne.
            rewrite lookup_insert_ne by done. rewrite Hcounts. lia. }
        rewrite length_app in Hl. simpl in *. repeat split; [done..|lia].
Qed.

(** [retrieve] on index-aligned arrays, in closed form. *)
Lemma retrieve_capped results top_k :
  aligned results →
  retrieve results top_k
  = Some (take (Z.to_nat (Z.max 1 top_k)) (cap_per_url [] (hits_of results))).
Proof.
  intros Hal. unfold retrieve. destruct (ids results) as [|a l] eqn:Hids.
  - cbn [truthy]. unfold hits_of. rewrite Hids. simpl. by rewrite take_nil.
  - cbn [truthy]. rewrite <- Hids.
    rewrite (dedupe_loop_capped results top_k 0 (ids results) ∅ []); try done.
    simpl. lia.
Qed.

Lemma hits_with_app u hits1 hits2 :
  hits_with u (hits1 ++ hits2) = hits_with u hits1 ++ hits_with u hits2.
Proof. apply filter_app. Qed.

(** The capped list keeps the first two hits of every url. *)
Lemma cap_per_url_first_two u accepted hits :
  (∀ v, url_count v accepted ≤ 2)%nat →
  hits_with u (cap_per_url accepted hits)
  = take 2 (hits_with u accepted ++ hits_with u hits).
Proof.
  revert accepted. induction hits as [|h rest IH]; intros accepted Hcap; simpl.
  - unfold hits_with at 3. rewrite filter_nil, app_nil_r, take_ge; [done|apply Hcap].
  - change (h :: rest) with ([h] ++ rest). rewrite (hits_with_app u [h]).
    destruct (decide (url_count (hit_url h) accepted < 2)%nat) as [Hlt|Hge].
    + rewrite IH, hits_with_app, <- app_assoc; [done|].
      intros v. rewrite url_count_snoc. specialize (Hcap v).
      destruct (decide (hit_url h = v)) as [<-|]; lia.
    + rewrite IH by done. unfold hits_with at 4. rewrite filter_cons, filter_nil.
      destruct (decide (hit_url h = u)) as [<-|]; [|done].
      assert (length (hits_with (hit_url h) accepted) = 2%nat) as Hlen.
      { specialize (Hcap (hit_url h)). unfold url_count in *. lia. }
      rewrite !take_app_le by lia. done.
Qed.

Lemma first_seen_length (urls : list str) :
  (length (first_seen urls) ≤ length urls)%nat.
Proof.
  induction urls as [|u rest IH]; simpl; [lia|].
  pose proof (length_filter (λ v, v ≠ u) (first_seen rest)). lia.
Qed.

End RetrieveMore.

(** X10. Whatever the four arrays (aligned or not), when [retrieve]
    returns, every hit is a row: its id, text, metadata and distance
    come from one common index; there are at most 2 hits per url, at
    most [max(top_k, 1)] hits and no more hits than ids. *)
Theorem retrieve_rows {distance : Type} (results : Results distance) (top_k : Z)
    (out : list (Hit distance)) :
  retrieve results top_k = Some out →
  Forall (is_row results) out
  ∧ (∀ u, url_count u out ≤ 2)%nat
  ∧ Z.of_nat (length out) ≤ Z.max 1 top_k
  ∧ (length out ≤ length (ids results))%nat.
Proof.
  unfold retrieve. destruct (truthy (ids results)).
  - intros Hrun.
    apply (dedupe_loop_rows results top_k 0 (ids results) ∅ [] out) in Hrun;
      [done|done|done|constructor| |simpl; lia].
    intros u. unfold url_count, hits_with. rewrite filter_nil. simpl. lia.
  - intros [= <-]. repeat split; [constructor| |simpl; lia|simpl; lia].
    intros u. unfold url_count, hits_with. rewrite filter_nil. simpl. lia.
Qed.

Lemma retrieve_rows_witness :
  let m := mkMetadata (lit "a") (lit "T") (lit "c") 0 in
  let results := mkResults [lit "a_0"; lit "a_1"] [lit "x"] [m] [1%Z; 2%Z; 3%Z] in
  let out := [mkHit (lit "a_0") (lit "x") m 1%Z] in
  retrieve results 1 = Some out ∧ Forall (is_row results) out.
Proof.
  intros m results out. split; [reflexivity|].
  apply (retrieve_rows results 1 out). reflexivity.
Defined.

(** X11. On index-aligned arrays the hits that [retrieve] returns for a
    url are the first hits of that url, at most two, in their order;
    when fewer than [top_k] hits are returned, they are exactly the
    first two hits of every url (all of them for a url with fewer). *)
Theorem retrieve_first_two {distance : Type} (results : Results distance) (top_k : Z) :
  aligned results →
  ∃ out,
    retrieve results top_k = Some out
    ∧ (∀ u, hits_with u out `prefix_of` take 2 (hits_with u (hits_of results)))
    ∧ (Z.of_nat (length out) < top_k →
       ∀ u, hits_with u out = take 2 (hits_with u (hits_of results))).
Proof.
  intros Hal. eexists. split; [by apply retrieve_capped|].
  assert (∀ u, hits_with u (cap_per_url [] (hits_of results))
               = take 2 (hits_with u (hits_of results))) as Hcap.
  { intros u. rewrite cap_per_url_first_two; [done|].
    intros v. unfold url_count, hits_with. rewrite filter_nil. simpl. lia. }
  split.
  - intros u. rewrite <- Hcap.
    rewrite <- (take_drop (Z.to_nat (Z.max 1 top_k))
                 (cap_per_url [] (hits_of results))) at 2.
    rewrite hits_with_app. by apply prefix_app_r.
  - intros Hlen u. rewrite <- Hcap. f_equal. apply take_ge.
    rewrite length_take in Hlen. lia.
Qed.

Lemma retrieve_first_two_witness :
  let m := mkMetadata (lit "a") (lit "T") (lit "c") 0 in
  let results := mkResults [lit "a_0"; lit "a_1"; lit "a_2"] [lit "x"; lit "y"; lit "z"]
                   [m; m; m] [1%Z; 2%Z; 3%Z] in
  ∃ out, retrieve results 6 = Some out
         ∧ hits_with (lit "a") out `prefix_of` take 2 (hits_with (lit "a") (hits_of results)).
Proof.
  intros m results.
  destruct (retrieve_first_two results 6) as (out & Hrun & Hpre & _).
  - repeat split.
  - exists out. split; [done | apply Hpre].
Defined.

(* ===================================================================== *)
(** * generate and query                                                  *)
(* ===================================================================== *)

Section GenerateFacts.

Context {distance : Type}.

Implicit Types (question : str) (contexts : list (Hit distance))
  (history : list (gmap str str)) (msg : gmap str str).

Lemma history_contents_last_six (chat_history : option (list (gmap str str))) :
  Prompt.history_contents chat_history
  = mapM Prompt.history_content (last_six (default [] chat_history)).
Proof. by destruct chat_history as [[|msg history]|]. Qed.

Lemma last_six_length {A} (l : list A) : length (last_six l) = (6 `min` length l)%nat.
Proof. unfold last_six. rewrite length_drop. lia. Qed.

(** Only the last six messages count. *)
Lemma last_six_app {A} (older recent : list A) :
  length recent = 6%nat → last_six (older ++ recent) = recent.
Proof.
  intros Hlen. unfold last_six. rewrite length_app, Hlen.
  replace (length older + 6 - 6)%nat with (length older) by lia.
  apply drop_app_length.
Qed.

Lemma history_content_role msg c :
  Prompt.history_content msg = Some c →
  ∃ text, msg !! lit "content" = Some text
          ∧ Prompt.parts c = [text]
          ∧ (Prompt.role c = lit "user" ∨ Prompt.role c = lit "model")
          ∧ (Prompt.role c = lit "user" ↔ msg !! lit "role" = Some (lit "user")).
Proof.
  unfold Prompt.history_content.
  destruct (msg !! lit "content") as [text|]; [|done]. simpl. intros [= <-].
  exists text. simpl. split; [done|]. split; [done|].
  destruct (decide _); split; auto; split; try done.
Qed.

End GenerateFacts.

(** X12. The contents that [generate] hands to the model: when they are
    built, they are the last six messages of the history at most, in
    order, each with its content as text and the role ["user"] for a
    message whose role is ["user"] and ["model"] for any other or
    missing role, followed by one ["user"] message that holds the
    context block and the question; building them fails exactly when
    one of the last six messages has no content, and older messages are
    never read. *)
Theorem build_contents_history {distance : Type} (question : str)
    (contexts : list (Hit distance)) (chat_history : option (list (gmap str str))) :
  (∀ contents,
     Prompt.build_contents question contexts chat_history = Some contents →
     ∃ past,
       contents
       = past ++ [Prompt.mkContent (lit "user")
                    [Prompt.user_message question contexts]]
       ∧ length past = (6 `min` length (default [] chat_history))%nat
       ∧ Forall2 (λ msg c,
                    ∃ text, msg !! lit "content" = Some text
                            ∧ Prompt.parts c = [text]
                            ∧ (Prompt.role c = lit "user" ∨ Prompt.role c = lit "model")
                            ∧ (Prompt.role c = lit "user"
                               ↔ msg !! lit "role" = Some (lit "user")))
           (last_six (default [] chat_history)) past)
  ∧ (Prompt.build_contents question contexts chat_history = None
     ↔ ∃ msg, msg ∈ last_six (default [] chat_history)
              ∧ msg !! lit "content" = None)
  ∧ (∀ older recent,
       length recent = 6%nat →
       Prompt.build_contents question contexts (Some (older ++ recent))
       = Prompt.build_contents question contexts (Some recent)).
Proof.
  unfold Prompt.build_contents. split; [|split].
  - intros contents. rewrite history_contents_last_six.
    destruct (mapM _ _) as [past|] eqn:Hpast; [|done]. simpl. intros [= <-].
    exists past. split; [done|]. apply mapM_Some in Hpast.
    split; [by rewrite <- (Forall2_length _ _ _ Hpast), last_six_length|].
    eapply Forall2_impl; [done|]. intros msg c. apply history_content_role.
  - rewrite history_contents_last_six.
    destruct (mapM _ _) as [past|] eqn:Hpast; cbn [mbind option_bind].
    + split; [done|]. intros (msg & Hin & Hnone).
      apply mapM_Some in Hpast.
      apply list_elem_of_lookup_1 in Hin as [i Hi].
      destruct (Forall2_lookup_l _ _ _ _ _ Hpast Hi) as (c & _ & Hc).
      unfold Prompt.history_content in Hc. rewrite Hnone in Hc. done.
    + split; [|done]. intros _. apply mapM_None in Hpast.
      apply Exists_exists in Hpast as (msg & Hin & Hnone). exists msg.
      split; [done|]. unfold Prompt.history_content in Hnone.
      by destruct (msg !! lit "content").
  - intros older recent Hlen. rewrite !history_contents_last_six. simpl.
    rewrite last_six_app by done.
    unfold last_six. rewrite Hlen. done.
Qed.

Lemma build_contents_history_witness :
  let old : gmap str str := {[ lit "role" := lit "user" ]} in
  let msg : gmap str str :=
    {[ lit "role" := lit "assistant"; lit "content" := lit "hi" ]} in
  Prompt.build_contents (distance := Z) (lit "q") [] (Some ([old] ++ replicate 6 msg))
  = Prompt.build_contents (distance := Z) (lit "q") [] (Some (replicate 6 msg)).
Proof.
  intros old msg.
  apply (build_contents_history (distance := Z) (lit "q") [] None). reflexivity.
Defined.

(** The roles of the history: ["assistant"] becomes ["model"]. *)
Example build_contents_roles :
  let user : gmap str str := {[ lit "role" := lit "user"; lit "content" := lit "a" ]} in
  let bot : gmap str str :=
    {[ lit "role" := lit "assistant"; lit "content" := lit "b" ]} in
  (λ contents : list Prompt.Content,
     (λ c, (Prompt.role c, Prompt.parts c)) <$> contents)
    <$> Prompt.build_contents (distance := Z) (lit "q") [] (Some [user; bot])
  = Some [(lit "user", [lit "a"]); (lit "model", [lit "b"]);
          (lit "user", [Prompt.user_message (distance := Z) (lit "q") []])].
Proof. vm_compute. reflexivity. Qed.

Section QueryFacts.

Context {distance : Type}.

Implicit Types (results : Results distance) (contexts : list (Hit distance)).

(** The contexts of [query]: the first six hits of the capped list. *)
Lemma rows_nonempty results :
  aligned results → ids results ≠ [] →
  ∃ h rest, hits_of results = h :: rest.
Proof.
  intros (Hd & Hm & Hx) Hne. unfold hits_of.
  destruct (ids results) as [|a l]; [done|].
  destruct (documents results) as [|d ds]; [done|].
  destruct (metadatas results) as [|m ms]; [done|].
  destruct (distances results) as [|x xs]; [done|].
  simpl. by eexists _, _.
Qed.

Lemma query_contexts_nonempty results :
  aligned results → ids results ≠ [] →
  ∃ h rest, take 6 (cap_per_url [] (hits_of results)) = h :: rest.
Proof.
  intros Hal Hne. destruct (rows_nonempty results Hal Hne) as (h & rest & ->).
  cbn [cap_per_url]. rewrite decide_True.
  - destruct (cap_per_url_extends ([] ++ [h]) rest) as (more & -> & _).
    simpl. by eexists _, _.
  - unfold url_count, hits_with. rewrite filter_nil. simpl. lia.
Qed.

Lemma aggregate_quotes_bound contexts s :
  (∀ u, url_count u contexts ≤ 2)%nat →
  s ∈ aggregate contexts →
  (1 ≤ length (quotes s) ≤ 2)%nat.
Proof.
  intros Hcap (h & more & Hw & ->)%aggregate_member. cbn [source_url quotes] in *.
  specialize (Hcap (hit_url h)). unfold url_count in Hcap. rewrite Hw in Hcap.
  rewrite length_fmap. simpl in *. lia.
Qed.

End QueryFacts.

(** X13. [query] on index-aligned arrays. Without any row it returns
    the fixed answer and no source, and the history is not read. With
    rows, it fails exactly when the contents for the model cannot be
    built (a message without content among the last six); otherwise the
    answer is the response to those contents, and there are between one
    and six sources, each with one or two quotes, six quotes at most in
    total. *)
Theorem query_citations {distance : Type} (results : Results distance)
    (llm : list Prompt.Content → str) (question : str)
    (chat_history : option (list (gmap str str))) :
  aligned results →
  (ids results = [] →
   Prompt.query results llm question chat_history
   = Some (Prompt.no_context_answer, []))
  ∧ (ids results ≠ [] →
     (Prompt.query results llm question chat_history = None
      ↔ Prompt.build_contents question
          (take 6 (cap_per_url [] (hits_of results))) chat_history = None)
     ∧ ∀ answer sources,
         Prompt.query results llm question chat_history = Some (answer, sources) →
         (∃ contents,
            Prompt.build_contents question
              (take 6 (cap_per_url [] (hits_of results))) chat_history = Some contents
            ∧ answer = llm contents)
         ∧ (1 ≤ length sources ≤ 6)%nat
         ∧ Forall (λ s, 1 ≤ length (quotes s) ≤ 2)%nat sources
         ∧ (total_quotes sources ≤ 6)%nat).
Proof.
  intros Hal. unfold Prompt.query. rewrite (retrieve_capped results 6 Hal).
  cbn [mbind option_bind]. change (Z.to_nat (Z.max 1 6)) with 6%nat.
  split.
  - intros Hids. unfold hits_of. rewrite Hids. done.
  - intros Hne.
    destruct (query_contexts_nonempty results Hal Hne) as (h & rest & Hctx).
    set (contexts := take 6 (cap_per_url [] (hits_of results))) in *.
    assert (sources_loop contexts [] ∅ = Some (aggregate contexts)) as Hloop.
    { apply (sources_loop_aggregate [] contexts). intros u i. by rewrite lookup_empty. }
    assert (length contexts ≤ 6)%nat as Hlen.
    { unfold contexts. rewrite length_take. lia. }
    assert (truthy contexts = true) as -> by (by rewrite Hctx).
    rewrite Hloop. unfold Prompt.generate.
    destruct (Prompt.build_contents question contexts chat_history) as [contents|];
      cbn [mbind option_bind]; split; try done.
    intros answer sources [= <- <-].
    split; [by exists contents|].
    assert (∀ u, url_count u contexts ≤ 2)%nat as Hcap.
    { intros u. unfold contexts. etrans; [apply url_count_take|].
      apply cap_per_url_count. intros v. unfold url_count, hits_with.
      rewrite filter_nil. simpl. lia. }
    split; [|split].
    + split; [rewrite Hctx; simpl; lia|].
      rewrite <- (length_fmap source_url), aggregate_urls.
      etrans; [apply first_seen_length|]. by rewrite length_fmap.
    + apply Forall_forall. intros s Hs. by apply (aggregate_quotes_bound contexts).
    + apply sources_loop_total in Hloop. simpl in Hloop. lia.
Qed.

Lemma query_citations_witness :
  let m := mkMetadata (lit "a") (lit "T") (lit "c") 0 in
  let results := mkResults [lit "a_0"; lit "a_1"; lit "a_2"] [lit "x"; lit "y"; lit "z"]
                   [m; m; m] [1%Z; 2%Z; 3%Z] in
  Prompt.query (mkResults [] [] [] ([] : list Z)) (λ _, lit "answer") (lit "q")
    (Some [∅])
  = Some (Prompt.no_context_answer, [])
  ∧ ∀ answer sources,
      Prompt.query results (λ _, lit "answer") (lit "q") None = Some (answer, sources) →
      (total_quotes sources ≤ 6)%nat.
Proof.
  intros m results. split.
  - apply (query_citations (mkResults [] [] [] ([] : list Z))); [repeat split | reflexivity].
  - intros answer sources Hrun.
    destruct (query_citations results (λ _, lit "answer") (lit "q") None) as [_ Hrows];
      [repeat split|].
    destruct Hrows as [_ Hsome]; [done|].
    by destruct (Hsome answer sources Hrun) as (_ & _ & _ & ?).
Defined.

(** One page with three hits: a single source with two quotes. *)
Example query_one_page :
  let m := mkMetadata (lit "a") (lit "T") (lit "c") 0 in
  let results : Results Z :=
    mkResults [lit "a_0"; lit "a_1"; lit "a_2"]
      [lit "T" ++ nn ++ lit "x"; lit "T" ++ nn ++ lit "y"; lit "T" ++ nn ++ lit "z"]
      [m; m; m] [1%Z; 2%Z; 3%Z] in
  Prompt.query results (λ _, lit "answer") (lit "q") None
  = Some (lit "answer",
          [mkSource (lit "a") (lit "T") (lit "c") (lit "x") [lit "x"; lit "y"]]).
Proof. vm_compute. reflexivity. Qed.

(* ===================================================================== *)
(** * Batches: [range(0, n, step)] and the slices [l[i : i + step]]       *)
(* ===================================================================== *)

Section BatchFacts.

Context {A : Type}.

Implicit Types (l : list A) (n step q k i : nat).

Lemma ceil_bounds n step :
  (0 < step)%nat →
  (n ≤ (n + step - 1) / step * step)%nat
  ∧ ∀ k, (k < (n + step - 1) / step)%nat → (k * step < n)%nat.
Proof.
  intros Hstep.
  pose proof (Nat.div_mod_eq (n + step - 1) step) as Hdm.
  pose proof (Nat.mod_upper_bound (n + step - 1) step ltac:(lia)) as Hr.
  set (q := ((n + step - 1) / step)%nat) in *.
  set (r := ((n + step - 1) mod step)%nat) in *.
  split; [nia|]. intros k Hk. nia.
Qed.

Lemma range_step_length n step :
  length (range_step n step) = ((n + step - 1) / step)%nat.
Proof. unfold range_step. by rewrite length_fmap, length_seq. Qed.

Lemma range_step_lookup n step k i :
  range_step n step !! k = Some i ↔
  i = (k * step)%nat ∧ (k < (n + step - 1) / step)%nat.
Proof.
  unfold range_step. rewrite list_lookup_fmap. split.
  - destruct (seq _ _ !! k) as [j|] eqn:Hj; [|done].
    apply lookup_seq in Hj as [-> Hlt]. simpl. intros [= <-]. done.
  - intros [-> Hk]. by rewrite (lookup_seq_lt _ _ _ Hk).
Qed.

Lemma range_step_elem n step i :
  (0 < step)%nat → i ∈ range_step n step →
  ∃ k, i = (k * step)%nat ∧ (i < n)%nat
       ∧ range_step n step !! k = Some i.
Proof.
  intros Hstep (k & Hk)%list_elem_of_lookup_1.
  pose proof Hk as [-> Hlt]%range_step_lookup.
  exists k. split; [done|]. split; [|done].
  by apply (ceil_bounds n step Hstep).
Qed.

Lemma window_length step l i :
  length (window step l i) = Nat.min step (length l - i).
Proof. unfold window. by rewrite length_take, length_drop. Qed.

Lemma windows_concat step l q :
  (length l ≤ q * step)%nat →
  concat ((λ k, window step l (k * step)) <$> seq 0 q) = l.
Proof.
  revert l. induction q as [|q IH]; intros l Hlen.
  - destruct l; simpl in *; [done|lia].
  - cbn [seq]. rewrite <- fmap_S_seq, fmap_cons, <- list_fmap_compose.
    cbn [concat]. unfold window at 1. rewrite Nat.mul_0_l, drop_0.
    rewrite (list_fmap_ext _ (λ k, window step (drop step l) (k * step)) (seq 0 q)).
    + rewrite IH; [apply take_drop|]. rewrite length_drop. lia.
    + intros _ k _. unfold compose, window. by rewrite drop_drop.
Qed.

Lemma batches_concat step l :
  (0 < step)%nat →
  concat (window step l <$> range_step (length l) step) = l.
Proof.
  intros Hstep. unfold range_step. rewrite <- list_fmap_compose.
  apply windows_concat. by apply ceil_bounds.
Qed.

Lemma window_fmap {B} (f : A → B) step l i :
  window step (f <$> l) i = f <$> window step l i.
Proof. unfold window. by rewrite fmap_take, fmap_drop. Qed.

(** A batch is never empty, and only the last one can be short. *)
Lemma batch_size n step l k i :
  (0 < step)%nat →
  range_step (length l) step !! k = Some i →
  (1 ≤ length (window step l i) ≤ step)%nat
  ∧ ((S k < length (range_step (length l) step))%nat →
     length (window step l i) = step).
Proof.
  intros Hstep [-> Hk]%range_step_lookup. rewrite window_length, range_step_length.
  destruct (ceil_bounds (length l) step Hstep) as [_ Hlt].
  pose proof (Hlt k Hk). split; [lia|].
  intros HS. specialize (Hlt (S k) HS). lia.
Qed.

End BatchFacts.

(* ===================================================================== *)
(** * embed.py: the batches of [embed_and_store]                          *)
(* ===================================================================== *)

(** X14. [embed_and_store] hands every chunk to the store exactly once
    and in order: the ids, the documents and the metadata of the
    successive [upsert] calls, put end to end, are those of the chunks.
    There are ceil(n / 100) calls; none is empty, each carries at most
    100 chunks and exactly 100 unless it is the last one, and in each
    call the four arrays have the same number of documents, the
    embeddings being those of the documents of that call. *)
Theorem upserts_cover {embedding : Type} (encode : list str → list embedding)
    (chunks : list Chunk) :
  let calls := Embed.upserts encode chunks in
  concat (Embed.up_ids <$> calls) = chunk_id <$> chunks
  ∧ concat (Embed.up_documents <$> calls) = chunk_body <$> chunks
  ∧ concat (Embed.up_metadatas <$> calls) = chunk_metadata <$> chunks
  ∧ length calls = ((length chunks + 99) / 100)%nat
  ∧ ∀ k u, calls !! k = Some u →
      (1 ≤ length (Embed.up_ids u) ≤ 100)%nat
      ∧ length (Embed.up_documents u) = length (Embed.up_ids u)
      ∧ length (Embed.up_metadatas u) = length (Embed.up_ids u)
      ∧ Embed.up_embeddings u = encode (Embed.up_documents u)
      ∧ ((S k < length calls)%nat → length (Embed.up_ids u) = 100%nat).
Proof.
  cbn zeta. unfold Embed.upserts.
  assert (∀ {B} (f : Chunk → B) (g : Embed.Upsert → list B),
            (∀ i, g (Embed.upsert_at encode chunks i)
                  = f <$> window Embed.BATCH_SIZE chunks i) →
            concat (g <$> (Embed.upsert_at encode chunks
                           <$> range_step (length chunks) Embed.BATCH_SIZE))
            = f <$> chunks) as Hcat.
  { intros B f g Hg. rewrite <- list_fmap_compose.
    rewrite (list_fmap_ext _ (window Embed.BATCH_SIZE (f <$> chunks))
               (range_step (length chunks) Embed.BATCH_SIZE)).
    - rewrite <- (length_fmap f chunks). apply batches_concat. unfold Embed.BATCH_SIZE. lia.
    - intros _ i _. unfold compose. by rewrite Hg, window_fmap. }
  split; [by apply Hcat|]. split; [by apply Hcat|]. split; [by apply Hcat|].
  split.
  - rewrite length_fmap, range_step_length. unfold Embed.BATCH_SIZE.
    f_equal. lia.
  - intros k u. rewrite list_lookup_fmap, length_fmap.
    destruct (range_step _ _ !! k) as [i|] eqn:Hi; [|done].
    simpl. intros [= <-]. cbn [Embed.upsert_at Embed.up_ids Embed.up_documents
      Embed.up_metadatas Embed.up_embeddings]. rewrite !length_fmap.
    destruct (batch_size (length chunks) Embed.BATCH_SIZE chunks k i) as [Hsz Hfull];
      [unfold Embed.BATCH_SIZE; lia|done|].
    unfold Embed.BATCH_SIZE in *. done.
Qed.

Lemma upserts_cover_witness :
  let chunks :=
    (λ i, mkChunk (str_of_nat i) (lit "text") (mkMetadata [] [] [] i)) <$> seq 0 250 in
  let calls := Embed.upserts (λ texts, length <$> texts) chunks in
  length calls = 3%nat
  ∧ concat (Embed.up_ids <$> calls) = chunk_id <$> chunks.
Proof.
  intros chunks calls.
  destruct (upserts_cover (λ texts, length <$> texts) chunks) as (Hids & _ & _ & Hlen & _).
  split; [|exact Hids]. fold calls in Hlen. rewrite Hlen. reflexivity.
Defined.

(** 250 chunks go to the store in three calls of 100, 100 and 50. *)
Example upserts_sizes :
  let chunk i := mkChunk (str_of_nat i) (lit "text") (mkMetadata [] [] [] i) in
  (λ u, length (Embed.up_ids u)) <$> Embed.upserts (λ texts, length <$> texts) (chunk <$> seq 0 250)
  = [100; 100; 50]%nat.
Proof. vm_compute. reflexivity. Qed.

(* ===================================================================== *)
(** * crawl.py                                                            *)
(* ===================================================================== *)

Section CrawlFacts.

Implicit Types (success : nat → bool) (urls : list str) (p : Crawl.Progress)
  (rs : list (str * bool)).

Lemma urls_with_app flag rs1 rs2 :
  urls_with flag (rs1 ++ rs2) = urls_with flag rs1 ++ urls_with flag rs2.
Proof. unfold urls_with. by rewrite filter_app, fmap_app. Qed.

Lemma foldl_record_result p rs :
  foldl Crawl.record_result p rs
  = Crawl.mkProgress (Crawl.downloaded p ++ urls_with true rs)
      (Crawl.failed p ++ urls_with false rs) (Crawl.sleeps p).
Proof.
  revert p. induction rs as [|[u [|]] rs IH]; intros p.
  - destruct p. unfold urls_with. simpl. by rewrite !app_nil_r.
  - cbn [foldl Crawl.record_result]. rewrite IH.
    cbn [Crawl.downloaded Crawl.failed Crawl.sleeps].
    rewrite <- (app_assoc _ [u]). done.
  - cbn [foldl Crawl.record_result]. rewrite IH.
    cbn [Crawl.downloaded Crawl.failed Crawl.sleeps].
    rewrite <- (app_assoc _ [u]). done.
Qed.

Lemma outcomes_urls success urls : (outcomes success urls).*1 = urls.
Proof.
  apply list_eq. intros i. unfold outcomes.
  rewrite list_lookup_fmap, list_lookup_imap. by destruct (urls !! i).
Qed.

Lemma outcomes_length success urls : length (outcomes success urls) = length urls.
Proof. unfold outcomes. apply length_imap. Qed.

(** The results of a batch are a slice of the results of the crawl. *)
Lemma batch_results success urls step i :
  imap (λ j url, (url, success (i + j)%nat)) (window step urls i)
  = window step (outcomes success urls) i.
Proof.
  apply list_eq. intros j. unfold window, outcomes. rewrite list_lookup_imap.
  destruct (decide (j < step)%nat) as [Hlt|Hge].
  - rewrite !lookup_take_lt, !lookup_drop, list_lookup_imap by done. done.
  - rewrite !lookup_take_ge by lia. done.
Qed.

Lemma urls_with_partition rs :
  urls_with true rs ++ urls_with false rs ≡ₚ rs.*1.
Proof.
  unfold urls_with. rewrite <- fmap_app. apply fmap_Permutation.
  induction rs as [|[u [|]] rs IH].
  - done.
  - rewrite !filter_cons. simpl. by rewrite IH.
  - rewrite !filter_cons. simpl. by rewrite <- Permutation_middle, IH.
Qed.

Lemma crawl_loop_prefix success urls q :
  (q ≤ (length urls + Crawl.CONCURRENCY - 1) / Crawl.CONCURRENCY)%nat →
  foldl (Crawl.crawl_batch success urls) (Crawl.mkProgress [] [] 0)
    ((λ k, k * Crawl.CONCURRENCY)%nat <$> seq 0 q)
  = Crawl.mkProgress
      (urls_with true (take (q * Crawl.CONCURRENCY) (outcomes success urls)))
      (urls_with false (take (q * Crawl.CONCURRENCY) (outcomes success urls)))
      (Nat.min q ((length urls + Crawl.CONCURRENCY - 1) / Crawl.CONCURRENCY - 1)).
Proof.
  assert (0 < Crawl.CONCURRENCY)%nat as Hpos by (unfold Crawl.CONCURRENCY; lia).
  destruct (ceil_bounds (length urls) Crawl.CONCURRENCY Hpos) as [Hup Hlow].
  set (Q := ((length urls + Crawl.CONCURRENCY - 1) / Crawl.CONCURRENCY)%nat) in *.
  induction q as [|q IH]; intros Hq; [done|].
  rewrite seq_S, fmap_app, foldl_app, IH by lia.
  cbn [fmap list_fmap foldl plus]. unfold Crawl.crawl_batch.
  rewrite batch_results, foldl_record_result.
  cbn [Crawl.downloaded Crawl.failed Crawl.sleeps].
  rewrite <- !urls_with_app.
  unfold window. rewrite take_take_drop.
  replace (q * Crawl.CONCURRENCY + Crawl.CONCURRENCY)%nat
    with (S q * Crawl.CONCURRENCY)%nat by lia.
  destruct (Nat.ltb_spec (S q * Crawl.CONCURRENCY) (length urls)) as [Hlt|Hge].
  - f_equal. destruct (decide (S q < Q)%nat) as [?|Hlast]; [lia|].
    assert (S q = Q) as HQ by lia. rewrite HQ in Hlt. lia.
  - f_equal. destruct (decide (S q < Q)%nat) as [Hin|?]; [|lia].
    specialize (Hlow (S q) Hin). lia.
Qed.

End CrawlFacts.

(** X15. The bookkeeping of [crawl], whatever the outcome of each
    download: [downloaded] holds the urls whose download succeeded and
    [failed] the others, each in the order of the sitemap, so together
    they are a rearrangement of the sitemap; and the crawl pauses once
    between two consecutive batches of five, not after the last one. *)
Theorem crawl_loop_partition (success : nat → bool) (urls : list str) :
  let p := Crawl.crawl_loop success urls in
  Crawl.downloaded p = urls_with true (outcomes success urls)
  ∧ Crawl.failed p = urls_with false (outcomes success urls)
  ∧ Crawl.downloaded p ++ Crawl.failed p ≡ₚ urls
  ∧ Crawl.sleeps p = ((length urls - 1) / 5)%nat.
Proof.
  cbn zeta. unfold Crawl.crawl_loop, range_step.
  rewrite crawl_loop_prefix by done.
  assert (0 < Crawl.CONCURRENCY)%nat as Hpos by (unfold Crawl.CONCURRENCY; lia).
  destruct (ceil_bounds (length urls) Crawl.CONCURRENCY Hpos) as [Hup _].
  rewrite take_ge by (by rewrite outcomes_length).
  cbn [Crawl.downloaded Crawl.failed Crawl.sleeps].
  split; [done|]. split; [done|]. split.
  - by rewrite urls_with_partition, outcomes_urls.
  - unfold Crawl.CONCURRENCY in *.
    pose proof (Nat.div_mod_eq (length urls + 5 - 1) 5).
    pose proof (Nat.mod_upper_bound (length urls + 5 - 1) 5 ltac:(lia)).
    pose proof (Nat.div_mod_eq (length urls - 1) 5).
    pose proof (Nat.mod_upper_bound (length urls - 1) 5 ltac:(lia)).
    lia.
Qed.

(** Twelve pages, the third of which fails: three batches, two pauses. *)
Example crawl_twelve_pages :
  let urls := (λ i, lit "https://h/" ++ str_of_nat i) <$> seq 0 12 in
  let p := Crawl.crawl_loop (λ n, negb (n =? 2)%nat) urls in
  (length (Crawl.downloaded p), Crawl.failed p, Crawl.sleeps p)
  = (11%nat, [lit "https://h/2"], 2%nat).
Proof. vm_compute. reflexivity. Qed.

Section DownloadFacts.

Implicit Types (files : gmap str str) (url dest : str).

(** A call that finds the file of the page. *)
Lemma download_page_found stat_raises fetch write_text files url :
  stat_raises (Crawl.url_to_slug url ++ lit ".html") = false →
  is_Some (files !! (Crawl.url_to_slug url ++ lit ".html")) →
  Crawl.download_page stat_raises fetch write_text files url
  = (Crawl.Returned true, files).
Proof.
  intros Hstat Hex. unfold Crawl.download_page. rewrite Hstat.
  by rewrite decide_True.
Qed.

Lemma insert_new_file files dest text :
  files !! dest = None →
  files ⊆ <[dest := text]> files
  ∧ ∀ name, name ≠ dest → <[dest := text]> files !! name = files !! name.
Proof.
  intros Hno. split; [by apply insert_subseteq|].
  intros name Hname. by rewrite lookup_insert_ne.
Qed.

End DownloadFacts.

(** X16. One call of [download_page] on the files of the download
    directory, whatever the test of the file, the request and the write
    do. No file is removed or rewritten, and no file but the one of the
    page is touched. When the test of the file raises, the exception
    leaves the call and the directory is as it was. When the call
    reports success the file of the page exists afterwards. When it
    reports a failure there was no such file, and either the request
    raised an [Exception] and the directory is as it was, or the write
    did, possibly leaving a file behind. An exception leaves the call
    only from the test of the file, or from a request or a write that
    raises something that is not an [Exception]. Once the file of the
    page exists, whether the call reported success or a failed write
    left it there, a later call for any url with the same slug whose
    test of the file answers reports success without a request or a
    write and leaves the directory as it is. *)
Theorem download_page_cache (stat_raises : str → bool) (fetch : str → str + Crawl.Raise)
    (write_text : str → str → Crawl.Write) (files : gmap str str) (url : str)
    (outcome : Crawl.Download) (files' : gmap str str) :
  Crawl.download_page stat_raises fetch write_text files url = (outcome, files') →
  files ⊆ files'
  ∧ (∀ name, name ≠ Crawl.url_to_slug url ++ lit ".html" →
       files' !! name = files !! name)
  ∧ (stat_raises (Crawl.url_to_slug url ++ lit ".html") = true →
     outcome = Crawl.Raised ∧ files' = files)
  ∧ (outcome = Crawl.Returned true →
     is_Some (files' !! (Crawl.url_to_slug url ++ lit ".html")))
  ∧ (∀ raised,
       outcome = match raised with
                 | Crawl.Caught => Crawl.Returned false
                 | Crawl.Uncaught => Crawl.Raised
                 end →
       stat_raises (Crawl.url_to_slug url ++ lit ".html") = false →
       files !! (Crawl.url_to_slug url ++ lit ".html") = None
       ∧ ((fetch url = inr raised ∧ files' = files)
          ∨ ∃ text left_behind,
              fetch url = inl text
              ∧ write_text (Crawl.url_to_slug url ++ lit ".html") text
                = Crawl.NotWritten raised left_behind
              ∧ files' !! (Crawl.url_to_slug url ++ lit ".html") = left_behind))
  ∧ (outcome = Crawl.Returned false →
     stat_raises (Crawl.url_to_slug url ++ lit ".html") = false)
  ∧ (is_Some (files' !! (Crawl.url_to_slug url ++ lit ".html")) →
     ∀ stat_raises' fetch' write_text' url',
       Crawl.url_to_slug url' = Crawl.url_to_slug url →
       stat_raises' (Crawl.url_to_slug url ++ lit ".html") = false →
       Crawl.download_page stat_raises' fetch' write_text' files' url'
       = (Crawl.Returned true, files')).
Proof.
  intros Hrun.
  assert (is_Some (files' !! (Crawl.url_to_slug url ++ lit ".html")) →
          ∀ stat_raises' fetch' write_text' url',
            Crawl.url_to_slug url' = Crawl.url_to_slug url →
            stat_raises' (Crawl.url_to_slug url ++ lit ".html") = false →
            Crawl.download_page stat_raises' fetch' write_text' files' url'
            = (Crawl.Returned true, files')) as Hlater.
  { intros Hex stat_raises' fetch' write_text' url' Hslug Hstat.
    apply download_page_found; by rewrite Hslug. }
  unfold Crawl.download_page in Hrun. revert Hrun.
  set (dest := Crawl.url_to_slug url ++ lit ".html") in *.
  destruct (stat_raises dest) eqn:Hstat.
  { intros [= <- <-]. split_and!; try done; by intros []. }
  destruct (decide (is_Some (files !! dest))) as [Hex|Hno].
  { intros [= <- <-]. split_and!; try done; by intros []. }
  apply eq_None_not_Some in Hno.
  destruct (fetch url) as [text|raised0] eqn:Hfetch.
  - destruct (write_text dest text) as [|raised0 left_behind] eqn:Hwrite.
    + intros [= <- <-].
      destruct (insert_new_file files dest text Hno) as [Hsub Hother].
      split_and!; try done.
      * intros _. by rewrite lookup_insert_eq.
      * by intros [].
    + intros [= <- <-].
      assert (files ⊆ match left_behind with
                      | Some partial => <[dest := partial]> files
                      | None => files
                      end
              ∧ (∀ name, name ≠ dest →
                   match left_behind with
                   | Some partial => <[dest := partial]> files
                   | None => files
                   end !! name = files !! name)
              ∧ match left_behind with
                | Some partial => <[dest := partial]> files
                | None => files
                end !! dest = left_behind) as (Hsub & Hother & Hdest).
      { destruct left_behind as [partial|]; [|done].
        destruct (insert_new_file files dest partial Hno) as [Hsub Hother].
        by rewrite lookup_insert_eq. }
      split_and!; try done.
      * by destruct raised0.
      * intros raised Hout _. split; [done|]. right. exists text, left_behind.
        split; [done|]. split; [|done].
        by destruct raised0, raised.
  - destruct raised0; intros [= <- <-].
    + split_and!; try done.
      intros raised Hout _. split; [done|]. left. by destruct raised.
    + split_and!; try done.
      intros raised Hout _. split; [done|]. left. by destruct raised.
Qed.

(** A write that fails after it has created the file: the call reports a
    failure, and the next call takes the file that was left for the
    page. *)
Lemma download_page_cache_witness :
  let fetch (u : str) : str + Crawl.Raise := inl (lit "<html>") in
  let write_text (dest text : str) := Crawl.NotWritten Crawl.Caught (Some []) in
  let files' : gmap str str := {[ lit "h_a.html" := [] ]} in
  Crawl.download_page (λ _, false) fetch write_text ∅ (lit "https://h/a")
  = (Crawl.Returned false, files')
  ∧ Crawl.download_page (λ _, false) (λ _, inr Crawl.Caught) (λ _ _, Crawl.Written)
      files' (lit "http://h/a/")
    = (Crawl.Returned true, files').
Proof.
  intros fetch write_text files'.
  assert (Crawl.download_page (λ _, false) fetch write_text ∅ (lit "https://h/a")
          = (Crawl.Returned false, files')) as Hrun by reflexivity.
  split; [done|].
  destruct (download_page_cache (λ _, false) fetch write_text ∅ (lit "https://h/a")
              (Crawl.Returned false) files' Hrun)
    as (_ & _ & _ & _ & _ & _ & Hlater).
  apply Hlater; [by eexists | reflexivity | reflexivity].
Defined.

(** A file name that the system refuses: the exception of the test at
    line 38 leaves the call, and nothing is requested. *)
Example download_page_raises :
  Crawl.download_page (λ dest, (255 <? length dest)%nat) (λ _, inl (lit "<html>"))
    (λ _ _, Crawl.Written) ∅ (lit "https://h/" ++ replicate 300 "a"%char)
  = (Crawl.Raised, ∅).
Proof. vm_compute. reflexivity. Qed.

(* ===================================================================== *)
(** * extract.py: the category of a page                                  *)
(* ===================================================================== *)

Section ExtractFacts.

Implicit Types (s cur path scheme : str) (c : ascii) (segs : list str).

Lemma slash_free_cons c s :
  slash_free (c :: s) = true ↔ c ≠ Extract.slash ∧ slash_free s = true.
Proof.
  unfold slash_free. cbn [forallb]. rewrite andb_true_iff, negb_true_iff.
  unfold Extract.is_slash. by rewrite bool_decide_eq_false.
Qed.

Lemma startswith_other c s sep :
  c ≠ Extract.slash → startswith (c :: s) (Extract.slash :: sep) = false.
Proof.
  intros Hc. cbn [startswith].
  destruct (Ascii.eqb _ c) eqn:Heq; [|done].
  apply Ascii.eqb_eq in Heq. by subst c.
Qed.

Lemma startswith_slash s sep :
  startswith (Extract.slash :: s) (Extract.slash :: sep) = startswith s sep.
Proof. cbn [startswith]. by rewrite Ascii.eqb_refl. Qed.

Lemma split_go_cons sep cur c r :
  Extract.split_go sep 0 cur (c :: r)
  = if startswith (c :: r) sep
    then cur :: Extract.split_go sep (length sep - 1) [] r
    else Extract.split_go sep 0 (cur ++ [c]) r.
Proof. reflexivity. Qed.

Lemma split_go_skip sep k cur c r :
  Extract.split_go sep (S k) cur (c :: r) = Extract.split_go sep k cur r.
Proof. reflexivity. Qed.

(** A stretch without a slash goes to the piece being read. *)
Lemma split_go_free sep cur s r :
  slash_free s = true →
  Extract.split_go (Extract.slash :: sep) 0 cur (s ++ r)
  = Extract.split_go (Extract.slash :: sep) 0 (cur ++ s) r.
Proof.
  revert cur. induction s as [|c s IH]; intros cur.
  - by rewrite app_nil_r.
  - intros [Hc Hs]%slash_free_cons. cbn [app Extract.split_go].
    rewrite (startswith_other c _ sep Hc), (IH _ Hs), <- app_assoc. done.
Qed.

Lemma path_piece_head s :
  path_piece s = true →
  ∃ c r, s = c :: r ∧ c ≠ Extract.slash ∧ slash_free s = true.
Proof.
  unfold path_piece. destruct s as [|c r]; [done|]. cbn [truthy andb].
  intros Hs. pose proof Hs as [Hc _]%slash_free_cons. by exists c, r.
Qed.

Lemma join_head sep c r segs :
  ∃ tail, join sep ((c :: r) :: segs) = c :: tail.
Proof. destruct segs; simpl; by eexists. Qed.

(** [path.split("/")] gives back the pieces of a path. *)
Lemma split_slash_go segs cur :
  forallb slash_free segs = true →
  Extract.split_go [Extract.slash] 0 cur (join [Extract.slash] segs)
  = match segs with [] => [cur] | s :: rest => (cur ++ s) :: rest end.
Proof.
  revert cur. induction segs as [|s rest IH]; intros cur; [done|].
  cbn [forallb]. intros [Hs Hrest]%andb_true_iff.
  destruct rest as [|s' rest].
  - cbn [join]. rewrite <- (app_nil_r s) at 1. by rewrite split_go_free.
  - rewrite join_cons_cons, split_go_free by done.
    cbn [app Extract.split_go]. rewrite startswith_slash. cbn [startswith length Nat.sub].
    by rewrite (IH [] Hrest).
Qed.

(** A path of non-empty pieces has no double slash. *)
Lemma split_dslash_go segs cur :
  forallb path_piece segs = true →
  Extract.split_go [Extract.slash; Extract.slash] 0 cur (join [Extract.slash] segs)
  = [cur ++ join [Extract.slash] segs].
Proof.
  revert cur. induction segs as [|s rest IH]; intros cur.
  - intros _. simpl. by rewrite app_nil_r.
  - cbn [forallb]. intros [Hs Hrest]%andb_true_iff.
    apply path_piece_head in Hs as (c & r & Hsr & Hc & Hfree).
    destruct rest as [|s' rest].
    + cbn [join]. rewrite <- (app_nil_r s) at 1. by rewrite split_go_free.
    + rewrite join_cons_cons, split_go_free by done.
      pose proof Hrest as [Hs' _]%andb_true_iff.
      apply path_piece_head in Hs' as (c' & r' & -> & Hc' & _).
      destruct (join_head [Extract.slash] c' r' rest) as (tail & Htail).
      cbn [app]. rewrite Htail, split_go_cons.
      rewrite startswith_slash, (startswith_other c' _ [] Hc'), <- Htail.
      rewrite (IH _ Hrest), <- !app_assoc. done.
Qed.

Lemma split_dslash_scheme scheme path :
  slash_free scheme = true →
  Extract.split [Extract.slash; Extract.slash]
    (scheme ++ [Extract.slash; Extract.slash] ++ path)
  = scheme :: Extract.split [Extract.slash; Extract.slash] path.
Proof.
  intros Hfree. unfold Extract.split. rewrite split_go_free by done.
  cbn [app]. rewrite split_go_cons, !startswith_slash. cbn [startswith length Nat.sub].
  by rewrite split_go_skip.
Qed.

Lemma join_last_char segs :
  segs ≠ [] → forallb path_piece segs = true →
  ∃ x c, join [Extract.slash] segs = x ++ [c] ∧ c ≠ Extract.slash.
Proof.
  induction segs as [|s rest IH]; [done|]. intros _.
  cbn [forallb]. intros [Hs Hrest]%andb_true_iff.
  destruct rest as [|s' rest].
  - cbn [join]. apply path_piece_head in Hs as (c & r & Hs & _ & Hfree).
    destruct s as [|d x _] using rev_ind; [done|].
    exists x, d. split; [done|]. clear -Hfree.
    induction x as [|e x IHx].
    + by apply slash_free_cons in Hfree as [? _].
    + apply IHx. by apply slash_free_cons in Hfree as [_ ?].
  - destruct (IH ltac:(done) Hrest) as (x & c & Hx & Hc).
    rewrite join_cons_cons, Hx. exists (s ++ [Extract.slash] ++ x), c.
    by rewrite <- !app_assoc.
Qed.

Lemma rstrip_slashes x c n :
  c ≠ Extract.slash →
  rstrip_by Extract.is_slash (x ++ [c] ++ replicate n Extract.slash) = x ++ [c].
Proof.
  intros Hc. unfold rstrip_by. rewrite !reverse_app, reverse_replicate.
  rewrite <- app_assoc. cbn [reverse rev_append app].
  assert (∀ r, lstrip_by Extract.is_slash (replicate n Extract.slash ++ c :: r) = c :: r)
    as Hdrop.
  { intros r. induction n as [|n IH]; cbn [replicate app lstrip_by].
    - unfold Extract.is_slash. by rewrite bool_decide_eq_false_2.
    - unfold Extract.is_slash at 1. by rewrite bool_decide_eq_true_2. }
  change (reverse [c]) with [c]. cbn [app]. rewrite Hdrop.
  by rewrite reverse_cons, reverse_involutive.
Qed.

End ExtractFacts.

(** X17. The category of a page with a url of the usual shape: a scheme
    without a slash, a double slash, then the host and the pieces of the
    path, each non-empty and without a slash, separated by single
    slashes, and any number of slashes at the end. A url with the host
    only has the category "General"; otherwise the category is read off
    the first piece of the path alone, dashes turned into spaces, and
    put in title case: neither the host, nor the later pieces, nor the
    trailing slashes matter. *)
Theorem category_from_url_pieces (str_title : str → str)
    (scheme host : str) (pieces : list str) (n : nat) :
  slash_free scheme = true →
  forallb path_piece (host :: pieces) = true →
  Extract.category_from_url str_title
    (scheme ++ [Extract.slash; Extract.slash]
     ++ join [Extract.slash] (host :: pieces) ++ replicate n Extract.slash)
  = match pieces with
    | [] => lit "General"
    | cat :: _ => str_title (Extract.dashes_to_spaces cat)
    end.
Proof.
  intros Hscheme Hpieces. unfold Extract.category_from_url.
  destruct (join_last_char (host :: pieces) ltac:(done) Hpieces) as (x & c & Hx & Hc).
  rewrite Hx.
  replace (scheme ++ [Extract.slash; Extract.slash] ++ (x ++ [c]) ++ replicate n Extract.slash)
    with ((scheme ++ [Extract.slash; Extract.slash] ++ x) ++ [c] ++ replicate n Extract.slash)
    by (by rewrite <- !app_assoc).
  rewrite (rstrip_slashes _ c n Hc), <- !app_assoc, <- Hx.
  rewrite (split_dslash_scheme scheme _ Hscheme). unfold Extract.split.
  rewrite (split_dslash_go _ [] Hpieces). cbn [List.last app].
  assert (forallb slash_free (host :: pieces) = true) as Hfree.
  { clear -Hpieces. induction (host :: pieces) as [|s l IH]; [done|].
    cbn [forallb] in *. apply andb_true_iff in Hpieces as [Hs Hl].
    unfold path_piece in Hs. apply andb_true_iff in Hs as [_ Hs].
    by rewrite Hs, IH. }
  rewrite (split_slash_go _ [] Hfree). cbn [app]. by destruct pieces.
Qed.

Lemma category_from_url_pieces_witness :
  Extract.category_from_url (λ s, s)
    (lit "https://urbanemissions.info/india-air-quality/delhi/")
  = lit "india air quality".
Proof.
  apply (category_from_url_pieces (λ s, s) (lit "https:") (lit "urbanemissions.info")
           [lit "india-air-quality"; lit "delhi"] 1); reflexivity.
Defined.

(** Outside that shape the category can come from elsewhere: after a
    double slash inside the path, what precedes it is not read. *)
Example category_from_url_double_slash :
  Extract.category_from_url (λ s, s) (lit "https://h/tools//maps") = lit "General"
  ∧ Extract.category_from_url (λ s, s) (lit "h/tools/maps") = lit "tools".
Proof. split; vm_compute; reflexivity. Qed.

(* ===================================================================== *)
(** * app.py: the chat endpoint                                           *)
(* ===================================================================== *)

Section ChatFacts.

Context {distance : Type}.

Implicit Types (results : Results distance) (request : App.ChatRequest).

(** [query] on index-aligned arrays, step by step. *)
Lemma query_aligned results llm question chat_history :
  aligned results →
  Prompt.query results llm question chat_history
  = let contexts := take 6 (cap_per_url [] (hits_of results)) in
    if truthy contexts then
      contents ← Prompt.build_contents question contexts chat_history;
      Some (llm contents, aggregate contexts)
    else Some (Prompt.no_context_answer, []).
Proof.
  intros Hal. unfold Prompt.query. rewrite (retrieve_capped results 6 Hal).
  cbn [mbind option_bind]. change (Z.to_nat (Z.max 1 6)) with 6%nat. cbn zeta.
  destruct (truthy _); [|done]. unfold Prompt.generate.
  rewrite (sources_loop_aggregate [] _ ∅) by (intros u i; by rewrite lookup_empty).
  by destruct (Prompt.build_contents _ _ _).
Qed.

Lemma mapM_fmap_Some {A B C} (f : B → option C) (g : A → B) (h : A → C) (l : list A) :
  (∀ x, f (g x) = Some (h x)) → mapM f (g <$> l) = Some (h <$> l).
Proof.
  intros Hf. induction l as [|x l IH]; [done|].
  rewrite !fmap_cons. cbn [mapM]. rewrite Hf. cbn [mbind option_bind].
  rewrite IH. done.
Qed.

Lemma last_six_fmap {A B} (f : A → B) (l : list A) :
  last_six (f <$> l) = f <$> last_six l.
Proof. unfold last_six. by rewrite fmap_drop, length_fmap. Qed.

Lemma history_content_of (m : App.ChatMessage) :
  Prompt.history_content
    (<[lit "role" := App.msg_role m]> (<[lit "content" := App.msg_content m]> ∅))
  = Some (content_of m).
Proof.
  unfold Prompt.history_content, content_of.
  rewrite lookup_insert_eq, lookup_insert_ne by discriminate.
  rewrite lookup_insert_eq. cbn [mbind option_bind].
  destruct (decide (App.msg_role m = lit "user")) as [Hr|Hr].
  - by rewrite decide_True by (by rewrite Hr).
  - rewrite decide_False; [done|]. intros [= ?]. done.
Qed.

Lemma history_of_contents request :
  Prompt.history_contents (Some (App.history_of request))
  = Some (content_of <$> last_six (App.chat_history request)).
Proof.
  unfold Prompt.history_contents, App.history_of.
  generalize (App.chat_history request) as l. intros l.
  destruct (truthy _) eqn:Ht.
  - rewrite last_six_fmap. apply mapM_fmap_Some, history_content_of.
  - by destruct l.
Qed.

End ChatFacts.

(** X18. The chat endpoint on index-aligned arrays always answers: the
    dictionaries it builds from the messages of the request have both
    keys, so reading the history cannot fail. Without any row the
    response is the fixed answer with no source. Otherwise the model is
    given the last six messages of the request, in order, a message
    whose role is not "user" with the role "model", and then the
    question with the contexts; the response carries its answer and at
    most six sources. *)
Theorem chat_answers {distance : Type} (results : Results distance)
    (llm : list Prompt.Content → str) (request : App.ChatRequest) :
  aligned results →
  ∃ response, App.chat results llm request = Some response
    ∧ (ids results = [] →
       response = App.mkChatResponse Prompt.no_context_answer [])
    ∧ (ids results ≠ [] →
       App.answer response
       = llm ((content_of <$> last_six (App.chat_history request))
              ++ [Prompt.mkContent (lit "user")
                    [Prompt.user_message (App.question request)
                       (take 6 (cap_per_url [] (hits_of results)))]])
       ∧ App.sources response = aggregate (take 6 (cap_per_url [] (hits_of results)))
       ∧ (1 ≤ length (App.sources response) ≤ 6)%nat).
Proof.
  intros Hal. unfold App.chat. rewrite (query_aligned results _ _ _ Hal). cbn zeta.
  unfold Prompt.build_contents. rewrite history_of_contents. cbn [mbind option_bind].
  destruct (decide (ids results = [])) as [Hids|Hne].
  - unfold hits_of at 1. rewrite Hids. cbn [rows cap_per_url take truthy].
    eexists. split; [done|]. split; [done|]. by intros [].
  - destruct (query_contexts_nonempty results Hal Hne) as (h & rest & Hctx).
    assert (truthy (take 6 (cap_per_url [] (hits_of results))) = true) as ->
      by (by rewrite Hctx).
    cbn [mbind option_bind].
    eexists. split; [done|]. split; [done|]. intros _. cbn [App.answer App.sources].
    split; [done|]. split; [done|]. split.
    + rewrite Hctx. simpl. lia.
    + rewrite <- (length_fmap source_url), aggregate_urls.
      etrans; [apply first_seen_length|]. rewrite length_fmap, length_take. lia.
Qed.

Lemma chat_answers_witness :
  let m := mkMetadata (lit "a") (lit "T") (lit "c") 0 in
  let results : Results Z := mkResults [lit "a_0"] [lit "x"] [m] [1%Z] in
  let request := App.mkChatRequest (lit "q")
                   [App.mkChatMessage (lit "assistant") (lit "hello")] in
  ∃ response, App.chat results (λ contents, contents ≫= Prompt.role) request = Some response
    ∧ App.answer response = lit "modeluser".
Proof.
  intros m results request.
  destruct (chat_answers results (λ contents, contents ≫= Prompt.role) request)
    as (response & Hrun & _ & Hrows); [repeat split|].
  exists response. split; [done|].
  destruct Hrows as (-> & _); [done|]. reflexivity.
Defined.
